(** * The box filter of gopdq: [box1DFloatC] and the Jarosz filter

    A shallow embedding of [simd_vectorized.c].  The C functions work on
    raw [float*] pointers, so memory is one heap of float cells indexed by
    address (in units of one float); a pointer is an address and the
    pointer arithmetic of the source is addition on addresses.  A load or
    a store outside the allocated cells is undefined behaviour in C and is
    an error ([None]) here.  Input and output may overlap in the model as
    they may in C; the theorems that need them apart say so.

    The [float] arithmetic of the source is an interface ([FloatArith])
    with two instances.  [binary32] is IEEE-754 single precision with
    round-to-nearest-even, every operation rounded to [float]: what the C
    code computes on the x86-64 targets its AVX2 intrinsics are for.
    [rational] is arithmetic without rounding, the one the prose of the
    specification reasons in.  The functions are written once, over the
    interface; runs in [binary32] show what the code does, and the laws
    of [ExactArith] say what holds when nothing is rounded.

    C [int] values are integers of [Z]; signed overflow (undefined in C)
    is not modelled: the development is about runs whose counters and
    indices stay in the range of [int]. *)

From Stdlib Require Import ZArith List Lia.
From Stdlib Require Import QArith Qpower Qcanon Lqa.
From Stdlib Require Import Floats.SpecFloat.
From stdpp Require Import base option list gmap.

Local Open Scope Z_scope.

(** ** The arithmetic of [float] *)

Class FloatArith (F : Type) := {
  f_zero : F;                 (* 0.0 *)
  f_one  : F;                 (* (float)1 *)
  f_add  : F -> F -> F;
  f_sub  : F -> F -> F;
  f_mul  : F -> F -> F;
  f_div  : F -> F -> F
}.

(** IEEE-754 binary32: 24 bits of precision, exponent of infinity 128. *)
Definition b32_add := SFadd 24 128.
Definition b32_sub := SFsub 24 128.
Definition b32_mul := SFmul 24 128.
Definition b32_div := SFdiv 24 128.

(** The conversion of an integer constant to [float]. *)
Definition b32_of_Z (z : Z) : spec_float := binary_normalize 24 128 z 0 false.

Definition b32_one : spec_float := S754_finite false 8388608 (-23).

(** [0 < d] in binary32. *)
Definition b32_positive (d : spec_float) : Prop := SFltb (S754_zero false) d = true.

(** The float of a positive integer [m] below 2^24: the mantissa is [m]
    shifted to 24 digits, nothing is rounded. *)
Definition shift_left (m : positive) (z : Z) : positive :=
  match z with
  | Zpos p => Pos.iter xO m p
  | _ => m
  end.

Definition b32_normal (m : positive) : spec_float :=
  S754_finite false (shift_left m (24 - Zpos (digits2_pos m)))
              (Zpos (digits2_pos m) - 24).

(** *** The value of a binary32 float

    [b32_mag x] is the magnitude of a finite [x] as a rational number,
    [b32_sign x] its sign bit.  Zero, the infinities and NaN have
    magnitude 0 here; [b32_real] tells zero and the finite floats from
    the infinities and NaN. *)
Definition pow2 (e : Z) : Q := Qpower 2 e.

Definition b32_mag (x : spec_float) : Q :=
  match x with
  | S754_finite _ m e => inject_Z (Zpos m) * pow2 e
  | _ => 0
  end.

Definition b32_sign (x : spec_float) : bool :=
  match x with
  | S754_zero s | S754_infinity s | S754_finite s _ _ => s
  | S754_nan => false
  end.

Definition b32_real (x : spec_float) : Prop :=
  match x with
  | S754_zero _ | S754_finite _ _ _ => True
  | _ => False
  end.

(** A finite float in the range of binary32: at most 24 digits and an
    exponent of at most 104, so a magnitude of at most
    [(2^24 - 1) * 2^104], the largest [float]. *)
Definition b32_bounded (x : spec_float) : Prop :=
  match x with
  | S754_finite _ m e => Zpos m < 2 ^ 24 /\ e <= 104
  | _ => True
  end.

Definition b32_max : Q := inject_Z (2 ^ 24 - 1) * pow2 104.

(** Equal up to a tolerance: the same float, or two floats of the same
    sign, zero or finite, whose magnitudes differ by at most [2^-22]
    times the second (less than four units in the last place of a
    normal float) plus [2^-148] (two units in the last place of a
    subnormal one). *)
Definition b32_close (u v : spec_float) : Prop :=
  u = v \/
  (b32_real u /\ b32_real v /\ b32_sign u = b32_sign v /\
   (b32_mag u - b32_mag v <= pow2 (-22) * b32_mag v + pow2 (-148))%Q /\
   (b32_mag v - b32_mag u <= pow2 (-22) * b32_mag v + pow2 (-148))%Q).

(** *** The rounding of [SpecFloat], read on the rationals

    A shift record [(m, r, s)] at exponent [e] stands for a real
    [t * 2^e] with [m <= t < m + 1]: the round bit [r] says whether [t]
    is in the upper half of that interval, the sticky bit [s] whether it
    lies strictly inside the half. *)
Definition located (m : Z) (r s : bool) (t : Q) : Prop :=
  match r, s with
  | false, false => (t == inject_Z m)%Q
  | false, true => (inject_Z m < t /\ t < inject_Z m + (1#2))%Q
  | true, false => (t == inject_Z m + (1#2))%Q
  | true, true => (inject_Z m + (1#2) < t /\ t < inject_Z m + 1)%Q
  end.

Definition located_rec (mrs : shr_record) (t : Q) : Prop :=
  located (shr_m mrs) (shr_r mrs) (shr_s mrs) t.

(** The result of [binary_round_aux] from its last mantissa and
    exponent. *)
Definition b32_pack (sx : bool) (mz ez : Z) : spec_float :=
  match mz with
  | Z0 => S754_zero sx
  | Zpos p => if ez <=? 104 then S754_finite sx p ez else S754_infinity sx
  | Zneg _ => S754_nan
  end.

#[export] Instance binary32 : FloatArith spec_float := {|
  f_zero := S754_zero false;
  f_one  := b32_one;
  f_add  := b32_add;
  f_sub  := b32_sub;
  f_mul  := b32_mul;
  f_div  := b32_div
|}.

(** Exact arithmetic: the rationals in canonical form. *)
#[export] Instance rational : FloatArith Qc := {|
  f_zero := Q2Qc 0;
  f_one  := Q2Qc 1;
  f_add  := Qcplus;
  f_sub  := Qcminus;
  f_mul  := Qcmult;
  f_div  := Qcdiv
|}.

(** ** Memory and the machine state *)

Section Model.
Context {F : Type} `{FloatArith F}.

(** [heap] holds the float cells.  [writes] and [divisors] are ghost
    logs: every store appends its address, every division its divisor.
    No operation reads them. *)
Record machine := Machine {
  heap : gmap Z F;
  writes : list Z;
  divisors : list F
}.

Definition load (a : Z) (m : machine) : option F := heap m !! a.

Definition store (a : Z) (v : F) (m : machine) : option machine :=
  match heap m !! a with
  | Some _ => Some (Machine (<[a := v]> (heap m)) (writes m ++ [a]) (divisors m))
  | None => None
  end.

Definition divide (x d : F) (m : machine) : F * machine :=
  (f_div x d, Machine (heap m) (writes m) (divisors m ++ [d])).

(** The local variables of [box1DFloatC] that live across its loops. *)
Record frame := Frame {
  mach : machine;
  li : Z;    (* index of left edge of read window *)
  ri : Z;    (* index of right edge of read window *)
  oi : Z;    (* index into output vector *)
  sum : F;
  currentWindowSize : F
}.

(** ** Loops

    [for (; i < bound; i += step) body]: the condition is tested before
    every iteration, as in C.  The fuel [bound - i] is never the reason
    the loop stops when [step >= 1] (see [for_loop_exit]). *)
Fixpoint for_fuel {S : Type} (fuel : nat) (i bound step : Z)
    (body : Z -> S -> option S) (s : S) : option (Z * S) :=
  match fuel with
  | O => Some (i, s)
  | Datatypes.S fuel' =>
      if i <? bound
      then s' ← body i s; for_fuel fuel' (i + step) bound step body s'
      else Some (i, s)
  end.

Definition for_loop {S : Type} (i bound step : Z)
    (body : Z -> S -> option S) (s : S) : option (Z * S) :=
  for_fuel (Z.to_nat (bound - i)) i bound step body s.

(** ** [box1DFloatC] *)

(** Phase 1: initial accumulation. *)
Definition phase1_body (invec stride : Z) (_ : Z) (st : frame) : option frame :=
  x ← load (invec + ri st) (mach st);
  Some (Frame (mach st) (li st) (ri st + stride) (oi st)
              (f_add (sum st) x) (f_add (currentWindowSize st) f_one)).

(** Phase 2: initial writes with small window. *)
Definition phase2_body (invec outVec stride : Z) (_ : Z) (st : frame) : option frame :=
  x ← load (invec + ri st) (mach st);
  let sum' := f_add (sum st) x in
  let cws' := f_add (currentWindowSize st) f_one in
  let '(v, m) := divide sum' cws' (mach st) in
  m' ← store (outVec + oi st) v m;
  Some (Frame m' (li st) (ri st + stride) (oi st + stride) sum' cws').

(** Phase 3, eight steps at a time: the eight sums are computed first
    (sixteen loads), then the eight products are stored. *)
Definition phase3_block (invec outVec stride : Z) (denom : F) (_ : Z) (st : frame)
    : option frame :=
  let m := mach st in
  r0 ← load (invec + (ri st + stride * 0)) m; l0 ← load (invec + (li st + stride * 0)) m;
  let buf0 := f_sub (f_add (sum st) r0) l0 in
  r1 ← load (invec + (ri st + stride * 1)) m; l1 ← load (invec + (li st + stride * 1)) m;
  let buf1 := f_sub (f_add buf0 r1) l1 in
  r2 ← load (invec + (ri st + stride * 2)) m; l2 ← load (invec + (li st + stride * 2)) m;
  let buf2 := f_sub (f_add buf1 r2) l2 in
  r3 ← load (invec + (ri st + stride * 3)) m; l3 ← load (invec + (li st + stride * 3)) m;
  let buf3 := f_sub (f_add buf2 r3) l3 in
  r4 ← load (invec + (ri st + stride * 4)) m; l4 ← load (invec + (li st + stride * 4)) m;
  let buf4 := f_sub (f_add buf3 r4) l4 in
  r5 ← load (invec + (ri st + stride * 5)) m; l5 ← load (invec + (li st + stride * 5)) m;
  let buf5 := f_sub (f_add buf4 r5) l5 in
  r6 ← load (invec + (ri st + stride * 6)) m; l6 ← load (invec + (li st + stride * 6)) m;
  let buf6 := f_sub (f_add buf5 r6) l6 in
  r7 ← load (invec + (ri st + stride * 7)) m; l7 ← load (invec + (li st + stride * 7)) m;
  let buf7 := f_sub (f_add buf6 r7) l7 in
  m ← store (outVec + oi st) (f_mul buf0 denom) m;
  m ← store (outVec + (oi st + stride * 1)) (f_mul buf1 denom) m;
  m ← store (outVec + (oi st + stride * 2)) (f_mul buf2 denom) m;
  m ← store (outVec + (oi st + stride * 3)) (f_mul buf3 denom) m;
  m ← store (outVec + (oi st + stride * 4)) (f_mul buf4 denom) m;
  m ← store (outVec + (oi st + stride * 5)) (f_mul buf5 denom) m;
  m ← store (outVec + (oi st + stride * 6)) (f_mul buf6 denom) m;
  m ← store (outVec + (oi st + stride * 7)) (f_mul buf7 denom) m;
  Some (Frame m (li st + stride * 8) (ri st + stride * 8) (oi st + stride * 8)
              buf7 (currentWindowSize st)).

(** Phase 3, one step: the fallback for the remainder. *)
Definition phase3_single (invec outVec stride : Z) (_ : Z) (st : frame) : option frame :=
  r ← load (invec + ri st) (mach st);
  let sum' := f_add (sum st) r in
  l ← load (invec + li st) (mach st);
  let sum'' := f_sub sum' l in
  let '(v, m) := divide sum'' (currentWindowSize st) (mach st) in
  m' ← store (outVec + oi st) v m;
  Some (Frame m' (li st + stride) (ri st + stride) (oi st + stride)
              sum'' (currentWindowSize st)).

(** Phase 4: final writes with small window. *)
Definition phase4_body (invec outVec stride : Z) (_ : Z) (st : frame) : option frame :=
  l ← load (invec + li st) (mach st);
  let sum' := f_sub (sum st) l in
  let cws' := f_sub (currentWindowSize st) f_one in
  let '(v, m) := divide sum' cws' (mach st) in
  m' ← store (outVec + oi st) v m;
  Some (Frame m' (li st + stride) (ri st) (oi st + stride) sum' cws').

(** The two loops of phase 3 share their counter [i]. *)
Definition phase3 (invec outVec stride phase3Nreps : Z) (st : frame) : option frame :=
  let i := 0 in
  let '(denom, m) := divide f_one (currentWindowSize st) (mach st) in
  let st := Frame m (li st) (ri st) (oi st) (sum st) (currentWindowSize st) in
  '(i, st) ← for_loop i (phase3Nreps - 8) 8 (phase3_block invec outVec stride denom) st;
  '(_, st) ← for_loop i phase3Nreps 1 (phase3_single invec outVec stride) st;
  Some st.

Definition box1DFloatC (invec outVec vectorLength stride fullWindowSize : Z)
    (m : machine) : option machine :=
  let halfWindowSize := (fullWindowSize + 2) ÷ 2 in
  let phase1Nreps := halfWindowSize - 1 in
  let phase2Nreps := fullWindowSize - halfWindowSize + 1 in
  let phase3Nreps := vectorLength - fullWindowSize in
  let phase4Nreps := halfWindowSize - 1 in
  let st := Frame m 0 0 0 f_zero f_zero in
  '(_, st) ← for_loop 0 phase1Nreps 1 (phase1_body invec stride) st;
  '(_, st) ← for_loop 0 phase2Nreps 1 (phase2_body invec outVec stride) st;
  st ← phase3 invec outVec stride phase3Nreps st;
  '(_, st) ← for_loop 0 phase4Nreps 1 (phase4_body invec outVec stride) st;
  Some (mach st).

(** The reference for the steady state: the same function with every
    step of phase 3 done by the single-step fallback loop. *)
Definition phase3_fallback (invec outVec stride phase3Nreps : Z) (st : frame)
    : option frame :=
  '(_, st) ← for_loop 0 phase3Nreps 1 (phase3_single invec outVec stride) st;
  Some st.

Definition box1D_fallback (invec outVec vectorLength stride fullWindowSize : Z)
    (m : machine) : option machine :=
  let halfWindowSize := (fullWindowSize + 2) ÷ 2 in
  let phase1Nreps := halfWindowSize - 1 in
  let phase2Nreps := fullWindowSize - halfWindowSize + 1 in
  let phase3Nreps := vectorLength - fullWindowSize in
  let phase4Nreps := halfWindowSize - 1 in
  let st := Frame m 0 0 0 f_zero f_zero in
  '(_, st) ← for_loop 0 phase1Nreps 1 (phase1_body invec stride) st;
  '(_, st) ← for_loop 0 phase2Nreps 1 (phase2_body invec outVec stride) st;
  st ← phase3_fallback invec outVec stride phase3Nreps st;
  '(_, st) ← for_loop 0 phase4Nreps 1 (phase4_body invec outVec stride) st;
  Some (mach st).

(** ** The two-dimensional passes *)

Definition boxAlongColsFloatC (input output numRows numCols windowSize : Z)
    (m : machine) : option machine :=
  snd <$> for_loop 0 numCols 1
    (fun j m => box1DFloatC (input + j) (output + j) numRows numCols windowSize m) m.

Definition boxAlongRowsFloatC (input output numRows numCols windowSize : Z)
    (m : machine) : option machine :=
  snd <$> for_loop 0 numRows 1
    (fun i m => box1DFloatC (input + i * numCols) (output + i * numCols)
                  numCols 1 windowSize m) m.

Definition jaroszFilterFloat
    (buffer1 buffer2 numRows numCols windowSizeAlongRows windowSizeAlongCols nreps : Z)
    (m : machine) : option machine :=
  snd <$> for_loop 0 nreps 1
    (fun _ m =>
       m ← boxAlongRowsFloatC buffer1 buffer2 numRows numCols windowSizeAlongRows m;
       boxAlongColsFloatC buffer2 buffer1 numRows numCols windowSizeAlongCols m) m.

(** ** The eight-lane operations

    An [__m256] is a list of eight floats.  [_mm256_loadu_ps] loads the
    [k = 8] cells from an address on, [_mm256_storeu_ps] stores them;
    all loads of a call come before its stores. *)
Fixpoint load_vec (k : nat) (a : Z) (m : machine) : option (list F) :=
  match k with
  | O => Some []
  | Datatypes.S k' =>
      x ← load a m; xs ← load_vec k' (a + 1) m; Some (x :: xs)
  end.

Fixpoint store_vec (a : Z) (vs : list F) (m : machine) : option machine :=
  match vs with
  | [] => Some m
  | v :: vs' => m' ← store a v m; store_vec (a + 1) vs' m'
  end.

(** [_mm256_div_ps]: the lane-wise quotients. *)
Fixpoint divide_vec (xs ds : list F) (m : machine) : list F * machine :=
  match xs, ds with
  | x :: xs', d :: ds' =>
      let '(v, m1) := divide x d m in
      let '(vs, m2) := divide_vec xs' ds' m1 in
      (v :: vs, m2)
  | _, _ => ([], m)
  end.

Definition simd_vectorized_div (out num denom : Z) (m : machine) : option machine :=
  num_vec ← load_vec 8 num m;
  denom_vec ← load_vec 8 denom m;
  let '(result_vec, m) := divide_vec num_vec denom_vec m in
  store_vec out result_vec m.

(** [_mm256_mul_ps]: the lane-wise products. *)
Definition simd_vectorized_mul (out num op : Z) (m : machine) : option machine :=
  num_vec ← load_vec 8 num m;
  op_vec ← load_vec 8 op m;
  let result_vec := zip_with f_mul num_vec op_vec in
  store_vec out result_vec m.

End Model.

Arguments machine F : clear implicits.
Arguments frame F : clear implicits.

(** ** Test harness: a heap from two arrays *)

(** [cells a xs] holds [xs] at the consecutive addresses [a, a+1, ...]. *)
Fixpoint cells {F : Type} (a : Z) (xs : list F) : gmap Z F :=
  match xs with
  | [] => ∅
  | x :: xs' => <[a := x]> (cells (a + 1) xs')
  end.

Definition machine_of {F : Type} (h : gmap Z F) : machine F := Machine h [] [].

(** A machine with the array [xs] at [p] and the array [ys] at [q]. *)
Definition two_arrays {F : Type} (p : Z) (xs : list F) (q : Z) (ys : list F)
    : machine F :=
  machine_of (cells p xs ∪ cells q ys).

Definition rat_of_Z (z : Z) : Qc := Q2Qc (inject_Z z).

(** The float 0.1f, that is 13421773 * 2^-27. *)
Definition b32_tenth : spec_float := S754_finite false 13421773 (-27).

(** The contents of [n] cells from address [a] on, [stride] apart. *)
Fixpoint read_cells {F : Type} (h : gmap Z F) (a stride : Z) (n : nat) : list (option F) :=
  match n with
  | O => []
  | S n' => h !! a :: read_cells h (a + stride) stride n'
  end.

(** ** Closed forms of a run of [box1DFloatC]

    The values a run computes, as functions of the input samples
    [x 0, x 1, ...], with the operations in the order of the source. *)

Section ClosedForms.
Context {F : Type} `{FloatArith F}.

(** Sample [k] of the strided sequence at [p]. *)
Definition sample (m : machine F) (p s : Z) (k : nat) : F :=
  default f_zero (heap m !! (p + Z.of_nat k * s)).

(** [currentWindowSize] after [k] increments from zero. *)
Fixpoint count (k : nat) : F :=
  match k with
  | O => f_zero
  | S k' => f_add (count k') f_one
  end.

(** [sum] after accumulating the first [t] samples (phases 1 and 2). *)
Fixpoint prefix_sum (x : nat -> F) (t : nat) : F :=
  match t with
  | O => f_zero
  | S t' => f_add (prefix_sum x t') (x t')
  end.

(** [sum] after [k] steps of phase 3. *)
Fixpoint slide_sum (x : nat -> F) (w k : nat) : F :=
  match k with
  | O => prefix_sum x w
  | S k' => f_sub (f_add (slide_sum x w k') (x (w + k')%nat)) (x k')
  end.

(** [sum] and [currentWindowSize] after [j] steps of phase 4. *)
Fixpoint shrink_sum (x : nat -> F) (w n j : nat) : F :=
  match j with
  | O => slide_sum x w (n - w)
  | S j' => f_sub (shrink_sum x w n j') (x (n - w + j')%nat)
  end.

Fixpoint shrink_count (w j : nat) : F :=
  match j with
  | O => count w
  | S j' => f_sub (shrink_count w j') f_one
  end.

(** [halfWindowSize - 1], the number of steps of phases 1 and 4. *)
Definition half_window (w : nat) : nat := (w / 2)%nat.

(** The number of iterations of the block loop of phase 3 when the phase
    has [r] steps: [i = 0, 8, ...] while [i < r - 8]. *)
Definition blocks (r : nat) : nat := ((r - 1) / 8)%nat.

(** The value stored at output position [i], when the first [kb] steps
    of phase 3 are done by the block loop. *)
Definition out_value (kb : nat) (x : nat -> F) (w n i : nat) : F :=
  let a := half_window w in
  if (i <? w - a)%nat then
    f_div (prefix_sum x (S (a + i))) (count (S (a + i)))
  else if (i <? n - a)%nat then
    let k := (i - (w - a))%nat in
    if (k <? kb)%nat
    then f_mul (slide_sum x w (S k)) (f_div f_one (count w))
    else f_div (slide_sum x w (S k)) (count w)
  else
    let j := (i - (n - a))%nat in
    f_div (shrink_sum x w n (S j)) (shrink_count w (S j)).

(** The heap after the first [t] output positions were stored. *)
Fixpoint written (h : gmap Z F) (q s : Z) (v : nat -> F) (t : nat) : gmap Z F :=
  match t with
  | O => h
  | S t' => <[q + Z.of_nat t' * s := v t']> (written h q s v t')
  end.

(** The addresses of the first [t] output positions. *)
Definition out_addrs (q s : Z) (t : nat) : list Z :=
  (fun i : nat => q + Z.of_nat i * s) <$> seq 0 t.

(** The divisors of a run, in the order of the divisions. *)
Definition div_log (kb w n : nat) : list F :=
  let a := half_window w in
  ((fun i => count (S (a + i))) <$> seq 0 (w - a))
  ++ [count w]
  ++ replicate (n - w - kb) (count w)
  ++ ((fun j => shrink_count w (S j)) <$> seq 0 a).

(** Input and output sequences share no cell. *)
Definition separate (p q s : Z) (n : nat) : Prop :=
  forall j k : nat, (j < n)%nat -> (k < n)%nat ->
    p + Z.of_nat j * s <> q + Z.of_nat k * s.

(** The machine after [t] stores and the divisions [dl] of a run started
    in [m0]: what holds of it in any case, and its heap when input and
    output are separate. *)
Definition mach_inv (kb : nat) (m0 : machine F) (p q s : Z) (w n : nat)
    (t : nat) (dl : list F) (m : machine F) : Prop :=
  writes m = writes m0 ++ out_addrs q s t /\
  divisors m = divisors m0 ++ dl /\
  dom (heap m) = dom (heap m0) /\
  (forall a, a ∉ out_addrs q s t -> heap m !! a = heap m0 !! a) /\
  (separate p q s n ->
   heap m = written (heap m0) q s (out_value kb (sample m0 p s) w n) t).

(** The locals between two iterations. *)
Definition frame_inv (kb : nat) (m0 : machine F) (p q s : Z) (w n : nat)
    (t : nat) (vli vri : Z) (vsum vcws : F) (dl : list F) (st : frame F) : Prop :=
  li st = vli /\ ri st = vri /\ oi st = Z.of_nat t * s /\
  currentWindowSize st = vcws /\
  mach_inv kb m0 p q s w n t dl (mach st) /\
  (separate p q s n -> sum st = vsum).

(** What a run that got as far as [st] has shown of the heap it started
    from: the first [R] cells of the input sequence and the first [O]
    cells of the output sequence exist. *)
Definition touched (m0 : machine F) (p q s : Z) (R O : nat) (st : frame F) : Prop :=
  ri st = Z.of_nat R * s /\ oi st = Z.of_nat O * s /\
  dom (heap (mach st)) = dom (heap m0) /\
  (forall k, (k < R)%nat -> is_Some (heap m0 !! (p + Z.of_nat k * s))) /\
  (forall k, (k < O)%nat -> is_Some (heap m0 !! (q + Z.of_nat k * s))).

End ClosedForms.

Arguments half_window : simpl never.
Arguments blocks : simpl never.

(** ** The notions of the specification *)

Section Notions.
Context {F : Type} `{FloatArith F}.

(** The cells of a sequence of [n] samples at [p], [s] apart, exist. *)
Definition allocated (h : gmap Z F) (p s n : Z) : Prop :=
  forall k, 0 <= k < n -> is_Some (h !! (p + k * s)).

(** The input sequence at [p] and the output sequence at [q] share no cell. *)
Definition disjoint_seqs (p q s n : Z) : Prop :=
  forall j k, 0 <= j < n -> 0 <= k < n -> p + j * s <> q + k * s.

(** The sum of the [len] samples from index [lo] on. *)
Fixpoint range_sum (x : nat -> F) (lo len : nat) : F :=
  match len with
  | O => f_zero
  | S len' => f_add (range_sum x lo len') (x (lo + len')%nat)
  end.

(** The mean of the samples of [lo, hi) with the count of them as divisor. *)
Definition mean_of (x : nat -> F) (lo hi : nat) : F :=
  f_div (range_sum x lo (hi - lo)) (count (hi - lo)).

(** The window of output position [i] as the code has it: [w] samples
    in the steady state, [(w - 1) / 2] to the left of [i] and [w / 2]
    to its right, cut to [0, n). *)
Definition window_mean (x : nat -> F) (w n i : nat) : F :=
  mean_of x (i - (w - 1) / 2) (Nat.min n (S (i + w / 2))).

(** The window [i - w/2, i + w/2] cut to [0, n). *)
Definition symmetric_mean (x : nat -> F) (w n i : nat) : F :=
  mean_of x (i - w / 2) (Nat.min n (S (i + w / 2))).

(** One repetition in the words of the specification: the row pass from
    buffer A into buffer B, then the column pass from buffer B into
    buffer A. *)
Definition repetition (bufferA bufferB numRows numCols windowRows windowCols : Z)
    (m : machine F) : option (machine F) :=
  m' ← boxAlongRowsFloatC bufferA bufferB numRows numCols windowRows m;
  boxAlongColsFloatC bufferB bufferA numRows numCols windowCols m'.

(** [k] times [f], one after the other. *)
Fixpoint repeat_opt {S : Type} (k : nat) (f : S -> option S) (s : S) : option S :=
  match k with
  | O => Some s
  | Datatypes.S k' => s' ← f s; repeat_opt k' f s'
  end.

(** The image a buffer of rows of [numCols] cells holds: sample [j] of
    row [i]. *)
Definition image (m : machine F) (b numCols : Z) (i j : nat) : F :=
  sample m (b + Z.of_nat i * numCols) 1 j.

(** The values of a pass, by the closed form of [box1DFloatC]: every
    row filtered along its [numCols] samples, every column filtered
    along its [numRows] samples. *)
Definition rows_filtered (w numCols : nat) (img : nat -> nat -> F) (i j : nat) : F :=
  out_value (8 * blocks (numCols - w)) (img i) w numCols j.

Definition cols_filtered (w numRows : nat) (img : nat -> nat -> F) (i j : nat) : F :=
  out_value (8 * blocks (numRows - w)) (fun i' => img i' j) w numRows i.

(** The image after [k] repetitions of "filter the rows, then filter the
    columns of the result". *)
Fixpoint smoothed (k : nat) (wr wc numRows numCols : nat) (img : nat -> nat -> F)
    : nat -> nat -> F :=
  match k with
  | O => img
  | Datatypes.S k' =>
      cols_filtered wc numRows
        (rows_filtered wr numCols (smoothed k' wr wc numRows numCols img))
  end.

(** Counting down from a count of at most [W] is exact. *)
Definition exact_count (W : nat) : Prop :=
  forall k, (k < W)%nat -> f_sub (count (S k)) f_one = count k.

(** Arithmetic without rounding: the laws of a field of characteristic
    zero that the proofs use. *)
Class ExactArith : Prop := {
  ex_add_comm : forall a b, f_add a b = f_add b a;
  ex_add_assoc : forall a b c, f_add a (f_add b c) = f_add (f_add a b) c;
  ex_add_zero_l : forall a, f_add f_zero a = a;
  ex_sub_add : forall a b, f_sub (f_add a b) b = a;
  ex_mul_recip : forall a c, f_mul a (f_div f_one c) = f_div a c;
  ex_div_one : forall a, f_div a f_one = a;
  ex_mul_add : forall a b c, f_mul a (f_add b c) = f_add (f_mul a b) (f_mul a c);
  ex_mul_one_r : forall a, f_mul a f_one = a;
  ex_mul_zero_r : forall a, f_mul a f_zero = f_zero;
  ex_div_mul : forall a c, c <> f_zero -> f_div (f_mul a c) c = a;
  ex_count_nonzero : forall k, count (S k) <> f_zero
}.

End Notions.

Arguments ExactArith F {_}.

(** ** Counted loops *)

Section Loops.
Context {S : Type}.
Implicit Types (body : Z -> S -> option S) (s : S).

(** A loop whose condition fails at entry does not run its body. *)
Lemma for_loop_skip body i bound step s :
  bound <= i -> for_loop i bound step body s = Some (i, s).
Proof.
  intros Hle. unfold for_loop.
  replace (Z.to_nat (bound - i)) with O by lia. reflexivity.
Qed.

(** With a positive step the loop is left because its condition fails,
    never because the fuel is used up. *)
Lemma for_fuel_exit body bound step :
  0 < step ->
  forall fuel i s i' s',
    bound - i <= Z.of_nat fuel ->
    for_fuel fuel i bound step body s = Some (i', s') -> bound <= i'.
Proof.
  intros Hstep. induction fuel as [|fuel IH]; intros i s i' s' Hfuel Hrun.
  - simpl in Hrun. injection Hrun as <- <-. lia.
  - simpl in Hrun. destruct (Z.ltb_spec i bound) as [Hlt|Hge].
    + destruct (body i s) as [s1|] eqn:Hb; [|discriminate].
      simpl in Hrun. apply IH in Hrun; [assumption|lia].
    + injection Hrun as <- <-. assumption.
Qed.

Lemma for_loop_exit body i bound step s i' s' :
  0 < step -> for_loop i bound step body s = Some (i', s') -> bound <= i'.
Proof.
  intros Hstep Hrun. eapply for_fuel_exit; [exact Hstep| |exact Hrun]. lia.
Qed.

(** The rule for two runs in lockstep: [k] iterations, each keeping the
    relation [R] between the two states. *)
Lemma for_fuel_rel body bound step :
  0 < step ->
  forall (k : nat) (R : nat -> S -> S -> Prop) fuel i s1 s2,
    (k <= fuel)%nat ->
    bound <= i + step * Z.of_nat k ->
    (forall j, (j < k)%nat -> i + step * Z.of_nat j < bound) ->
    R O s1 s2 ->
    (forall j t1 t2, (j < k)%nat -> R j t1 t2 ->
       exists t1' t2',
         body (i + step * Z.of_nat j) t1 = Some t1' /\
         body (i + step * Z.of_nat j) t2 = Some t2' /\
         R (Datatypes.S j) t1' t2') ->
    exists s1' s2',
      for_fuel fuel i bound step body s1 = Some (i + step * Z.of_nat k, s1') /\
      for_fuel fuel i bound step body s2 = Some (i + step * Z.of_nat k, s2') /\
      R k s1' s2'.
Proof.
  intros Hstep. induction k as [|k IH]; intros R fuel i s1 s2 Hfuel Hend Hin H0 Hbody.
  - exists s1, s2. replace (i + step * Z.of_nat 0) with i in * by lia.
    destruct fuel as [|fuel]; simpl; [auto|].
    destruct (Z.ltb_spec i bound); [lia|auto].
  - destruct fuel as [|fuel]; [lia|]. simpl.
    pose proof (Hin O ltac:(lia)) as Hlt.
    destruct (Z.ltb_spec i bound) as [_|?]; [|lia].
    destruct (Hbody O s1 s2 ltac:(lia) H0) as (t1 & t2 & Ht1 & Ht2 & H1).
    replace (i + step * Z.of_nat 0) with i in Ht1, Ht2 by lia.
    rewrite Ht1, Ht2. simpl.
    destruct (IH (fun j => R (Datatypes.S j)) fuel (i + step) t1 t2)
      as (s1' & s2' & Hrun1 & Hrun2 & Hk).
    + lia.
    + lia.
    + intros j Hj. specialize (Hin (Datatypes.S j) ltac:(lia)). lia.
    + exact H1.
    + intros j u1 u2 Hj Hrel.
      destruct (Hbody (Datatypes.S j) u1 u2 ltac:(lia) Hrel)
        as (u1' & u2' & Hu1 & Hu2 & H3).
      exists u1', u2'.
      replace (i + step + step * Z.of_nat j)
        with (i + step * Z.of_nat (Datatypes.S j)) by lia.
      auto.
    + exists s1', s2'.
      replace (i + step * Z.of_nat (Datatypes.S k))
        with (i + step + step * Z.of_nat k) by lia.
      auto.
Qed.

(** The invariant rule: [k] iterations, each keeping [Inv]. *)
Lemma for_fuel_inv body bound step :
  0 < step ->
  forall (k : nat) (Inv : nat -> S -> Prop) fuel i s,
    (k <= fuel)%nat ->
    bound <= i + step * Z.of_nat k ->
    (forall j, (j < k)%nat -> i + step * Z.of_nat j < bound) ->
    Inv O s ->
    (forall j s1, (j < k)%nat -> Inv j s1 ->
       exists s2, body (i + step * Z.of_nat j) s1 = Some s2 /\ Inv (Datatypes.S j) s2) ->
    exists s', for_fuel fuel i bound step body s = Some (i + step * Z.of_nat k, s')
               /\ Inv k s'.
Proof.
  intros Hstep k Inv fuel i s Hfuel Hend Hin H0 Hbody.
  destruct (for_fuel_rel body bound step Hstep k
              (fun j t1 t2 => Inv j t1 /\ t2 = t1) fuel i s s)
    as (s1' & s2' & Hrun & _ & Hk & _); auto.
  - intros j t1 t2 Hj (Hinv & ->).
    destruct (Hbody j t1 Hj Hinv) as (t' & Ht' & Hinv'). exists t', t'. auto.
  - eauto.
Qed.

(** [for (i = i0; i < bound; i++)] on two states in lockstep. *)
Lemma for_loop_count_rel (R : nat -> S -> S -> Prop) body i bound s1 s2 :
  R O s1 s2 ->
  (forall j t1 t2, (j < Z.to_nat (bound - i))%nat -> R j t1 t2 ->
     exists t1' t2',
       body (i + Z.of_nat j) t1 = Some t1' /\ body (i + Z.of_nat j) t2 = Some t2' /\
       R (Datatypes.S j) t1' t2') ->
  exists s1' s2',
    for_loop i bound 1 body s1 = Some (Z.max i bound, s1') /\
    for_loop i bound 1 body s2 = Some (Z.max i bound, s2') /\
    R (Z.to_nat (bound - i)) s1' s2'.
Proof.
  intros H0 Hbody. unfold for_loop.
  destruct (for_fuel_rel body bound 1 ltac:(lia) (Z.to_nat (bound - i)) R
              (Z.to_nat (bound - i)) i s1 s2) as (s1' & s2' & Hrun1 & Hrun2 & Hk);
    try lia; try assumption.
  - intros j t1 t2 Hj Hrel.
    destruct (Hbody j t1 t2 Hj Hrel) as (t1' & t2' & Ht1 & Ht2 & H2).
    exists t1', t2'. replace (i + 1 * Z.of_nat j) with (i + Z.of_nat j) by lia. auto.
  - exists s1', s2'.
    replace (Z.max i bound) with (i + 1 * Z.of_nat (Z.to_nat (bound - i))) by lia.
    auto.
Qed.

(** The first iteration of a loop that is entered. *)
Lemma for_loop_first body i bound s :
  i < bound ->
  for_loop i bound 1 body s = (s' ← body i s; for_loop (i + 1) bound 1 body s').
Proof.
  intros Hlt. unfold for_loop.
  replace (Z.to_nat (bound - i)) with (Datatypes.S (Z.to_nat (bound - (i + 1)))) by lia.
  simpl. destruct (Z.ltb_spec i bound); [reflexivity|lia].
Qed.

(** [for (i = i0; i < bound; i++)] runs [bound - i0] times. *)
Lemma for_loop_count (Inv : nat -> S -> Prop) body i bound s :
  Inv O s ->
  (forall j s1, (j < Z.to_nat (bound - i))%nat -> Inv j s1 ->
     exists s2, body (i + Z.of_nat j) s1 = Some s2 /\ Inv (Datatypes.S j) s2) ->
  exists s', for_loop i bound 1 body s = Some (Z.max i bound, s')
             /\ Inv (Z.to_nat (bound - i)) s'.
Proof.
  intros H0 Hbody. unfold for_loop.
  destruct (for_fuel_inv body bound 1 ltac:(lia) (Z.to_nat (bound - i)) Inv
              (Z.to_nat (bound - i)) i s) as (s' & Hrun & Hk);
    try lia; try assumption.
  - intros j s1 Hj Hinv. destruct (Hbody j s1 Hj Hinv) as (s2 & Hs2 & H2).
    exists s2. split; [|exact H2]. rewrite <- Hs2. f_equal. lia.
  - exists s'. split; [|exact Hk]. rewrite Hrun. do 2 f_equal. lia.
Qed.

(** [for (i = 0; i < r - 8; i += 8)] runs [blocks r] times. *)
Lemma for_loop_blocks (Inv : nat -> S -> Prop) body (r : nat) s :
  Inv O s ->
  (forall j s1, (j < blocks r)%nat -> Inv j s1 ->
     exists s2, body (8 * Z.of_nat j) s1 = Some s2 /\ Inv (Datatypes.S j) s2) ->
  exists s', for_loop 0 (Z.of_nat r - 8) 8 body s = Some (8 * Z.of_nat (blocks r), s')
             /\ Inv (blocks r) s'.
Proof.
  intros H0 Hbody. unfold for_loop.
  assert (Hb : (8 * blocks r <= r - 1)%nat /\ (r - 1 < 8 * blocks r + 8)%nat).
  { unfold blocks. pose proof (Nat.div_mod_eq (r - 1) 8) as E.
    pose proof (Nat.mod_upper_bound (r - 1) 8 ltac:(lia)). lia. }
  destruct (for_fuel_inv body (Z.of_nat r - 8) 8 ltac:(lia) (blocks r) Inv
              (Z.to_nat (Z.of_nat r - 8 - 0)) 0 s) as (s' & Hrun & Hk);
    try lia; try assumption.
  exists s'. split; [exact Hrun|exact Hk].
Qed.

End Loops.

(** ** The output addresses *)

Lemma out_addrs_S (q s : Z) t :
  out_addrs q s (S t) = out_addrs q s t ++ [q + Z.of_nat t * s].
Proof. unfold out_addrs. rewrite seq_S, fmap_app. reflexivity. Qed.

Lemma elem_of_out_addrs (q s : Z) adr t :
  adr ∈ out_addrs q s t <-> exists i, (i < t)%nat /\ adr = q + Z.of_nat i * s.
Proof.
  unfold out_addrs. rewrite list_elem_of_fmap. split.
  - intros (i & -> & Hi). apply elem_of_seq in Hi. exists i. split; [lia|reflexivity].
  - intros (i & Hi & ->). exists i. split; [reflexivity|]. apply elem_of_seq. lia.
Qed.

(** ** One run of [box1DFloatC] *)

Section Run.
Context {F : Type} `{FloatArith F}.
Variables (kb : nat) (m0 : machine F) (p q s : Z) (W N : nat).
Hypothesis window_range : (W <= N)%nat.
Hypothesis alloc_in :
  forall k, (k < N)%nat -> is_Some (heap m0 !! (p + Z.of_nat k * s)).
Hypothesis alloc_out :
  forall k, (k < N)%nat -> is_Some (heap m0 !! (q + Z.of_nat k * s)).

Local Abbreviation x := (sample m0 p s).
Local Abbreviation a := (half_window W).
Local Abbreviation minv := (mach_inv kb m0 p q s W N).
Local Abbreviation finv := (frame_inv kb m0 p q s W N).
Local Abbreviation sep := (separate p q s N).
Local Abbreviation outv := (out_value kb x W N).

Lemma half_bounds : (a <= W - 1)%nat /\ (2 * a <= W)%nat /\ (W <= 2 * a + 1)%nat.
Proof.
  unfold half_window.
  pose proof (Nat.div_mod_eq W 2). pose proof (Nat.mod_upper_bound W 2 ltac:(lia)). lia.
Qed.

Lemma half_quot : (Z.of_nat W + 2) ÷ 2 = Z.of_nat a + 1.
Proof.
  rewrite Z.quot_div_nonneg by lia.
  replace (Z.of_nat W + 2) with (Z.of_nat W + 1 * 2) by lia.
  rewrite Z.div_add by lia. unfold half_window. rewrite Nat2Z.inj_div. reflexivity.
Qed.

Lemma sample_lookup k : (k < N)%nat -> heap m0 !! (p + Z.of_nat k * s) = Some (x k).
Proof.
  intros Hk. unfold sample. destruct (alloc_in k Hk) as [y ->]. reflexivity.
Qed.

Lemma minv_start : minv O [] m0.
Proof.
  repeat split.
  - unfold out_addrs. simpl. rewrite app_nil_r. reflexivity.
  - rewrite app_nil_r. reflexivity.
Qed.

Lemma load_at t dl m adr k :
  minv t dl m -> (t <= N)%nat -> (k < N)%nat -> adr = p + Z.of_nat k * s ->
  exists y, load adr m = Some y /\ (sep -> y = x k).
Proof.
  intros (_ & _ & Hdom & Hframe & _) Ht Hk ->. unfold load.
  assert (Hs : is_Some (heap m !! (p + Z.of_nat k * s))).
  { apply elem_of_dom. rewrite Hdom. apply elem_of_dom. apply alloc_in, Hk. }
  destruct Hs as [y Hy]. exists y. split; [exact Hy|].
  intros Hsep. rewrite Hframe in Hy.
  - rewrite sample_lookup in Hy by exact Hk. congruence.
  - rewrite elem_of_out_addrs. intros (i & Hi & E). eapply Hsep; [| |exact E]; lia.
Qed.

Lemma store_at t dl m adr v :
  minv t dl m -> (t < N)%nat -> adr = q + Z.of_nat t * s ->
  (sep -> v = outv t) ->
  exists m', store adr v m = Some m' /\ minv (S t) dl m'.
Proof.
  intros (Hwr & Hdiv & Hdom & Hframe & Hval) Ht -> Hv. unfold store.
  assert (Hs : is_Some (heap m !! (q + Z.of_nat t * s))).
  { apply elem_of_dom. rewrite Hdom. apply elem_of_dom. apply alloc_out, Ht. }
  destruct Hs as [y Hy]. rewrite Hy. eexists. split; [reflexivity|].
  repeat split; simpl.
  - rewrite Hwr, out_addrs_S, app_assoc. reflexivity.
  - exact Hdiv.
  - rewrite dom_insert_lookup_L by eauto. exact Hdom.
  - intros adr Hadr. rewrite out_addrs_S in Hadr.
    apply not_elem_of_app in Hadr as [Hadr Hne].
    rewrite list_elem_of_singleton in Hne.
    rewrite lookup_insert_ne by congruence. apply Hframe, Hadr.
  - intros Hsep. rewrite (Hv Hsep), (Hval Hsep). reflexivity.
Qed.

Lemma divide_at t dl m y d :
  minv t dl m -> minv t (dl ++ [d]) (snd (divide y d m)).
Proof.
  intros (Hwr & Hdiv & Hdom & Hframe & Hval). repeat split; simpl; try assumption.
  rewrite Hdiv, app_assoc. reflexivity.
Qed.

(** Which branch of [out_value] an output position takes. *)
Lemma outv_grow i :
  (i < W - a)%nat -> outv i = f_div (prefix_sum x (S (a + i))) (count (S (a + i))).
Proof.
  intros Hi. unfold out_value.
  destruct (Nat.ltb_spec i (W - a)); [reflexivity|lia].
Qed.

Lemma outv_block k :
  (k < kb)%nat -> (k < N - W)%nat ->
  outv (W - a + k) = f_mul (slide_sum x W (S k)) (f_div f_one (count W)).
Proof.
  intros Hk Hk'. pose proof half_bounds. unfold out_value.
  destruct (Nat.ltb_spec (W - a + k) (W - a)); [lia|].
  destruct (Nat.ltb_spec (W - a + k) (N - a)); [|lia].
  replace (W - a + k - (W - a))%nat with k by lia.
  destruct (Nat.ltb_spec k kb); [reflexivity|lia].
Qed.

Lemma outv_single k :
  (kb <= k)%nat -> (k < N - W)%nat ->
  outv (W - a + k) = f_div (slide_sum x W (S k)) (count W).
Proof.
  intros Hk Hk'. pose proof half_bounds. unfold out_value.
  destruct (Nat.ltb_spec (W - a + k) (W - a)); [lia|].
  destruct (Nat.ltb_spec (W - a + k) (N - a)); [|lia].
  replace (W - a + k - (W - a))%nat with k by lia.
  destruct (Nat.ltb_spec k kb); [lia|reflexivity].
Qed.

Lemma outv_shrink j :
  (j < a)%nat ->
  outv (N - a + j) = f_div (shrink_sum x W N (S j)) (shrink_count W (S j)).
Proof.
  intros Hj. pose proof half_bounds. unfold out_value.
  destruct (Nat.ltb_spec (N - a + j) (W - a)); [lia|].
  destruct (Nat.ltb_spec (N - a + j) (N - a)); [lia|].
  replace (N - a + j - (N - a))%nat with j by lia. reflexivity.
Qed.

Lemma blocks_bound : (8 * blocks (N - W) <= N - W)%nat.
Proof.
  unfold blocks. pose proof (Nat.div_mod_eq (N - W - 1) 8). lia.
Qed.

Lemma blocks_room b : (b < blocks (N - W))%nat -> (8 * b + 8 < N - W)%nat.
Proof.
  unfold blocks. pose proof (Nat.div_mod_eq (N - W - 1) 8).
  destruct (N - W)%nat as [|r] eqn:E; simpl in *; lia.
Qed.

(** *** The steps of the four phases *)

Ltac open_frame st :=
  let m := fresh "m" in
  intros (? & ? & ? & ? & Hm & Hsum);
  destruct st as [m ? ? ? ? ?];
  cbn [mach li ri oi sum currentWindowSize] in *; subst.

Ltac load_step Hm k :=
  lazymatch goal with
  | |- ex (fun _ => (load ?adr ?m ≫= _) = _ /\ _) =>
      let y := fresh "y" in
      let Hy := fresh "Hy" in
      let Hv := fresh "Hv" in
      destruct (load_at _ _ m adr k Hm) as (y & Hy & Hv);
      [ lia | lia | lia | rewrite Hy; cbn [mbind option_bind] ]
  end.

Lemma phase1_step i j st :
  (j < a)%nat ->
  finv O 0 (Z.of_nat j * s) (prefix_sum x j) (count j) [] st ->
  exists st', phase1_body p s i st = Some st' /\
    finv O 0 (Z.of_nat (S j) * s) (prefix_sum x (S j)) (count (S j)) [] st'.
Proof.
  intros Hj. pose proof half_bounds. open_frame st. unfold phase1_body. cbn [mach li ri oi sum currentWindowSize].
  load_step Hm j. eexists. split; [reflexivity|].
  repeat split; cbn [mach li ri oi sum currentWindowSize]; try lia; try apply Hm.
  intros Hsep. rewrite Hsum, Hv by assumption. reflexivity.
Qed.

Ltac store_step Hm Hm' tac :=
  lazymatch goal with
  | |- ex (fun _ => (store ?adr ?v ?m ≫= _) = _ /\ _) =>
      let m' := fresh "m" in
      let Hs := fresh "Hs" in
      destruct (store_at _ _ m adr v Hm) as (m' & Hs & Hm');
      [ lia | lia | tac | rewrite Hs; cbn [mbind option_bind] ]
  end.

Ltac divide_step Hm Hm' :=
  lazymatch goal with
  | |- context [divide ?y ?d ?m] =>
      pose proof (divide_at _ _ m y d Hm) as Hm'; unfold divide in *;
      cbn [snd] in Hm'; cbn beta iota
  end.

Lemma phase2_step i j st :
  (j < W - a)%nat ->
  finv j 0 (Z.of_nat (a + j) * s) (prefix_sum x (a + j)) (count (a + j))
       ((fun i => count (S (a + i))) <$> seq 0 j) st ->
  exists st', phase2_body p q s i st = Some st' /\
    finv (S j) 0 (Z.of_nat (a + S j) * s) (prefix_sum x (a + S j)) (count (a + S j))
         ((fun i => count (S (a + i))) <$> seq 0 (S j)) st'.
Proof.
  intros Hj. pose proof half_bounds. open_frame st. unfold phase2_body. cbn [mach li ri oi sum currentWindowSize].
  load_step Hm (a + j)%nat. divide_step Hm Hd.
  store_step Hd Hm' ltac:(intros Hsep; rewrite outv_grow, Hsum, Hv by assumption;
                          reflexivity).
  eexists. split; [reflexivity|]. rewrite Nat.add_succ_r.
  repeat split; cbn [mach li ri oi sum currentWindowSize]; try lia; try apply Hm'.
  - rewrite seq_S, fmap_app. apply Hm'.
  - intros Hsep. rewrite Hsum, Hv by assumption. reflexivity.
Qed.

Lemma phase3_single_step i k dl st :
  (k < N - W)%nat -> (kb <= k)%nat ->
  finv (W - a + k) (Z.of_nat k * s) (Z.of_nat (W + k) * s) (slide_sum x W k) (count W)
       dl st ->
  exists st', phase3_single p q s i st = Some st' /\
    finv (W - a + S k) (Z.of_nat (S k) * s) (Z.of_nat (W + S k) * s)
         (slide_sum x W (S k)) (count W) (dl ++ [count W]) st'.
Proof.
  intros Hk Hb. pose proof half_bounds. open_frame st. unfold phase3_single. cbn [mach li ri oi sum currentWindowSize].
  load_step Hm (W + k)%nat. load_step Hm k. divide_step Hm Hd.
  store_step Hd Hm' ltac:(intros Hsep; rewrite outv_single, Hsum, Hv, Hv0 by assumption;
                          reflexivity).
  eexists. split; [reflexivity|]. rewrite Nat.add_succ_r.
  repeat split; cbn [mach li ri oi sum currentWindowSize]; try lia; try apply Hm'.
  intros Hsep. rewrite Hsum, Hv, Hv0 by assumption. reflexivity.
Qed.

Lemma phase4_step i j dl st :
  (j < a)%nat ->
  finv (N - a + j) (Z.of_nat (N - W + j) * s) (Z.of_nat N * s)
       (shrink_sum x W N j) (shrink_count W j)
       (dl ++ ((fun i => shrink_count W (S i)) <$> seq 0 j)) st ->
  exists st', phase4_body p q s i st = Some st' /\
    finv (N - a + S j) (Z.of_nat (N - W + S j) * s) (Z.of_nat N * s)
         (shrink_sum x W N (S j)) (shrink_count W (S j))
         (dl ++ ((fun i => shrink_count W (S i)) <$> seq 0 (S j))) st'.
Proof.
  intros Hj. pose proof half_bounds. open_frame st. unfold phase4_body.
  cbn [mach li ri oi sum currentWindowSize].
  load_step Hm (N - W + j)%nat. divide_step Hm Hd.
  store_step Hd Hm' ltac:(intros Hsep; rewrite outv_shrink, Hsum, Hv by assumption;
                          reflexivity).
  eexists. split; [reflexivity|]. rewrite !Nat.add_succ_r.
  repeat split; cbn [mach li ri oi sum currentWindowSize]; try lia; try apply Hm'.
  - destruct Hm' as (_ & Hdl & _).
    rewrite Hdl, seq_S, fmap_app, <- !app_assoc. reflexivity.
  - intros Hsep. rewrite Hsum, Hv by assumption. reflexivity.
Qed.

Ltac block_store Hm Hm' Hval Hvals j :=
  store_step Hm Hm' ltac:(apply (Hval j); [lia | lia |]; intros Hsep;
    destruct (Hvals Hsep) as (-> & -> & -> & -> & -> & -> & -> & -> & -> &
                              -> & -> & -> & -> & -> & -> & -> & ->);
    reflexivity).

Lemma phase3_block_step i k dl st :
  (k + 8 < N - W)%nat -> (k + 8 <= kb)%nat ->
  finv (W - a + k) (Z.of_nat k * s) (Z.of_nat (W + k) * s) (slide_sum x W k) (count W)
       dl st ->
  exists st', phase3_block p q s (f_div f_one (count W)) i st = Some st' /\
    finv (W - a + (8 + k)) (Z.of_nat (8 + k) * s) (Z.of_nat (W + (8 + k)) * s)
         (slide_sum x W (8 + k)) (count W) dl st'.
Proof.
  intros Hk Hb. pose proof half_bounds. open_frame st. unfold phase3_block.
  cbn [mach li ri oi sum currentWindowSize].
  load_step Hm (W + (0 + k))%nat. load_step Hm (0 + k)%nat.
  load_step Hm (W + (1 + k))%nat. load_step Hm (1 + k)%nat.
  load_step Hm (W + (2 + k))%nat. load_step Hm (2 + k)%nat.
  load_step Hm (W + (3 + k))%nat. load_step Hm (3 + k)%nat.
  load_step Hm (W + (4 + k))%nat. load_step Hm (4 + k)%nat.
  load_step Hm (W + (5 + k))%nat. load_step Hm (5 + k)%nat.
  load_step Hm (W + (6 + k))%nat. load_step Hm (6 + k)%nat.
  load_step Hm (W + (7 + k))%nat. load_step Hm (7 + k)%nat.
  assert (Hvals : sep ->
    y = x (W + (0 + k))%nat /\ y0 = x (0 + k)%nat /\
    y1 = x (W + (1 + k))%nat /\ y2 = x (1 + k)%nat /\
    y3 = x (W + (2 + k))%nat /\ y4 = x (2 + k)%nat /\
    y5 = x (W + (3 + k))%nat /\ y6 = x (3 + k)%nat /\
    y7 = x (W + (4 + k))%nat /\ y8 = x (4 + k)%nat /\
    y9 = x (W + (5 + k))%nat /\ y10 = x (5 + k)%nat /\
    y11 = x (W + (6 + k))%nat /\ y12 = x (6 + k)%nat /\
    y13 = x (W + (7 + k))%nat /\ y14 = x (7 + k)%nat /\
    sum0 = slide_sum x W k) by auto 20.
  clear Hv Hv0 Hv1 Hv2 Hv3 Hv4 Hv5 Hv6 Hv7 Hv8 Hv9 Hv10 Hv11 Hv12 Hv13 Hv14 Hsum.
  assert (Hval : forall j t v, t = (W - a + (j + k))%nat -> (j < 8)%nat ->
            (sep -> v = f_mul (slide_sum x W (S (j + k))) (f_div f_one (count W))) ->
            sep -> v = outv t).
  { intros j t v -> Hj Hv Hsep. rewrite outv_block by lia. auto. }
  block_store Hm Hm1 Hval Hvals 0%nat. block_store Hm1 Hm2 Hval Hvals 1%nat.
  block_store Hm2 Hm3 Hval Hvals 2%nat. block_store Hm3 Hm4 Hval Hvals 3%nat.
  block_store Hm4 Hm5 Hval Hvals 4%nat. block_store Hm5 Hm6 Hval Hvals 5%nat.
  block_store Hm6 Hm7 Hval Hvals 6%nat. block_store Hm7 Hm8 Hval Hvals 7%nat.
  eexists. split; [reflexivity|].
  replace (W - a + (8 + k))%nat with (8 + (W - a + k))%nat by lia.
  repeat split; cbn [mach li ri oi sum currentWindowSize]; try lia; try apply Hm8.
  intros Hsep.
  destruct (Hvals Hsep) as (-> & -> & -> & -> & -> & -> & -> & -> & -> &
                            -> & -> & -> & -> & -> & -> & -> & ->).
  reflexivity.
Qed.


(** *** The four phases and the whole run *)

Lemma phase1_run :
  exists i st,
    for_loop 0 (Z.of_nat a) 1 (phase1_body p s) (Frame m0 0 0 0 f_zero f_zero)
      = Some (i, st) /\
    finv O 0 (Z.of_nat a * s) (prefix_sum x a) (count a) [] st.
Proof.
  destruct (for_loop_count
              (fun j => finv O 0 (Z.of_nat j * s) (prefix_sum x j) (count j) [])
              (phase1_body p s) 0 (Z.of_nat a) (Frame m0 0 0 0 f_zero f_zero))
    as (st & Hrun & Hinv).
  - repeat split; cbn [mach li ri oi sum currentWindowSize]; try lia.
    all: apply minv_start.
  - intros j st Hj Hinv. apply phase1_step; [lia|exact Hinv].
  - rewrite Z.sub_0_r, Nat2Z.id in Hinv. eauto.
Qed.

Lemma phase2_run st :
  finv O 0 (Z.of_nat a * s) (prefix_sum x a) (count a) [] st ->
  exists i st',
    for_loop 0 (Z.of_nat (W - a)) 1 (phase2_body p q s) st = Some (i, st') /\
    finv (W - a) 0 (Z.of_nat W * s) (prefix_sum x W) (count W)
         ((fun i => count (S (a + i))) <$> seq 0 (W - a)) st'.
Proof.
  intros Hst. pose proof half_bounds.
  destruct (for_loop_count
              (fun j => finv j 0 (Z.of_nat (a + j) * s) (prefix_sum x (a + j))
                          (count (a + j)) ((fun i => count (S (a + i))) <$> seq 0 j))
              (phase2_body p q s) 0 (Z.of_nat (W - a)) st)
    as (st' & Hrun & Hinv).
  - rewrite Nat.add_0_r. exact Hst.
  - intros j st1 Hj Hinv. apply phase2_step; [lia|exact Hinv].
  - rewrite Z.sub_0_r, Nat2Z.id in Hinv.
    replace (a + (W - a))%nat with W in Hinv by lia. eauto.
Qed.

Lemma phase3_run dl st :
  kb = (8 * blocks (N - W))%nat ->
  finv (W - a) 0 (Z.of_nat W * s) (prefix_sum x W) (count W) dl st ->
  exists st',
    phase3 p q s (Z.of_nat (N - W)) st = Some st' /\
    finv (N - a) (Z.of_nat (N - W) * s) (Z.of_nat N * s)
         (slide_sum x W (N - W)) (count W)
         (dl ++ [count W] ++ replicate (N - W - kb) (count W)) st'.
Proof.
  intros Hkb Hst. pose proof half_bounds. pose proof blocks_bound.
  assert (Hkb' : (kb <= 8 * blocks (N - W) <= kb)%nat) by lia. clear Hkb.
  unfold phase3. revert Hst. open_frame st.
  assert (Hkb : kb = (8 * blocks (N - W))%nat) by lia.
  divide_step Hm Hd.
  (* the block loop *)
  destruct (for_loop_blocks
              (fun b => finv (W - a + 8 * b) (Z.of_nat (8 * b) * s)
                          (Z.of_nat (W + 8 * b) * s) (slide_sum x W (8 * b)) (count W)
                          (dl ++ [count W]))
              (phase3_block p q s (f_div f_one (count W))) (N - W)
              (Frame (Machine (heap m) (writes m) (divisors m ++ [count W]))
                     0 (Z.of_nat W * s) (Z.of_nat (W - a) * s) sum0 (count W)))
    as (st1 & Hrun1 & Hinv1).
  - rewrite Nat.mul_0_r, !Nat.add_0_r.
    repeat split; cbn [mach li ri oi sum currentWindowSize]; try lia; try apply Hd.
    exact Hsum.
  - intros b st1 Hb Hinv. pose proof (blocks_room b Hb).
    replace (8 * S b)%nat with (8 + 8 * b)%nat by lia.
    apply phase3_block_step; [lia|lia|exact Hinv].
  - rewrite Hrun1. cbn [mbind option_bind].
    (* the remainder loop *)
    rewrite <- Hkb in Hinv1.
    destruct (for_loop_count
                (fun j => finv (W - a + (kb + j)) (Z.of_nat (kb + j) * s)
                            (Z.of_nat (W + (kb + j)) * s) (slide_sum x W (kb + j))
                            (count W) ((dl ++ [count W]) ++ replicate j (count W)))
                (phase3_single p q s) (8 * Z.of_nat (blocks (N - W)))
                (Z.of_nat (N - W)) st1)
      as (st2 & Hrun2 & Hinv2).
    + rewrite Nat.add_0_r, app_nil_r. exact Hinv1.
    + intros j st Hj Hinv. rewrite Nat.add_succ_r, replicate_S_end, app_assoc.
      apply phase3_single_step; [lia|lia|exact Hinv].
    + rewrite Hrun2. cbn [mbind option_bind]. eexists. split; [reflexivity|].
      replace (Z.to_nat (Z.of_nat (N - W) - 8 * Z.of_nat (blocks (N - W))))
        with (N - W - kb)%nat in Hinv2 by lia.
      replace (kb + (N - W - kb))%nat with (N - W)%nat in Hinv2 by lia.
      replace (W - a + (N - W))%nat with (N - a)%nat in Hinv2 by lia.
      replace (W + (N - W))%nat with N in Hinv2 by lia.
      rewrite <- app_assoc in Hinv2. exact Hinv2.
Qed.

Lemma phase4_run dl st :
  finv (N - a) (Z.of_nat (N - W) * s) (Z.of_nat N * s)
       (slide_sum x W (N - W)) (count W) dl st ->
  exists i st',
    for_loop 0 (Z.of_nat a) 1 (phase4_body p q s) st = Some (i, st') /\
    finv N (Z.of_nat (N - W + a) * s) (Z.of_nat N * s)
         (shrink_sum x W N a) (shrink_count W a)
         (dl ++ ((fun j => shrink_count W (S j)) <$> seq 0 a)) st'.
Proof.
  intros Hst. pose proof half_bounds.
  destruct (for_loop_count
              (fun j => finv (N - a + j) (Z.of_nat (N - W + j) * s) (Z.of_nat N * s)
                          (shrink_sum x W N j) (shrink_count W j)
                          (dl ++ ((fun i => shrink_count W (S i)) <$> seq 0 j)))
              (phase4_body p q s) 0 (Z.of_nat a) st)
    as (st' & Hrun & Hinv).
  - rewrite !Nat.add_0_r, app_nil_r. exact Hst.
  - intros j st1 Hj Hinv. apply phase4_step; [lia|exact Hinv].
  - rewrite Z.sub_0_r, Nat2Z.id in Hinv.
    replace (N - a + a)%nat with N in Hinv by lia. eauto.
Qed.

Lemma phase3_fallback_run dl st :
  kb = O ->
  finv (W - a) 0 (Z.of_nat W * s) (prefix_sum x W) (count W) dl st ->
  exists st',
    phase3_fallback p q s (Z.of_nat (N - W)) st = Some st' /\
    finv (N - a) (Z.of_nat (N - W) * s) (Z.of_nat N * s)
         (slide_sum x W (N - W)) (count W)
         (dl ++ replicate (N - W) (count W)) st'.
Proof.
  intros Hkb Hst. pose proof half_bounds. unfold phase3_fallback.
  destruct (for_loop_count
              (fun j => finv (W - a + j) (Z.of_nat j * s) (Z.of_nat (W + j) * s)
                          (slide_sum x W j) (count W) (dl ++ replicate j (count W)))
              (phase3_single p q s) 0 (Z.of_nat (N - W)) st)
    as (st' & Hrun & Hinv).
  - rewrite !Nat.add_0_r, app_nil_r. exact Hst.
  - intros j st1 Hj Hinv. rewrite replicate_S_end, app_assoc.
    apply phase3_single_step; [lia|lia|exact Hinv].
  - rewrite Hrun. cbn [mbind option_bind]. eexists. split; [reflexivity|].
    rewrite Z.sub_0_r, Nat2Z.id in Hinv.
    replace (W - a + (N - W))%nat with (N - a)%nat in Hinv by lia.
    replace (W + (N - W))%nat with N in Hinv by lia. exact Hinv.
Qed.

(** A run on allocated sequences with [1 <= W <= N] succeeds. *)
Lemma box1D_run :
  kb = (8 * blocks (N - W))%nat ->
  exists m', box1DFloatC p q (Z.of_nat N) s (Z.of_nat W) m0 = Some m' /\
             minv N (div_log kb W N) m'.
Proof.
  intros Hkb. pose proof half_bounds. unfold box1DFloatC. cbn zeta. rewrite half_quot.
  replace (Z.of_nat a + 1 - 1) with (Z.of_nat a) by lia.
  replace (Z.of_nat W - (Z.of_nat a + 1) + 1) with (Z.of_nat (W - a)) by lia.
  replace (Z.of_nat N - Z.of_nat W) with (Z.of_nat (N - W)) by lia.
  destruct phase1_run as (i1 & st1 & -> & H1). cbn [mbind option_bind].
  destruct (phase2_run st1 H1) as (i2 & st2 & -> & H2). cbn [mbind option_bind].
  destruct (phase3_run _ st2 Hkb H2) as (st3 & -> & H3). cbn [mbind option_bind].
  destruct (phase4_run _ st3 H3) as (i4 & st4 & -> & H4). cbn [mbind option_bind].
  eexists. split; [reflexivity|].
  destruct H4 as (_ & _ & _ & _ & Hm & _). unfold div_log. cbn zeta.
  rewrite <- !app_assoc in Hm. exact Hm.
Qed.

Lemma box1D_fallback_run :
  kb = O ->
  exists m' dl, box1D_fallback p q (Z.of_nat N) s (Z.of_nat W) m0 = Some m' /\
                minv N dl m'.
Proof.
  intros Hkb. pose proof half_bounds. unfold box1D_fallback. cbn zeta.
  rewrite half_quot.
  replace (Z.of_nat a + 1 - 1) with (Z.of_nat a) by lia.
  replace (Z.of_nat W - (Z.of_nat a + 1) + 1) with (Z.of_nat (W - a)) by lia.
  replace (Z.of_nat N - Z.of_nat W) with (Z.of_nat (N - W)) by lia.
  destruct phase1_run as (i1 & st1 & -> & H1). cbn [mbind option_bind].
  destruct (phase2_run st1 H1) as (i2 & st2 & -> & H2). cbn [mbind option_bind].
  destruct (phase3_fallback_run _ st2 Hkb H2) as (st3 & -> & H3).
  cbn [mbind option_bind].
  destruct (phase4_run _ st3 H3) as (i4 & st4 & -> & H4). cbn [mbind option_bind].
  eexists. eexists. split; [reflexivity|]. apply H4.
Qed.

End Run.

(** ** The heap a run leaves *)

Section Written.
Context {F : Type}.
Implicit Types (h : gmap Z F) (v : nat -> F).

Lemma written_lookup_other h q s v t adr :
  (forall j, (j < t)%nat -> adr <> q + Z.of_nat j * s) ->
  written h q s v t !! adr = h !! adr.
Proof.
  induction t as [|t IH]; intros Hne; [reflexivity|]. simpl.
  rewrite lookup_insert_ne by (intros E; apply (Hne t); [lia|congruence]).
  apply IH. intros j Hj. apply Hne. lia.
Qed.

(** The last store to a cell is the one that stays. *)
Lemma written_lookup_val h q s v t i c :
  (i < t)%nat ->
  (forall j, (j < t)%nat -> q + Z.of_nat j * s = q + Z.of_nat i * s -> v j = c) ->
  written h q s v t !! (q + Z.of_nat i * s) = Some c.
Proof.
  induction t as [|t IH]; intros Hi Hv; [lia|]. simpl.
  destruct (decide (q + Z.of_nat t * s = q + Z.of_nat i * s)) as [E|E].
  - rewrite E, lookup_insert_eq. f_equal. apply Hv; [lia|exact E].
  - rewrite lookup_insert_ne by exact E.
    assert (i <> t) by (intros ->; apply E; reflexivity).
    apply IH; [lia|]. intros j Hj. apply Hv. lia.
Qed.

Lemma written_lookup h q s v t i :
  s <> 0 -> (i < t)%nat -> written h q s v t !! (q + Z.of_nat i * s) = Some (v i).
Proof.
  intros Hs Hi. apply written_lookup_val; [exact Hi|].
  intros j _ E. f_equal. nia.
Qed.

Lemma written_ext h q s v v' t :
  (forall i, (i < t)%nat -> v i = v' i) -> written h q s v t = written h q s v' t.
Proof.
  induction t as [|t IH]; intros Hv; [reflexivity|]. simpl.
  rewrite Hv by lia. rewrite IH; [reflexivity|]. intros i Hi. apply Hv. lia.
Qed.

End Written.

(** ** Runs on integer arguments *)

Section RunZ.
Context {F : Type} `{FloatArith F}.
Variables (m : machine F) (p q s n w : Z).
Hypothesis window_range : 1 <= w <= n.
Hypothesis alloc_in : allocated (heap m) p s n.
Hypothesis alloc_out : allocated (heap m) q s n.

Local Abbreviation W := (Z.to_nat w).
Local Abbreviation N := (Z.to_nat n).

Lemma allocated_nat (a : Z) :
  allocated (heap m) a s n ->
  forall k, (k < N)%nat -> is_Some (heap m !! (a + Z.of_nat k * s)).
Proof. intros Ha k Hk. apply Ha. lia. Qed.

Lemma separate_nat : disjoint_seqs p q s n -> separate p q s N.
Proof. intros Hd j k Hj Hk. apply Hd; lia. Qed.

Lemma box1D_result :
  exists m', box1DFloatC p q n s w m = Some m' /\
    mach_inv (8 * blocks (N - W)) m p q s W N N (div_log (8 * blocks (N - W)) W N) m'.
Proof.
  destruct (box1D_run (8 * blocks (N - W)) m p q s W N) as (m' & Hrun & Hinv);
    try (apply allocated_nat; assumption); try lia.
  rewrite !Z2Nat.id in Hrun by lia. eauto.
Qed.

Lemma box1D_fallback_result :
  exists m' dl, box1D_fallback p q n s w m = Some m' /\
    mach_inv O m p q s W N N dl m'.
Proof.
  destruct (box1D_fallback_run O m p q s W N) as (m' & dl & Hrun & Hinv);
    try (apply allocated_nat; assumption); try lia.
  rewrite !Z2Nat.id in Hrun by lia. eauto.
Qed.

End RunZ.

(** ** Exact arithmetic: the closed forms are window means *)

Section Exact.
Context {F : Type} `{FloatArith F} {EA : ExactArith F}.
Implicit Types (x : nat -> F).

Lemma range_sum_front x lo len :
  range_sum x lo (S len) = f_add (x lo) (range_sum x (S lo) len).
Proof.
  induction len as [|len IH].
  - simpl. rewrite Nat.add_0_r, ex_add_zero_l, ex_add_comm, ex_add_zero_l.
    reflexivity.
  - change (range_sum x lo (S (S len)))
      with (f_add (range_sum x lo (S len)) (x (lo + S len)%nat)).
    rewrite IH, <- ex_add_assoc. simpl. rewrite Nat.add_succ_r. reflexivity.
Qed.

Lemma prefix_sum_range x t : prefix_sum x t = range_sum x 0 t.
Proof. induction t as [|t IH]; simpl; [reflexivity|]. rewrite IH. reflexivity. Qed.

Lemma slide_sum_range x w k : slide_sum x w k = range_sum x k w.
Proof.
  induction k as [|k IH]; simpl; [apply prefix_sum_range|].
  rewrite IH. rewrite (Nat.add_comm w k).
  change (f_add (range_sum x k w) (x (k + w)%nat)) with (range_sum x k (S w)).
  rewrite range_sum_front, ex_add_comm. apply ex_sub_add.
Qed.

Lemma shrink_sum_range x w n j :
  (j <= w)%nat -> shrink_sum x w n j = range_sum x (n - w + j) (w - j).
Proof.
  induction j as [|j IH]; intros Hj; simpl.
  - rewrite Nat.add_0_r, Nat.sub_0_r. apply slide_sum_range.
  - rewrite IH by lia. replace (w - j)%nat with (S (w - S j)) by lia.
    rewrite range_sum_front, ex_add_comm, ex_sub_add, Nat.add_succ_r.
    reflexivity.
Qed.

Lemma shrink_count_count w j : (j <= w)%nat -> shrink_count w j = count (w - j).
Proof.
  induction j as [|j IH]; intros Hj; simpl.
  - rewrite Nat.sub_0_r. reflexivity.
  - rewrite IH by lia. replace (w - j)%nat with (S (w - S j)) by lia.
    simpl. apply ex_sub_add.
Qed.

Lemma half_window_facts w :
  (w / 2 = half_window w /\ (w - 1) / 2 = w - half_window w - 1 /\
   half_window w <= w /\ (1 <= w -> half_window w <= w - 1))%nat.
Proof.
  unfold half_window.
  pose proof (Nat.div_mod_eq w 2). pose proof (Nat.mod_upper_bound w 2 ltac:(lia)).
  pose proof (Nat.div_mod_eq (w - 1) 2).
  pose proof (Nat.mod_upper_bound (w - 1) 2 ltac:(lia)). lia.
Qed.

(** Every stored value is the mean over the window of its position. *)
Lemma out_value_mean kb x w n i :
  (1 <= w <= n)%nat -> (i < n)%nat -> out_value kb x w n i = window_mean x w n i.
Proof.
  intros Hw Hi. unfold out_value, window_mean, mean_of. cbn zeta.
  destruct (half_window_facts w) as (-> & -> & Ha & Ha').
  set (a := half_window w) in *. specialize (Ha' ltac:(lia)).
  destruct (Nat.ltb_spec i (w - a)) as [H1|H1].
  - replace (i - (w - a - 1))%nat with O by lia.
    replace (Nat.min n (S (i + a)) - 0)%nat with (S (a + i)) by lia.
    rewrite prefix_sum_range. reflexivity.
  - destruct (Nat.ltb_spec i (n - a)) as [H2|H2].
    + replace (i - (w - a - 1))%nat with (S (i - (w - a))) by lia.
      replace (Nat.min n (S (i + a)) - S (i - (w - a)))%nat with w by lia.
      rewrite slide_sum_range.
      destruct (i - (w - a) <? kb)%nat; [apply ex_mul_recip|reflexivity].
    + replace (i - (w - a - 1))%nat with (n - w + S (i - (n - a)))%nat by lia.
      replace (Nat.min n (S (i + a)) - (n - w + S (i - (n - a))))%nat
        with (w - S (i - (n - a)))%nat by lia.
      rewrite shrink_sum_range, shrink_count_count by lia. reflexivity.
Qed.

Lemma range_sum_const x c lo len :
  (forall k, (lo <= k < lo + len)%nat -> x k = c) ->
  range_sum x lo len = f_mul c (count len).
Proof.
  induction len as [|len IH]; intros Hc; simpl.
  - symmetry. apply ex_mul_zero_r.
  - rewrite IH by (intros k Hk; apply Hc; lia).
    rewrite (Hc (lo + len)%nat) by lia.
    rewrite ex_mul_add, ex_mul_one_r. reflexivity.
Qed.

Lemma mean_of_const x c lo hi :
  (lo < hi)%nat -> (forall k, (lo <= k < hi)%nat -> x k = c) -> mean_of x lo hi = c.
Proof.
  intros Hlt Hc. unfold mean_of.
  rewrite (range_sum_const x c) by (intros k Hk; apply Hc; lia).
  destruct (hi - lo)%nat as [|len] eqn:E; [lia|].
  apply ex_div_mul, ex_count_nonzero.
Qed.

Lemma mean_of_single x i : mean_of x i (S i) = x i.
Proof.
  unfold mean_of. replace (S i - i)%nat with 1%nat by lia. simpl.
  rewrite Nat.add_0_r, !ex_add_zero_l. apply ex_div_one.
Qed.

End Exact.

(** The rationals are exact. *)
Lemma count_rational_nonneg (k : nat) : (0 <= count (F := Qc) k)%Qc.
Proof.
  induction k as [|k IH]; simpl; [apply Qcle_refl|].
  replace (Q2Qc 0) with (Q2Qc 0 + Q2Qc 0)%Qc by ring.
  apply Qcplus_le_compat; [exact IH|discriminate].
Qed.

Lemma count_rational_pos (k : nat) : (0 < count (F := Qc) (S k))%Qc.
Proof.
  simpl. apply Qclt_le_trans with (Q2Qc 1); [reflexivity|].
  replace (Q2Qc 1) with (Q2Qc 0 + Q2Qc 1)%Qc at 1 by ring.
  apply Qcplus_le_compat; [apply count_rational_nonneg|apply Qcle_refl].
Qed.

#[export] Instance rational_exact : ExactArith Qc.
Proof.
  split; simpl; intros.
  - ring.
  - ring.
  - ring.
  - ring.
  - unfold Qcdiv. ring.
  - field. discriminate.
  - ring.
  - ring.
  - ring.
  - field. assumption.
  - intros E. pose proof (count_rational_pos k) as Hp. simpl in Hp.
    rewrite E in Hp. discriminate Hp.
Qed.

(** ** The claims about one run *)

Section Claims1D.
Context {F : Type} `{FloatArith F}.
Implicit Types (m : machine F).

Lemma box1D_heap m p q n s w :
  1 <= w <= n -> allocated (heap m) p s n -> allocated (heap m) q s n ->
  disjoint_seqs p q s n ->
  exists m', box1DFloatC p q n s w m = Some m' /\
    heap m' = written (heap m) q s
                (out_value (8 * blocks (Z.to_nat n - Z.to_nat w)) (sample m p s)
                   (Z.to_nat w) (Z.to_nat n)) (Z.to_nat n) /\
    writes m' = writes m ++ out_addrs q s (Z.to_nat n) /\
    divisors m' = divisors m
      ++ div_log (8 * blocks (Z.to_nat n - Z.to_nat w)) (Z.to_nat w) (Z.to_nat n) /\
    dom (heap m') = dom (heap m).
Proof.
  intros Hw Hin Hout Hsep.
  destruct (box1D_result m p q s n w Hw Hin Hout) as (m' & Hrun & Hinv).
  destruct Hinv as (Hwr & Hdiv & Hdom & _ & Hval).
  exists m'. repeat split; try assumption.
  apply Hval, separate_nat, Hsep.
Qed.

Lemma sample_lookupZ m p s n k :
  allocated (heap m) p s n -> 0 <= k < n ->
  heap m !! (p + k * s) = Some (sample m p s (Z.to_nat k)).
Proof.
  intros Ha Hk. unfold sample. rewrite Z2Nat.id by lia.
  destruct (Ha k Hk) as [y ->]. reflexivity.
Qed.

Lemma NoDup_out_addrs q s t : s <> 0 -> NoDup (out_addrs q s t).
Proof.
  intros Hs. unfold out_addrs. apply NoDup_fmap_2_strong; [|apply NoDup_seq].
  intros i j _ _ E. nia.
Qed.

Lemma length_out_addrs q s t : length (out_addrs q s t) = t.
Proof. unfold out_addrs. rewrite length_fmap, length_seq. reflexivity. Qed.

(** C9.  On allocated sequences, with [stride >= 1] and
    [1 <= fullWindowSize <= length], the run returns; it stores to the
    output positions [0, stride, ..., (length-1) * stride] in this order,
    each once, [length] stores in all (the three writing phases have
    [length] steps together), and no other cell of the heap changes. *)
Theorem box1D_writes m p q n s w :
  1 <= n -> 1 <= s -> 1 <= w <= n ->
  allocated (heap m) p s n -> allocated (heap m) q s n ->
  exists m', box1DFloatC p q n s w m = Some m' /\
    writes m' = writes m ++ out_addrs q s (Z.to_nat n) /\
    NoDup (out_addrs q s (Z.to_nat n)) /\
    Z.of_nat (length (out_addrs q s (Z.to_nat n))) = n /\
    (forall k, 0 <= k < n -> q + k * s ∈ out_addrs q s (Z.to_nat n)) /\
    (forall adr, adr ∈ out_addrs q s (Z.to_nat n) ->
       exists k, 0 <= k < n /\ adr = q + k * s) /\
    (forall adr, adr ∉ out_addrs q s (Z.to_nat n) -> heap m' !! adr = heap m !! adr) /\
    (let halfWindowSize := (w + 2) ÷ 2 in
     (w - halfWindowSize + 1) + (n - w) + (halfWindowSize - 1) = n).
Proof.
  intros Hn Hs Hw Hin Hout.
  destruct (box1D_result m p q s n w Hw Hin Hout) as (m' & Hrun & Hinv).
  destruct Hinv as (Hwr & _ & _ & Hframe & _).
  exists m'. split; [exact Hrun|]. split; [exact Hwr|].
  split; [apply NoDup_out_addrs; lia|].
  split; [rewrite length_out_addrs; lia|].
  split; [|split; [|split; [exact Hframe|cbn zeta; lia]]].
  - intros k Hk. rewrite elem_of_out_addrs. exists (Z.to_nat k). split; [lia|].
    rewrite Z2Nat.id by lia. reflexivity.
  - intros adr Hadr. rewrite elem_of_out_addrs in Hadr.
    destruct Hadr as (i & Hi & ->).
    exists (Z.of_nat i). split; [lia|reflexivity].
Qed.

Context {EA : ExactArith F}.

Lemma window_mean_one (x : nat -> F) n i : (i < n)%nat -> window_mean x 1 n i = x i.
Proof.
  intros Hi. unfold window_mean.
  change ((1 - 1) / 2)%nat with O. change (1 / 2)%nat with O.
  rewrite Nat.sub_0_r, Nat.add_0_r.
  replace (Nat.min n (S i)) with (S i) by lia. apply mean_of_single.
Qed.

(** C1, amended.  In exact arithmetic, on allocated and separate
    sequences with [stride >= 1] and [1 <= windowSize <= length], every
    output position [k] holds the sum of the input samples of the window
    [k - (windowSize-1)/2, k + windowSize/2] cut to [0, length), divided by
    the number of samples in that window. *)
Theorem box1D_window_mean m p q n s w :
  1 <= s -> 1 <= w <= n ->
  allocated (heap m) p s n -> allocated (heap m) q s n ->
  disjoint_seqs p q s n ->
  exists m', box1DFloatC p q n s w m = Some m' /\
    forall k, 0 <= k < n ->
      heap m' !! (q + k * s)
      = Some (window_mean (sample m p s) (Z.to_nat w) (Z.to_nat n) (Z.to_nat k)).
Proof.
  intros Hs Hw Hin Hout Hsep.
  destruct (box1D_heap m p q n s w Hw Hin Hout Hsep) as (m' & Hrun & Hheap & _).
  exists m'. split; [exact Hrun|]. intros k Hk. rewrite Hheap.
  rewrite <- (Z2Nat.id k) at 1 by lia.
  rewrite written_lookup by lia. f_equal. apply out_value_mean; lia.
Qed.

(** Without rounding the two paths agree to the last digit: in exact
    arithmetic, on allocated and separate sequences with
    [1 <= windowSize <= length], the function with its block-of-8 loop
    and the function whose steady state is run by the single-step loop
    alone both return, and leave the same heap. *)
Lemma box1D_block_fallback_exact m p q n s w :
  1 <= w <= n ->
  allocated (heap m) p s n -> allocated (heap m) q s n ->
  disjoint_seqs p q s n ->
  exists m1 m2,
    box1DFloatC p q n s w m = Some m1 /\
    box1D_fallback p q n s w m = Some m2 /\
    heap m1 = heap m2.
Proof.
  intros Hw Hin Hout Hsep.
  destruct (box1D_heap m p q n s w Hw Hin Hout Hsep) as (m1 & Hrun1 & Hheap1 & _).
  destruct (box1D_fallback_result m p q s n w Hw Hin Hout)
    as (m2 & dl & Hrun2 & Hinv2).
  destruct Hinv2 as (_ & _ & _ & _ & Hheap2).
  specialize (Hheap2 (separate_nat p q s n Hsep)).
  exists m1, m2. repeat split; try assumption.
  rewrite Hheap1, Hheap2. apply written_ext. intros i Hi.
  rewrite !out_value_mean by lia. reflexivity.
Qed.

(** C6, amended.  In exact arithmetic, on allocated and separate
    sequences of length at least 1 and with any stride, a run with
    [windowSize = 1] leaves at every output position the input sample of
    that position. *)
Theorem box1D_window_one_exact m p q n s :
  1 <= n ->
  allocated (heap m) p s n -> allocated (heap m) q s n ->
  disjoint_seqs p q s n ->
  exists m', box1DFloatC p q n s 1 m = Some m' /\
    forall k, 0 <= k < n -> heap m' !! (q + k * s) = heap m !! (p + k * s).
Proof.
  intros Hn Hin Hout Hsep.
  destruct (box1D_heap m p q n s 1 ltac:(lia) Hin Hout Hsep)
    as (m' & Hrun & Hheap & _).
  exists m'. split; [exact Hrun|]. intros k Hk. rewrite Hheap.
  rewrite (sample_lookupZ m p s n k Hin Hk).
  rewrite <- (Z2Nat.id k) at 1 by lia.
  apply written_lookup_val; [lia|]. intros j Hj E.
  rewrite out_value_mean by lia. change (Z.to_nat 1) with 1%nat.
  rewrite window_mean_one by lia.
  unfold sample. do 2 f_equal. lia.
Qed.

(** C7, amended.  In exact arithmetic, on allocated and separate
    sequences with [stride >= 1] and [1 <= windowSize <= length], when
    every input sample is [c], every output position holds [c]. *)
Theorem box1D_constant_exact m p q n s w c :
  1 <= s -> 1 <= w <= n ->
  (forall k, 0 <= k < n -> heap m !! (p + k * s) = Some c) ->
  allocated (heap m) q s n ->
  disjoint_seqs p q s n ->
  exists m', box1DFloatC p q n s w m = Some m' /\
    forall k, 0 <= k < n -> heap m' !! (q + k * s) = Some c.
Proof.
  intros Hs Hw Hc Hout Hsep.
  assert (Hin : allocated (heap m) p s n) by (intros k Hk; rewrite Hc; eauto).
  destruct (box1D_heap m p q n s w Hw Hin Hout Hsep) as (m' & Hrun & Hheap & _).
  exists m'. split; [exact Hrun|]. intros k Hk. rewrite Hheap.
  rewrite <- (Z2Nat.id k) at 1 by lia.
  rewrite written_lookup by lia. f_equal.
  rewrite out_value_mean by lia. unfold window_mean. apply mean_of_const; [lia|].
  intros i Hi. unfold sample. rewrite Hc by lia. reflexivity.
Qed.

End Claims1D.

(** ** Concrete runs *)

Ltac small_range k Hk :=
  let Hc := fresh "Hc" in
  assert (k = 0 \/ k = 1 \/ k = 2 \/ k = 3 \/ k = 4 \/ k = 5 \/ k = 6 \/ k = 7
          \/ k = 8 \/ k = 9 \/ k = 10 \/ k = 11) as Hc by lia;
  repeat (destruct Hc as [Hc|Hc]; [subst k|]); try subst k; try lia.

Ltac small_alloc :=
  let k := fresh "k" in
  let Hk := fresh "Hk" in
  intros k Hk; small_range k Hk; vm_compute; eauto.

Ltac small_disjoint :=
  let j := fresh "j" in
  let k := fresh "k" in
  intros j k ? ?; lia.

Lemma box1D_writes_witness :
  let m := two_arrays 0 (b32_of_Z <$> [1; 2; 3; 4]) 100 (replicate 4 f_zero) in
  exists m', box1DFloatC 0 100 4 1 2 m = Some m' /\
    writes m' = writes m ++ out_addrs 100 1 (Z.to_nat 4) /\
    NoDup (out_addrs 100 1 (Z.to_nat 4)) /\
    Z.of_nat (length (out_addrs 100 1 (Z.to_nat 4))) = 4 /\
    (forall k, 0 <= k < 4 -> 100 + k * 1 ∈ out_addrs 100 1 (Z.to_nat 4)) /\
    (forall adr, adr ∈ out_addrs 100 1 (Z.to_nat 4) ->
       exists k, 0 <= k < 4 /\ adr = 100 + k * 1) /\
    (forall adr, adr ∉ out_addrs 100 1 (Z.to_nat 4) -> heap m' !! adr = heap m !! adr) /\
    (let halfWindowSize := (2 + 2) ÷ 2 in
     (2 - halfWindowSize + 1) + (4 - 2) + (halfWindowSize - 1) = 4).
Proof.
  intros m. apply (box1D_writes m 0 100 4 1 2); [lia | lia | lia | | ]; small_alloc.
Defined.

(** C1 as stated fails.  With the even window 2, output position 1 of
    the input [1, 2, 3, 4] is 2.5, the mean of samples 1 and 2, while the
    mean over [1 - 2/2, 1 + 2/2] is 2.  And in binary32 the running sum
    rounds: with window 1 on [16777216, 1], output position 1 is 0, while
    the mean over [1, 1] is 1. *)
Lemma box1D_symmetric_mean_refuted :
  let m := two_arrays 0 (b32_of_Z <$> [1; 2; 3; 4]) 100 (replicate 4 f_zero) in
  let m1 := two_arrays 0 (b32_of_Z <$> [16777216; 1]) 100 (replicate 2 f_zero) in
  ((m' ← box1DFloatC 0 100 4 1 2 m; Some (heap m' !! (100 + 1 * 1)))
     = Some (Some (S754_finite false 10485760 (-22))) /\
   symmetric_mean (sample m 0 1) 2 4 1 = b32_of_Z 2 /\
   S754_finite false 10485760 (-22) <> b32_of_Z 2) /\
  ((m' ← box1DFloatC 0 100 2 1 1 m1; Some (heap m' !! (100 + 1 * 1)))
     = Some (Some (b32_of_Z 0)) /\
   symmetric_mean (sample m1 0 1) 1 2 1 = b32_of_Z 1 /\
   b32_of_Z 0 <> b32_of_Z 1).
Proof.
  intros m m1. split.
  - split; [vm_compute; reflexivity|]. split; [vm_compute; reflexivity|].
    vm_compute. discriminate.
  - split; [vm_compute; reflexivity|]. split; [vm_compute; reflexivity|].
    vm_compute. discriminate.
Qed.

Lemma box1D_window_mean_witness :
  let m := two_arrays 0 (rat_of_Z <$> [1; 2; 3; 4]) 100 (replicate 4 f_zero) in
  exists m', box1DFloatC 0 100 4 1 2 m = Some m' /\
    forall k, 0 <= k < 4 ->
      heap m' !! (100 + k * 1)
      = Some (window_mean (sample m 0 1) (Z.to_nat 2) (Z.to_nat 4) (Z.to_nat k)).
Proof.
  intros m.
  apply (box1D_window_mean m 0 100 4 1 2); [lia | lia | | | small_disjoint]; small_alloc.
Defined.

(** In binary32 the two paths are not equal bit for bit: the block loop
    stores 10 * (1/3), which is one unit in the last place above 10/3,
    the value the single-step loop stores at the same position. *)
Lemma box1D_block_fallback_differ :
  let m := two_arrays 0 (b32_of_Z <$> [0; 0; 0; 10; 0; 0; 0; 0; 0; 0; 0; 0])
                      100 (replicate 12 f_zero) in
  (m' ← box1DFloatC 0 100 12 1 3 m; Some (heap m' !! (100 + 2 * 1)))
    = Some (Some (S754_finite false 13981014 (-22))) /\
  (m' ← box1D_fallback 0 100 12 1 3 m; Some (heap m' !! (100 + 2 * 1)))
    = Some (Some (S754_finite false 13981013 (-22))) /\
  (heap <$> box1DFloatC 0 100 12 1 3 m) <> (heap <$> box1D_fallback 0 100 12 1 3 m).
Proof.
  intros m. split; [vm_compute; reflexivity|]. split; [vm_compute; reflexivity|].
  intros E.
  assert (E' : (h ← heap <$> box1DFloatC 0 100 12 1 3 m; Some (h !! 102))
               = (h ← heap <$> box1D_fallback 0 100 12 1 3 m; Some (h !! 102)))
    by (rewrite E; reflexivity).
  vm_compute in E'. discriminate E'.
Qed.

Lemma box1D_block_fallback_exact_witness :
  let m := two_arrays 0 (rat_of_Z <$> [0; 0; 0; 10; 0; 0; 0; 0; 0; 0; 0; 0])
                      100 (replicate 12 f_zero) in
  exists m1 m2,
    box1DFloatC 0 100 12 1 3 m = Some m1 /\
    box1D_fallback 0 100 12 1 3 m = Some m2 /\
    heap m1 = heap m2.
Proof.
  intros m.
  apply (box1D_block_fallback_exact m 0 100 12 1 3); [lia | | | small_disjoint];
    small_alloc.
Defined.

(** C6 as stated fails: in binary32, with window 1 on the input
    [16777216, 1], the second output is (16777216 + 1) - 16777216 = 0. *)
Lemma box1D_window_one_rounds :
  let m := two_arrays 0 (b32_of_Z <$> [16777216; 1]) 100 (replicate 2 f_zero) in
  heap m !! (0 + 1 * 1) = Some (b32_of_Z 1) /\
  (m' ← box1DFloatC 0 100 2 1 1 m; Some (heap m' !! (100 + 1 * 1)))
    = Some (Some (b32_of_Z 0)) /\
  b32_of_Z 0 <> b32_of_Z 1.
Proof.
  split; [vm_compute; reflexivity|]. split; [vm_compute; reflexivity|].
  vm_compute. discriminate.
Qed.

Lemma box1D_window_one_exact_witness :
  let m := two_arrays 0 (rat_of_Z <$> [16777216; 1]) 100 (replicate 2 f_zero) in
  exists m', box1DFloatC 0 100 2 1 1 m = Some m' /\
    forall k, 0 <= k < 2 -> heap m' !! (100 + k * 1) = heap m !! (0 + k * 1).
Proof.
  intros m.
  apply (box1D_window_one_exact m 0 100 2 1); [lia | | | small_disjoint]; small_alloc.
Defined.

(** C7 as stated fails: in binary32, with window 3 on the constant input
    [0.1f, 0.1f, 0.1f], the last output is 13421774 * 2^-27, one unit in
    the last place above 0.1f. *)
Lemma box1D_constant_rounds :
  let m := two_arrays 0 (replicate 3 b32_tenth) 100 (replicate 3 f_zero) in
  (forall k, 0 <= k < 3 -> heap m !! (0 + k * 1) = Some b32_tenth) /\
  (m' ← box1DFloatC 0 100 3 1 3 m; Some (heap m' !! (100 + 2 * 1)))
    = Some (Some (S754_finite false 13421774 (-27))) /\
  S754_finite false 13421774 (-27) <> b32_tenth.
Proof.
  intros m. split; [|split; [vm_compute; reflexivity|vm_compute; discriminate]].
  intros k Hk. small_range k Hk; vm_compute; reflexivity.
Qed.

Lemma box1D_constant_exact_witness :
  let m := two_arrays 0 (replicate 3 (rat_of_Z 7)) 100 (replicate 3 f_zero) in
  exists m', box1DFloatC 0 100 3 1 3 m = Some m' /\
    forall k, 0 <= k < 3 -> heap m' !! (100 + k * 1) = Some (rat_of_Z 7).
Proof.
  intros m.
  apply (box1D_constant_exact m 0 100 3 1 3 (rat_of_Z 7));
    [lia | lia | | small_alloc | small_disjoint].
  intros k Hk. small_range k Hk; vm_compute; reflexivity.
Defined.

(** C4.  On the row [0, 0, 0, 10, 0] with stride 1 and window 3 the
    run returns and leaves [0, 0, 10/3, 10/3, 5] in the output, whatever
    the output cells held before: in binary32, where 10/3 is the
    correctly rounded quotient 13981013 * 2^-22, and in exact arithmetic. *)
Theorem box1D_example_row :
  (forall y0 y1 y2 y3 y4 : spec_float,
     (m' ← box1DFloatC 0 100 5 1 3
             (two_arrays 0 (b32_of_Z <$> [0; 0; 0; 10; 0]) 100 [y0; y1; y2; y3; y4]);
      Some (read_cells (heap m') 100 1 5))
     = Some [Some (b32_of_Z 0); Some (b32_of_Z 0);
             Some (b32_div (b32_of_Z 10) (b32_of_Z 3));
             Some (b32_div (b32_of_Z 10) (b32_of_Z 3));
             Some (b32_of_Z 5)]) /\
  b32_div (b32_of_Z 10) (b32_of_Z 3) = S754_finite false 13981013 (-22) /\
  (forall y0 y1 y2 y3 y4 : Qc,
     (m' ← box1DFloatC 0 100 5 1 3
             (two_arrays 0 (rat_of_Z <$> [0; 0; 0; 10; 0]) 100 [y0; y1; y2; y3; y4]);
      Some (read_cells (heap m') 100 1 5))
     = Some [Some (rat_of_Z 0); Some (rat_of_Z 0);
             Some (Qcdiv (rat_of_Z 10) (rat_of_Z 3));
             Some (Qcdiv (rat_of_Z 10) (rat_of_Z 3));
             Some (rat_of_Z 5)]).
Proof.
  split; [|split].
  - intros. vm_compute. reflexivity.
  - vm_compute. reflexivity.
  - intros. vm_compute. f_equal.
    repeat (apply (f_equal2 cons);
            [apply (f_equal Some), Qc_is_canon; reflexivity|]).
    reflexivity.
Qed.

(** ** The stored values depend on the input samples only *)

Section Extensional.
Context {F : Type} `{FloatArith F}.
Implicit Types (x y : nat -> F).

Lemma prefix_sum_ext x y t :
  (forall k, (k < t)%nat -> x k = y k) -> prefix_sum x t = prefix_sum y t.
Proof.
  induction t as [|t IH]; intros E; simpl; [reflexivity|].
  rewrite IH, E by (intros; try apply E; lia). reflexivity.
Qed.

Lemma slide_sum_ext x y w k :
  (forall j, (j < w + k)%nat -> x j = y j) -> slide_sum x w k = slide_sum y w k.
Proof.
  induction k as [|k IH]; intros E; simpl.
  - apply prefix_sum_ext. intros j Hj. apply E. lia.
  - rewrite IH, !E by (intros; try apply E; lia). reflexivity.
Qed.

Lemma shrink_sum_ext x y w n j :
  (w <= n)%nat -> (j <= w)%nat ->
  (forall k, (k < n)%nat -> x k = y k) -> shrink_sum x w n j = shrink_sum y w n j.
Proof.
  intros Hw. induction j as [|j IH]; intros Hj E; simpl.
  - apply slide_sum_ext. intros k Hk. apply E. lia.
  - rewrite IH, E by (try assumption; lia). reflexivity.
Qed.

Lemma out_value_ext kb x y w n i :
  (1 <= w <= n)%nat -> (i < n)%nat ->
  (forall k, (k < n)%nat -> x k = y k) ->
  out_value kb x w n i = out_value kb y w n i.
Proof.
  intros Hw Hi E. unfold out_value. cbn zeta.
  destruct (half_window_facts w) as (_ & _ & Ha & Ha').
  set (a := half_window w) in *. specialize (Ha' ltac:(lia)).
  destruct (Nat.ltb_spec i (w - a)) as [H1|H1].
  - rewrite (prefix_sum_ext x y); [reflexivity|]. intros k Hk. apply E. lia.
  - destruct (Nat.ltb_spec i (n - a)) as [H2|H2].
    + rewrite (slide_sum_ext x y); [reflexivity|]. intros k Hk. apply E. lia.
    + rewrite (shrink_sum_ext x y) by (try assumption; lia). reflexivity.
Qed.

(** Two runs on heaps with the same cells and the same input samples
    store the same values. *)
Lemma box1D_agree (m1 m2 : machine F) p q n s w :
  1 <= w <= n ->
  allocated (heap m1) p s n -> allocated (heap m1) q s n ->
  dom (heap m2) = dom (heap m1) ->
  disjoint_seqs p q s n ->
  (forall k, 0 <= k < n -> heap m1 !! (p + k * s) = heap m2 !! (p + k * s)) ->
  exists (v : nat -> F) wl dl m1' m2',
    box1DFloatC p q n s w m1 = Some m1' /\
    box1DFloatC p q n s w m2 = Some m2' /\
    heap m1' = written (heap m1) q s v (Z.to_nat n) /\
    heap m2' = written (heap m2) q s v (Z.to_nat n) /\
    writes m1' = writes m1 ++ wl /\ writes m2' = writes m2 ++ wl /\
    divisors m1' = divisors m1 ++ dl /\ divisors m2' = divisors m2 ++ dl /\
    dom (heap m1') = dom (heap m1) /\ dom (heap m2') = dom (heap m1).
Proof.
  intros Hw Hin Hout Hdom Hsep Hsame.
  assert (Hal : forall a, allocated (heap m1) a s n -> allocated (heap m2) a s n).
  { intros a Ha k Hk. apply elem_of_dom. rewrite Hdom. apply elem_of_dom, Ha, Hk. }
  destruct (box1D_heap m1 p q n s w Hw Hin Hout Hsep)
    as (m1' & Hrun1 & Hh1 & Hw1 & Hd1 & Hdom1).
  destruct (box1D_heap m2 p q n s w Hw (Hal _ Hin) (Hal _ Hout) Hsep)
    as (m2' & Hrun2 & Hh2 & Hw2 & Hd2 & Hdom2).
  eexists _, _, _, m1', m2'.
  split; [exact Hrun1|]. split; [exact Hrun2|]. split; [exact Hh1|].
  split; [|split; [exact Hw1|split; [exact Hw2|split; [exact Hd1|split;
           [exact Hd2|split; [exact Hdom1|congruence]]]]]].
  rewrite Hh2. apply written_ext. intros i Hi. apply out_value_ext; [lia|lia|].
  intros k Hk. unfold sample. rewrite Hsame by lia. reflexivity.
Qed.

End Extensional.

(** ** The two-dimensional passes and the iterated filter *)

Section Passes.
Context {F : Type} `{FloatArith F}.
Implicit Types (m : machine F).

Lemma allocated_dom (h h' : gmap Z F) a s n :
  dom h' = dom h -> allocated h a s n -> allocated h' a s n.
Proof.
  intros Hdom Ha k Hk. apply elem_of_dom. rewrite Hdom. apply elem_of_dom, Ha, Hk.
Qed.

(** Row [i] of a buffer of [numRows * numCols] cells. *)
Lemma allocated_row (h : gmap Z F) b numRows numCols i :
  allocated h b 1 (numRows * numCols) -> 0 <= i < numRows ->
  allocated h (b + i * numCols) 1 numCols.
Proof.
  intros Ha Hi k Hk.
  replace (b + i * numCols + k * 1) with (b + (i * numCols + k) * 1) by lia.
  apply Ha. nia.
Qed.

(** Column [j] of a buffer of [numRows * numCols] cells. *)
Lemma allocated_col (h : gmap Z F) b numRows numCols j :
  allocated h b 1 (numRows * numCols) -> 0 <= j < numCols ->
  allocated h (b + j) numCols numRows.
Proof.
  intros Ha Hj k Hk.
  replace (b + j + k * numCols) with (b + (j + k * numCols) * 1) by lia.
  apply Ha. nia.
Qed.

Lemma disjoint_row a b numRows numCols i :
  disjoint_seqs a b 1 (numRows * numCols) -> 0 <= i < numRows ->
  disjoint_seqs (a + i * numCols) (b + i * numCols) 1 numCols.
Proof.
  intros Hd Hi j k Hj Hk E.
  apply (Hd (i * numCols + j) (i * numCols + k)); [nia|nia|lia].
Qed.

Lemma disjoint_col a b numRows numCols j :
  disjoint_seqs a b 1 (numRows * numCols) -> 0 <= j < numCols ->
  disjoint_seqs (a + j) (b + j) numCols numRows.
Proof.
  intros Hd Hj i k Hi Hk E.
  apply (Hd (j + i * numCols) (j + k * numCols)); [nia|nia|lia].
Qed.

(** The row pass on two heaps that differ in the output buffer only
    leaves one and the same machine. *)
Lemma rows_agree m1 m2 input output numRows numCols w :
  1 <= w <= numCols ->
  allocated (heap m1) input 1 (numRows * numCols) ->
  allocated (heap m1) output 1 (numRows * numCols) ->
  disjoint_seqs input output 1 (numRows * numCols) ->
  dom (heap m2) = dom (heap m1) ->
  writes m2 = writes m1 -> divisors m2 = divisors m1 ->
  (forall adr, ~ (output <= adr < output + numRows * numCols) ->
     heap m1 !! adr = heap m2 !! adr) ->
  exists m',
    boxAlongRowsFloatC input output numRows numCols w m1 = Some m' /\
    boxAlongRowsFloatC input output numRows numCols w m2 = Some m' /\
    dom (heap m') = dom (heap m1).
Proof.
  intros Hw Hin Hout Hsep Hdom Hwr Hdv Hsame. unfold boxAlongRowsFloatC.
  destruct (for_loop_count_rel
    (fun i t1 t2 =>
       writes t2 = writes t1 /\ divisors t2 = divisors t1 /\
       dom (heap t1) = dom (heap m1) /\ dom (heap t2) = dom (heap m1) /\
       forall adr, ~ (output + Z.of_nat i * numCols <= adr
                      < output + numRows * numCols) ->
         heap t1 !! adr = heap t2 !! adr)
    (fun i m => box1DFloatC (input + i * numCols) (output + i * numCols)
                  numCols 1 w m)
    0 numRows m1 m2) as (m1' & m2' & Hrun1 & Hrun2 & Hrel).
  - repeat split; try assumption. intros adr Hadr. apply Hsame. lia.
  - intros j t1 t2 Hj (Hwr' & Hdv' & Hd1 & Hd2 & Hag). rewrite Z.add_0_l.
    assert (Hjr : 0 <= Z.of_nat j < numRows) by lia.
    destruct (box1D_agree t1 t2 (input + Z.of_nat j * numCols)
                (output + Z.of_nat j * numCols) numCols 1 w Hw)
      as (v & wl & dl & t1' & t2' & Hr1 & Hr2 & Hh1 & Hh2 & Hw1 & Hw2 & Hdl1 & Hdl2
          & Hdom1 & Hdom2).
    + apply allocated_row with numRows; [|exact Hjr].
      apply (allocated_dom (heap m1)); assumption.
    + apply allocated_row with numRows; [|exact Hjr].
      apply (allocated_dom (heap m1)); assumption.
    + congruence.
    + apply disjoint_row with numRows; assumption.
    + intros k Hk. apply Hag. intros Hin'.
      apply (Hsep (Z.of_nat j * numCols + k)
                  (input + Z.of_nat j * numCols + k * 1 - output)); nia.
    + exists t1', t2'. split; [exact Hr1|]. split; [exact Hr2|].
      split; [congruence|]. split; [congruence|]. split; [congruence|].
      split; [congruence|].
      intros adr Hadr. rewrite Hh1, Hh2.
      destruct (decide (output + Z.of_nat j * numCols <= adr
                        < output + Z.of_nat j * numCols + numCols)) as [Hrow|Hrow].
      * replace adr with (output + Z.of_nat j * numCols
                          + Z.of_nat (Z.to_nat (adr - (output + Z.of_nat j * numCols))) * 1)
          by lia.
        rewrite !written_lookup by lia. reflexivity.
      * rewrite !written_lookup_other by (intros i Hi; lia).
        apply Hag. lia.
  - rewrite Hrun1, Hrun2. simpl. destruct Hrel as (Hwr' & Hdv' & Hd1 & Hd2 & Hag).
    rewrite Z.sub_0_r in Hag.
    assert (E : m2' = m1').
    { destruct m1' as [h1 w1 d1], m2' as [h2 w2 d2]. simpl in *. subst. f_equal.
      apply map_eq. intros adr. symmetry. apply Hag.
      destruct (Z.le_gt_cases 0 numRows); [rewrite Z2Nat.id by lia; lia|].
      replace (Z.to_nat numRows) with O by lia. nia. }
    subst m2'. exists m1'. auto.
Qed.

(** The passes return and keep the cells of the heap. *)
Lemma rows_ok m input output numRows numCols w :
  1 <= w <= numCols ->
  allocated (heap m) input 1 (numRows * numCols) ->
  allocated (heap m) output 1 (numRows * numCols) ->
  disjoint_seqs input output 1 (numRows * numCols) ->
  exists m', boxAlongRowsFloatC input output numRows numCols w m = Some m' /\
             dom (heap m') = dom (heap m).
Proof.
  intros Hw Hin Hout Hsep.
  destruct (rows_agree m m input output numRows numCols w) as (m' & Hrun & _ & Hdom);
    auto.
  exists m'. auto.
Qed.

Lemma cols_ok m input output numRows numCols w :
  1 <= w <= numRows ->
  allocated (heap m) input 1 (numRows * numCols) ->
  allocated (heap m) output 1 (numRows * numCols) ->
  exists m', boxAlongColsFloatC input output numRows numCols w m = Some m' /\
             dom (heap m') = dom (heap m).
Proof.
  intros Hw Hin Hout. unfold boxAlongColsFloatC.
  destruct (for_loop_count
    (fun (j : nat) t => dom (heap t) = dom (heap m))
    (fun j m => box1DFloatC (input + j) (output + j) numRows numCols w m)
    0 numCols m) as (m' & Hrun & Hdom).
  - reflexivity.
  - intros j t Hj Hdom. rewrite Z.add_0_l.
    destruct (box1D_result t (input + Z.of_nat j) (output + Z.of_nat j)
                numCols numRows w Hw) as (t' & Hrun & Hinv).
    + apply allocated_col; [|lia]. apply (allocated_dom (heap m)); assumption.
    + apply allocated_col; [|lia]. apply (allocated_dom (heap m)); assumption.
    + exists t'. split; [exact Hrun|].
      destruct Hinv as (_ & _ & Hd & _). congruence.
  - rewrite Hrun. simpl. exists m'. auto.
Qed.

Lemma repetition_ok m bufferA bufferB numRows numCols windowRows windowCols :
  1 <= windowRows <= numCols -> 1 <= windowCols <= numRows ->
  allocated (heap m) bufferA 1 (numRows * numCols) ->
  allocated (heap m) bufferB 1 (numRows * numCols) ->
  disjoint_seqs bufferA bufferB 1 (numRows * numCols) ->
  exists m', repetition bufferA bufferB numRows numCols windowRows windowCols m
             = Some m' /\
             dom (heap m') = dom (heap m).
Proof.
  intros Hwr Hwc HA HB Hsep. unfold repetition.
  destruct (rows_ok m bufferA bufferB numRows numCols windowRows) as (m1 & -> & Hd1);
    auto.
  simpl.
  destruct (cols_ok m1 bufferB bufferA numRows numCols windowCols) as (m2 & -> & Hd2);
    auto.
  - apply (allocated_dom (heap m)); assumption.
  - apply (allocated_dom (heap m)); assumption.
  - exists m2. split; [reflexivity|congruence].
Qed.

End Passes.

Section Jarosz.
Context {F : Type} `{FloatArith F}.
Implicit Types (m : machine F).

Lemma for_fuel_repeat {S : Type} (f : S -> option S) bound :
  forall (k : nat) i s, k = Z.to_nat (bound - i) ->
    snd <$> for_fuel k i bound 1 (fun _ => f) s = repeat_opt k f s.
Proof.
  induction k as [|k IH]; intros i s Hk; simpl; [reflexivity|].
  destruct (Z.ltb_spec i bound); [|lia].
  destruct (f s) as [s1|]; simpl; [|reflexivity]. apply IH. lia.
Qed.

Lemma repeat_opt_snoc {S : Type} (f : S -> option S) (k : nat) (s : S) :
  repeat_opt (Datatypes.S k) f s = (s' ← repeat_opt k f s; f s').
Proof.
  revert s. induction k as [|k IH]; intros s.
  - simpl. destruct (f s); reflexivity.
  - cbn [repeat_opt]. destruct (f s) as [s1|]; cbn [mbind option_bind]; [|reflexivity].
    exact (IH s1).
Qed.

Lemma jarosz_repeat bufferA bufferB numRows numCols windowRows windowCols nreps m :
  jaroszFilterFloat bufferA bufferB numRows numCols windowRows windowCols nreps m
  = repeat_opt (Z.to_nat nreps)
      (repetition bufferA bufferB numRows numCols windowRows windowCols) m.
Proof.
  unfold jaroszFilterFloat, for_loop. rewrite Z.sub_0_r.
  apply (for_fuel_repeat
           (repetition bufferA bufferB numRows numCols windowRows windowCols)).
  lia.
Qed.

(** C8.  With [nreps = 0] the filter returns, for all buffers,
    dimensions and window sizes (allocated or not, in range or not); it
    performs no store, and every cell of buffer A, as every other cell of
    the heap, holds the value it held before. *)
Theorem jarosz_zero_reps bufferA bufferB numRows numCols windowRows windowCols m :
  exists m',
    jaroszFilterFloat bufferA bufferB numRows numCols windowRows windowCols 0 m
    = Some m' /\
    writes m' = writes m /\
    (forall k, heap m' !! (bufferA + k) = heap m !! (bufferA + k)) /\
    heap m' = heap m.
Proof.
  exists m. split; [reflexivity|]. split; [reflexivity|].
  split; [intros k|]; reflexivity.
Qed.

(** The loop unrolled: the filter is [nreps] times the repetition (none
    when [nreps <= 0]), and the last step of a run of [k + 1]
    repetitions is the column pass that stores into buffer A. *)
Lemma jarosz_unrolled bufferA bufferB numRows numCols windowRows windowCols m :
  (forall nreps,
     jaroszFilterFloat bufferA bufferB numRows numCols windowRows windowCols nreps m
     = repeat_opt (Z.to_nat nreps)
         (repetition bufferA bufferB numRows numCols windowRows windowCols) m) /\
  (forall k : nat,
     jaroszFilterFloat bufferA bufferB numRows numCols windowRows windowCols
       (Z.of_nat (Datatypes.S k)) m
     = (m1 ← jaroszFilterFloat bufferA bufferB numRows numCols windowRows windowCols
               (Z.of_nat k) m;
        m2 ← boxAlongRowsFloatC bufferA bufferB numRows numCols windowRows m1;
        boxAlongColsFloatC bufferB bufferA numRows numCols windowCols m2)).
Proof.
  split; [intros nreps; apply jarosz_repeat|].
  intros k. rewrite !jarosz_repeat, !Nat2Z.id. apply repeat_opt_snoc.
Qed.

(** On two allocated, separate buffers the filter returns. *)
Lemma jarosz_ok bufferA bufferB numRows numCols windowRows windowCols nreps m :
  1 <= windowRows <= numCols -> 1 <= windowCols <= numRows ->
  allocated (heap m) bufferA 1 (numRows * numCols) ->
  allocated (heap m) bufferB 1 (numRows * numCols) ->
  disjoint_seqs bufferA bufferB 1 (numRows * numCols) ->
  exists m',
    jaroszFilterFloat bufferA bufferB numRows numCols windowRows windowCols nreps m
    = Some m' /\
    dom (heap m') = dom (heap m).
Proof.
  intros Hwr Hwc HA HB Hsep. rewrite jarosz_repeat.
  generalize (Z.to_nat nreps) as k. intros k. revert m HA HB.
  induction k as [|k IH]; intros m HA HB; simpl; [eauto|].
  destruct (repetition_ok m bufferA bufferB numRows numCols windowRows windowCols)
    as (m1 & -> & Hd1); auto.
  simpl. destruct (IH m1) as (m' & Hrun & Hd).
  - apply (allocated_dom (heap m)); assumption.
  - apply (allocated_dom (heap m)); assumption.
  - exists m'. split; [exact Hrun|congruence].
Qed.

(** C10.  For [nreps >= 1], windows in range, and two allocated,
    separate buffers: a second run from a heap that differs from the
    first only in the cells of buffer B returns the same machine as the
    first; in particular every cell of buffer A ends the same. *)
Theorem jarosz_scratch_independent
    bufferA bufferB numRows numCols windowRows windowCols nreps m (h2 : gmap Z F) :
  1 <= nreps ->
  1 <= windowRows <= numCols -> 1 <= windowCols <= numRows ->
  allocated (heap m) bufferA 1 (numRows * numCols) ->
  allocated (heap m) bufferB 1 (numRows * numCols) ->
  disjoint_seqs bufferA bufferB 1 (numRows * numCols) ->
  dom h2 = dom (heap m) ->
  (forall adr, ~ (bufferB <= adr < bufferB + numRows * numCols) ->
     heap m !! adr = h2 !! adr) ->
  exists m1 m2,
    jaroszFilterFloat bufferA bufferB numRows numCols windowRows windowCols nreps m
    = Some m1 /\
    jaroszFilterFloat bufferA bufferB numRows numCols windowRows windowCols nreps
      (Machine h2 (writes m) (divisors m)) = Some m2 /\
    (forall k, 0 <= k < numRows * numCols ->
       heap m1 !! (bufferA + k * 1) = heap m2 !! (bufferA + k * 1)) /\
    m1 = m2.
Proof.
  intros Hn Hwr Hwc HA HB Hsep Hdom Hsame.
  destruct (jarosz_ok bufferA bufferB numRows numCols windowRows windowCols nreps m)
    as (m1 & Hrun & _); auto.
  exists m1, m1. split; [exact Hrun|]. split; [|split; reflexivity].
  rewrite <- Hrun. unfold jaroszFilterFloat.
  rewrite !(for_loop_first _ 0 nreps) by lia.
  destruct (rows_agree m (Machine h2 (writes m) (divisors m))
              bufferA bufferB numRows numCols windowRows)
    as (m' & Hr1 & Hr2 & _); auto.
  simpl. rewrite Hr1, Hr2. reflexivity.
Qed.

End Jarosz.

(** The cells of an array. *)
Lemma cells_lookup {F : Type} (xs : list F) :
  forall (a adr : Z),
    cells a xs !! adr
    = if decide (a <= adr < a + Z.of_nat (length xs))
      then xs !! Z.to_nat (adr - a) else None.
Proof.
  induction xs as [|x xs IH]; intros a adr; cbn [cells length].
  - rewrite lookup_empty. case_decide; [lia|reflexivity].
  - destruct (decide (a = adr)) as [->|Hne].
    + rewrite lookup_insert_eq. case_decide; [|lia].
      replace (Z.to_nat (adr - adr)) with O by lia. reflexivity.
    + rewrite lookup_insert_ne by exact Hne. rewrite IH.
      repeat case_decide; try lia; [|reflexivity].
      replace (Z.to_nat (adr - a)) with (Datatypes.S (Z.to_nat (adr - (a + 1)))) by lia.
      reflexivity.
Qed.

Lemma two_arrays_outside {F : Type} p (xs : list F) q (ys ys' : list F) adr :
  length ys' = length ys -> ~ (q <= adr < q + Z.of_nat (length ys)) ->
  heap (two_arrays p xs q ys) !! adr = heap (two_arrays p xs q ys') !! adr.
Proof.
  intros Hlen Hout. unfold two_arrays, machine_of. simpl.
  rewrite !lookup_union, !(cells_lookup _ q), Hlen.
  destruct (decide _); [contradiction|reflexivity].
Qed.

Lemma jarosz_scratch_independent_witness :
  let m := two_arrays 0 (b32_of_Z <$> [1; 2; 3; 4]) 100 (b32_of_Z <$> [0; 0; 0; 0]) in
  let h2 := heap (two_arrays 0 (b32_of_Z <$> [1; 2; 3; 4])
                             100 (b32_of_Z <$> [9; 8; 7; 6])) in
  exists m1 m2,
    jaroszFilterFloat 0 100 2 2 2 1 1 m = Some m1 /\
    jaroszFilterFloat 0 100 2 2 2 1 1 (Machine h2 (writes m) (divisors m)) = Some m2 /\
    (forall k, 0 <= k < 2 * 2 -> heap m1 !! (0 + k * 1) = heap m2 !! (0 + k * 1)) /\
    m1 = m2.
Proof.
  intros m h2.
  apply (jarosz_scratch_independent 0 100 2 2 2 1 1 m h2);
    [lia | lia | lia | small_alloc | small_alloc | small_disjoint | | ].
  - vm_compute. reflexivity.
  - intros adr Hadr. apply two_arrays_outside; [reflexivity|exact Hadr].
Defined.

(** ** The divisors of a run *)

Section Divisors.
Context {F : Type} `{FloatArith F}.

Lemma shrink_count_exact W j :
  exact_count W -> (j <= W)%nat -> shrink_count W j = count (W - j).
Proof.
  intros He. induction j as [|j IH]; intros Hj; simpl.
  - rewrite Nat.sub_0_r. reflexivity.
  - rewrite IH by lia. replace (W - j)%nat with (S (W - S j)) by lia.
    apply He. lia.
Qed.

(** Every divisor is the float count of at least one and at most [W]
    samples. *)
Lemma div_log_counts kb W N d :
  exact_count W -> (1 <= W)%nat ->
  d ∈ div_log kb W N -> exists k, (1 <= k <= W)%nat /\ d = count k.
Proof.
  intros He HW. unfold div_log. cbn zeta.
  destruct (half_window_facts W) as (_ & _ & Ha & Ha').
  set (a := half_window W) in *. specialize (Ha' HW).
  rewrite !elem_of_app, !list_elem_of_fmap, list_elem_of_singleton, elem_of_replicate.
  intros [(i & -> & Hi)|[->|[[-> _]|(j & -> & Hj)]]].
  - apply elem_of_seq in Hi. exists (S (a + i)). split; [lia|reflexivity].
  - exists W. split; [lia|reflexivity].
  - exists W. split; [lia|reflexivity].
  - apply elem_of_seq in Hj. exists (W - S j)%nat. split; [lia|].
    apply shrink_count_exact; [exact He|lia].
Qed.

End Divisors.

(** ** Counting in binary32 *)

Lemma digits_size m : digits2_pos m = Pos.size m.
Proof. induction m; simpl; congruence. Qed.

Lemma digits_shift m p :
  digits2_pos (Pos.iter xO m p) = (digits2_pos m + p)%positive.
Proof.
  induction p using Pos.peano_ind.
  - simpl. lia.
  - rewrite Pos.iter_succ. simpl. rewrite IHp. lia.
Qed.

Lemma shr_shift p : forall q,
  SpecFloat.iter_pos shr_1 p (Build_shr_record (Zpos (Pos.iter xO q p)) false false)
  = Build_shr_record (Zpos q) false false.
Proof.
  induction p as [p IH|p IH|]; intros q; simpl.
  - rewrite !IH. reflexivity.
  - rewrite !IH. reflexivity.
  - reflexivity.
Qed.

(** A mantissa of 24 digits with trailing zeros to shift out. *)
Lemma round_aux_shift q p e :
  Zpos (digits2_pos q) = 24 -> -149 <= e + Zpos p <= 104 ->
  binary_round_aux 24 128 false (Zpos (Pos.iter xO q p)) e loc_Exact
  = S754_finite false q (e + Zpos p).
Proof.
  intros Hd He. unfold binary_round_aux, shr_fexp, fexp, emin.
  cbn [Zdigits2 shr_record_of_loc]. rewrite digits_shift, Pos2Z.inj_add, Hd.
  replace (Z.max (24 + Z.pos p + e - 24) (3 - 128 - 24) - e) with (Zpos p) by lia.
  cbn [shr]. rewrite shr_shift. cbn [shr_m loc_of_shr_record round_nearest_even].
  cbn [Zdigits2]. rewrite Hd.
  replace (Z.max (24 + (e + Z.pos p) - 24) (3 - 128 - 24) - (e + Z.pos p)) with 0 by lia.
  cbn [shr shr_m].
  destruct (Z.leb_spec (e + Z.pos p) (128 - 24)); [reflexivity|lia].
Qed.

Lemma round_aux_canonical q e :
  Zpos (digits2_pos q) = 24 -> -149 <= e <= 104 ->
  binary_round_aux 24 128 false (Zpos q) e loc_Exact = S754_finite false q e.
Proof.
  intros Hd He. unfold binary_round_aux, shr_fexp, fexp, emin.
  cbn [Zdigits2 shr_record_of_loc]. rewrite Hd.
  replace (Z.max (24 + e - 24) (3 - 128 - 24) - e) with 0 by lia.
  cbn [shr shr_m loc_of_shr_record round_nearest_even Zdigits2]. rewrite Hd.
  replace (Z.max (24 + e - 24) (3 - 128 - 24) - e) with 0 by lia.
  cbn [shr shr_m].
  destruct (Z.leb_spec e (128 - 24)); [reflexivity|lia].
Qed.

Lemma digits_shift_left m :
  Zpos (digits2_pos m) <= 24 ->
  Zpos (digits2_pos (shift_left m (24 - Zpos (digits2_pos m)))) = 24.
Proof.
  intros Hd. unfold shift_left.
  destruct (24 - Zpos (digits2_pos m)) as [|p|p] eqn:E; try lia.
  rewrite digits_shift. lia.
Qed.

Lemma b32_of_pos m :
  Zpos (digits2_pos m) <= 24 ->
  binary_normalize 24 128 (Zpos m) 0 false = b32_normal m.
Proof.
  intros Hd. unfold binary_normalize, binary_round, shl_align, fexp, emin, b32_normal.
  pose proof (digits_shift_left m Hd) as Hs. unfold shift_left in *.
  replace (Z.max (Z.pos (digits2_pos m) + 0 - 24) (3 - 128 - 24) - 0)
    with (Zpos (digits2_pos m) - 24) by lia.
  replace (Z.max (Z.pos (digits2_pos m) + 0 - 24) (3 - 128 - 24))
    with (Zpos (digits2_pos m) - 24) by lia.
  destruct (24 - Zpos (digits2_pos m)) as [|p|p] eqn:E; try lia.
  - replace (Zpos (digits2_pos m) - 24) with 0 by lia.
    apply round_aux_canonical; [exact Hs|lia].
  - replace (Zpos (digits2_pos m) - 24) with (Zneg p) by lia.
    apply round_aux_canonical; [exact Hs|lia].
Qed.

(** Rounding the integer [m] given with 23 more binary places. *)
Lemma b32_round_shifted m :
  Zpos (digits2_pos m) <= 24 ->
  binary_round 24 128 false (Pos.iter xO m 23) (-23) = b32_normal m.
Proof.
  intros Hd. unfold binary_round, shl_align, fexp, emin, b32_normal.
  rewrite digits_shift, Pos2Z.inj_add.
  pose proof (digits_shift_left m Hd) as Hs.
  assert (Hd1 : 1 <= Zpos (digits2_pos m)) by lia.
  replace (Z.max (Z.pos (digits2_pos m) + 23 + -23 - 24) (3 - 128 - 24) - -23)
    with (Zpos (digits2_pos m) - 1) by lia.
  destruct (Zpos (digits2_pos m) - 1) as [|p|p] eqn:E; try lia.
  - (* one digit: all 23 places are shifted in *)
    replace (24 - Zpos (digits2_pos m)) with 23 in * by lia.
    replace (Zpos (digits2_pos m) - 24) with (-23) by lia.
    apply round_aux_canonical; [exact Hs|lia].
  - replace (Zpos (digits2_pos m) - 24) with (-23 + Zpos p) by lia.
    destruct (24 - Zpos (digits2_pos m)) as [|r|r] eqn:E'; try lia; unfold shift_left in *.
    + replace 23%positive with p by lia. apply round_aux_shift; [exact Hs|lia].
    + replace 23%positive with (p + r)%positive by lia.
      rewrite Pos.iter_add. apply round_aux_shift; [exact Hs|lia].
Qed.

Lemma digits_bound m : Zpos m < 2 ^ 24 -> Zpos (digits2_pos m) <= 24.
Proof.
  intros Hm. rewrite digits_size.
  destruct (Z.le_gt_cases (Zpos (Pos.size m)) 24) as [Hle|Hgt]; [exact Hle|].
  pose proof (Pos.size_le m) as Hs.
  assert (H2 : 2 ^ 25 <= 2 ^ Zpos (Pos.size m)) by (apply Z.pow_le_mono_r; lia).
  assert (H3 : Zpos (2 ^ Pos.size m) = 2 ^ Zpos (Pos.size m)) by apply Pos2Z.inj_pow.
  lia.
Qed.

Lemma iter_xO_23 m : Zpos (Pos.iter xO m 23) = Zpos m * 8388608.
Proof. cbn [Pos.iter]. lia. Qed.

Lemma align_normal m :
  Zpos (digits2_pos m) <= 24 ->
  fst (shl_align (shift_left m (24 - Zpos (digits2_pos m)))
         (Zpos (digits2_pos m) - 24) (-23))
  = Pos.iter xO m 23.
Proof.
  intros Hd. unfold shl_align, shift_left.
  assert (Hd1 : 1 <= Zpos (digits2_pos m)) by lia.
  destruct (-23 - (Zpos (digits2_pos m) - 24)) as [|p|p] eqn:E; try lia;
    destruct (24 - Zpos (digits2_pos m)) as [|r|r] eqn:E'; try lia; cbn [fst].
  - replace r with 23%positive by lia. reflexivity.
  - replace p with 23%positive by lia. reflexivity.
  - replace 23%positive with (p + r)%positive by lia. rewrite Pos.iter_add. reflexivity.
Qed.

Lemma min_exp m : Z.min (Zpos (digits2_pos m) - 24) (-23) = -23.
Proof. lia. Qed.

Lemma b32_add_one m :
  Zpos (digits2_pos m) <= 24 -> Zpos (digits2_pos (m + 1)%positive) <= 24 ->
  b32_add (b32_normal m) b32_one = b32_normal (m + 1)%positive.
Proof.
  intros Hd Hd'. unfold b32_add, SFadd, b32_normal, b32_one. rewrite min_exp.
  rewrite (align_normal m Hd).
  change (fst (shl_align 8388608 (-23) (-23))) with 8388608%positive.
  cbn [cond_Zopp].
  replace (Zpos (Pos.iter xO m 23) + Zpos 8388608) with (Zpos (Pos.iter xO (m + 1)%positive 23))
    by (rewrite !iter_xO_23; lia).
  apply (b32_round_shifted (m + 1)%positive Hd').
Qed.

Lemma b32_sub_one m :
  Zpos (digits2_pos m) <= 24 -> 2 <= Zpos m ->
  Zpos (digits2_pos (Pos.pred m)) <= 24 ->
  b32_sub (b32_normal m) b32_one = b32_normal (Pos.pred m).
Proof.
  intros Hd Hm Hd'. unfold b32_sub, SFsub, b32_normal, b32_one. rewrite min_exp.
  rewrite (align_normal m Hd).
  change (fst (shl_align 8388608 (-23) (-23))) with 8388608%positive.
  cbn [cond_Zopp].
  replace (Zpos (Pos.iter xO m 23) - Zpos 8388608)
    with (Zpos (Pos.iter xO (Pos.pred m) 23))
    by (rewrite !iter_xO_23; lia).
  apply (b32_round_shifted (Pos.pred m) Hd').
Qed.

(** Adding and subtracting one is exact on the integers up to 2^24. *)
Lemma b32_succ z :
  0 <= z < 2 ^ 24 -> b32_add (b32_of_Z z) b32_one = b32_of_Z (z + 1).
Proof.
  intros Hz. destruct z as [|m|m]; [reflexivity| |lia].
  destruct (Z.eq_dec (Zpos m) (2 ^ 24 - 1)) as [E|E].
  - injection E as ->. vm_compute. reflexivity.
  - unfold b32_of_Z. replace (Zpos m + 1) with (Zpos (m + 1)%positive) by lia.
    rewrite !b32_of_pos by (apply digits_bound; lia).
    apply b32_add_one; apply digits_bound; lia.
Qed.

Lemma b32_pred z :
  1 <= z <= 2 ^ 24 -> b32_sub (b32_of_Z z) b32_one = b32_of_Z (z - 1).
Proof.
  intros Hz. destruct z as [|m|m]; [lia| |lia].
  destruct (Z.eq_dec (Zpos m) (2 ^ 24)) as [E|E]; [injection E as ->; vm_compute; reflexivity|].
  destruct (Z.eq_dec (Zpos m) 1) as [E1|E1]; [injection E1 as ->; vm_compute; reflexivity|].
  unfold b32_of_Z. replace (Zpos m - 1) with (Zpos (Pos.pred m)) by lia.
  rewrite !b32_of_pos by (apply digits_bound; lia).
  apply b32_sub_one; try (apply digits_bound; lia). lia.
Qed.

(** At 2^24 the counter stops: 2^24 + 1 rounds to 2^24. *)
Lemma b32_saturate : b32_add (b32_of_Z (2 ^ 24)) b32_one = b32_of_Z (2 ^ 24).
Proof. vm_compute. reflexivity. Qed.

Lemma count_b32 (k : nat) :
  Z.of_nat k <= 2 ^ 24 -> count (F := spec_float) k = b32_of_Z (Z.of_nat k).
Proof.
  induction k as [|k IH]; intros Hk; [reflexivity|].
  change (count (S k)) with (b32_add (count k) b32_one).
  rewrite IH by lia. rewrite b32_succ by lia. f_equal. lia.
Qed.

Lemma count_b32_saturated (k : nat) :
  2 ^ 24 <= Z.of_nat k -> count (F := spec_float) k = b32_of_Z (2 ^ 24).
Proof.
  induction k as [|k IH]; intros Hk; [lia|].
  change (count (S k)) with (b32_add (count k) b32_one).
  destruct (Z.eq_dec (Z.of_nat k) (2 ^ 24 - 1)) as [E|E].
  - rewrite count_b32 by lia. rewrite b32_succ by lia. f_equal. lia.
  - rewrite IH by lia. apply b32_saturate.
Qed.

Lemma exact_count_b32 (W : nat) :
  Z.of_nat W <= 2 ^ 24 -> exact_count (F := spec_float) W.
Proof.
  intros HW k Hk. rewrite !count_b32 by lia.
  change (b32_sub (b32_of_Z (Z.of_nat (S k))) b32_one = b32_of_Z (Z.of_nat k)).
  rewrite b32_pred by lia. f_equal. lia.
Qed.

Lemma b32_of_Z_positive z : 1 <= z <= 2 ^ 24 -> b32_positive (b32_of_Z z).
Proof.
  intros Hz. destruct z as [|m|m]; [lia| |lia].
  destruct (Z.eq_dec (Zpos m) (2 ^ 24)) as [E|E].
  - injection E as ->. reflexivity.
  - unfold b32_of_Z. rewrite b32_of_pos by (apply digits_bound; lia). reflexivity.
Qed.

(** Past 2^24 the counter is stuck at 2^24 while the true count goes
    on; phase 4 then counts down from 2^24. *)
Lemma shrink_count_b32_saturated (W j : nat) :
  2 ^ 24 <= Z.of_nat W -> Z.of_nat j <= 2 ^ 24 ->
  shrink_count (F := spec_float) W j = b32_of_Z (2 ^ 24 - Z.of_nat j).
Proof.
  intros HW. induction j as [|j IH]; intros Hj.
  - simpl. rewrite count_b32_saturated by exact HW. f_equal.
  - change (shrink_count W (S j)) with (b32_sub (shrink_count W j) b32_one).
    rewrite IH by lia. rewrite b32_pred by lia. f_equal. lia.
Qed.

(** The float counter after [k >= 1] increments is the float of a
    positive integer: of [k] up to 2^24, of 2^24 from there on. *)
Lemma count_b32_value (k : nat) :
  (1 <= k)%nat ->
  exists z, 1 <= z <= Z.of_nat k /\ z <= 2 ^ 24 /\
            count (F := spec_float) k = b32_of_Z z.
Proof.
  intros Hk. destruct (Z.le_gt_cases (Z.of_nat k) (2 ^ 24)) as [Hle|Hgt].
  - exists (Z.of_nat k). split; [lia|]. split; [exact Hle|]. apply count_b32, Hle.
  - exists (2 ^ 24). split; [lia|]. split; [lia|]. apply count_b32_saturated. lia.
Qed.

(** Below a window of 2^25 samples every divisor is the float of a
    positive integer. *)
Lemma div_log_b32 kb (W N : nat) d :
  (1 <= W)%nat -> Z.of_nat W < 2 ^ 25 ->
  d ∈ div_log kb W N ->
  exists z, 1 <= z <= Z.of_nat W /\ z <= 2 ^ 24 /\ d = b32_of_Z z.
Proof.
  intros HW Hbig. unfold div_log. cbn zeta.
  assert (Ha : (2 * half_window W <= W)%nat).
  { unfold half_window. pose proof (Nat.div_mod_eq W 2). lia. }
  set (a := half_window W) in *.
  assert (HcW : exists z, 1 <= z <= Z.of_nat W /\ z <= 2 ^ 24 /\ count W = b32_of_Z z)
    by (apply count_b32_value; lia).
  rewrite !elem_of_app, !list_elem_of_fmap, list_elem_of_singleton, elem_of_replicate.
  intros [(i & -> & Hi)|[->|[[-> _]|(j & -> & Hj)]]]; try exact HcW.
  - apply elem_of_seq in Hi.
    destruct (count_b32_value (S (a + i)) ltac:(lia)) as (z & Hz & Hz' & E).
    exists z. split; [lia|]. split; [exact Hz'|exact E].
  - apply elem_of_seq in Hj.
    destruct (Z.le_gt_cases (Z.of_nat W) (2 ^ 24)) as [Hle|Hgt].
    + exists (Z.of_nat (W - S j)). split; [lia|]. split; [lia|].
      rewrite shrink_count_exact by (try apply exact_count_b32; lia).
      apply count_b32. lia.
    + exists (2 ^ 24 - Z.of_nat (S j)). split; [lia|]. split; [lia|].
      apply shrink_count_b32_saturated; lia.
Qed.

(** C3, amended.  In binary32, on allocated sequences with
    [1 <= fullWindowSize <= length] and [fullWindowSize < 2^25], the run
    returns, and every divisor of a division it performs (phases 2, 3
    and 4, the reciprocal of phase 3 included) is strictly positive: it
    is the float of an integer of at least 1 and at most
    [fullWindowSize].  A loop whose count is zero or negative does not
    run its body, and phase 3 with such a count leaves the locals and
    the heap as they are. *)
Theorem box1D_divisors (m : machine spec_float) p q n s w :
  1 <= w <= n -> w < 2 ^ 25 ->
  allocated (heap m) p s n -> allocated (heap m) q s n ->
  (exists m' dl,
     box1DFloatC p q n s w m = Some m' /\
     divisors m' = divisors m ++ dl /\
     Forall (fun d => b32_positive d /\ exists k, 1 <= k <= w /\ d = b32_of_Z k) dl) /\
  (forall (S : Type) (body : Z -> S -> option S) (st : S) bound step,
     bound <= 0 -> for_loop 0 bound step body st = Some (0, st)) /\
  (forall (st : frame spec_float) r,
     r <= 0 ->
     phase3 p q s r st
     = Some (Frame (snd (divide f_one (currentWindowSize st) (mach st)))
                   (li st) (ri st) (oi st) (sum st) (currentWindowSize st))).
Proof.
  intros Hw Hbig Hin Hout. split; [|split].
  - destruct (box1D_result m p q s n w Hw Hin Hout) as (m' & Hrun & Hinv).
    destruct Hinv as (_ & Hdiv & _).
    exists m'. eexists. split; [exact Hrun|]. split; [exact Hdiv|].
    apply Forall_forall. intros d Hd.
    apply div_log_b32 in Hd as (z & Hz & Hz' & ->); [|lia|lia].
    split; [apply b32_of_Z_positive; lia|].
    exists z. split; [lia|reflexivity].
  - intros S body st bound step Hb. apply for_loop_skip. exact Hb.
  - intros st r Hr. unfold phase3. cbn [divide snd].
    rewrite for_loop_skip by lia. cbn [mbind option_bind].
    rewrite for_loop_skip by lia. reflexivity.
Qed.

Lemma box1D_divisors_witness :
  let m := two_arrays 0 (b32_of_Z <$> [0; 0; 0; 10; 0]) 100 (replicate 5 f_zero) in
  (exists m' dl,
     box1DFloatC 0 100 5 1 3 m = Some m' /\
     divisors m' = divisors m ++ dl /\
     Forall (fun d => b32_positive d /\ exists k, 1 <= k <= 3 /\ d = b32_of_Z k) dl) /\
  (forall (S : Type) (body : Z -> S -> option S) (st : S) bound step,
     bound <= 0 -> for_loop 0 bound step body st = Some (0, st)) /\
  (forall (st : frame spec_float) r,
     r <= 0 ->
     phase3 0 100 1 r st
     = Some (Frame (snd (divide f_one (currentWindowSize st) (mach st)))
                   (li st) (ri st) (oi st) (sum st) (currentWindowSize st))).
Proof.
  intros m. apply (box1D_divisors m 0 100 5 1 3); [lia | lia | | ]; small_alloc.
Defined.

(** In exact arithmetic the same holds for every window. *)
Lemma box1D_divisors_exact (m : machine Qc) p q n s w :
  1 <= w <= n ->
  allocated (heap m) p s n -> allocated (heap m) q s n ->
  exists m' dl,
    box1DFloatC p q n s w m = Some m' /\
    divisors m' = divisors m ++ dl /\
    Forall (fun d => (0 < d)%Qc) dl.
Proof.
  intros Hw Hin Hout.
  destruct (box1D_result m p q s n w Hw Hin Hout) as (m' & Hrun & Hinv).
  destruct Hinv as (_ & Hdiv & _).
  exists m'. eexists. split; [exact Hrun|]. split; [exact Hdiv|].
  apply Forall_forall. intros d Hd.
  apply div_log_counts in Hd as (k & Hk & ->); [| |lia].
  - destruct k as [|k]; [lia|]. apply count_rational_pos.
  - intros k _. apply ex_sub_add.
Qed.

Lemma two_arrays_allocated {F : Type} p (xs : list F) q (ys : list F) :
  allocated (heap (two_arrays p xs q ys)) p 1 (Z.of_nat (length xs)) /\
  allocated (heap (two_arrays p xs q ys)) q 1 (Z.of_nat (length ys)).
Proof.
  unfold two_arrays, machine_of. cbn [heap].
  split; intros k Hk; apply lookup_union_is_Some; [left|right];
    rewrite cells_lookup; (case_decide; [|lia]);
    apply lookup_lt_is_Some; lia.
Qed.

(** A window of at least 2^25 samples: the float counter is stuck at
    2^24, phase 4 counts it down 2^24 times or more, and one of its
    divisions is by zero. *)
Lemma box1D_divides_by_zero (m : machine spec_float) p q n s w :
  2 ^ 25 <= w <= n ->
  allocated (heap m) p s n -> allocated (heap m) q s n ->
  exists m', box1DFloatC p q n s w m = Some m' /\ S754_zero false ∈ divisors m'.
Proof.
  intros Hw Hin Hout.
  destruct (box1D_result m p q s n w ltac:(lia) Hin Hout) as (m' & Hrun & Hinv).
  destruct Hinv as (_ & Hdiv & _).
  exists m'. split; [exact Hrun|]. rewrite Hdiv. unfold div_log. cbn zeta.
  rewrite !elem_of_app. do 4 right. apply list_elem_of_fmap.
  exists (Z.to_nat (2 ^ 24 - 1)). split.
  - rewrite shrink_count_b32_saturated by lia.
    replace (2 ^ 24 - Z.of_nat (S (Z.to_nat (2 ^ 24 - 1)))) with 0 by lia.
    reflexivity.
  - apply elem_of_seq. unfold half_window.
    pose proof (Nat.div_mod_eq (Z.to_nat w) 2).
    pose proof (Nat.mod_upper_bound (Z.to_nat w) 2 ltac:(lia)). lia.
Qed.

(** C3 as stated fails: with [fullWindowSize = length = 2^25] on two
    arrays of that many floats, the run divides by zero. *)
Lemma box1D_divisor_zero :
  let n := 33554432 in
  let m := two_arrays 0 (replicate (Z.to_nat n) (S754_zero false))
                      n (replicate (Z.to_nat n) (S754_zero false)) in
  1 <= n <= n /\ allocated (heap m) 0 1 n /\ allocated (heap m) n 1 n /\
  (exists m', box1DFloatC 0 n n 1 n m = Some m' /\ S754_zero false ∈ divisors m') /\
  ~ b32_positive (S754_zero false).
Proof.
  intros n m.
  assert (Hlen : Z.of_nat (length (replicate (Z.to_nat n) (S754_zero false))) = n)
    by (rewrite length_replicate; apply Z2Nat.id; discriminate).
  destruct (two_arrays_allocated 0 (replicate (Z.to_nat n) (S754_zero false))
              n (replicate (Z.to_nat n) (S754_zero false))) as (Hin & Hout).
  rewrite Hlen in Hin, Hout.
  split; [split; [discriminate|apply Z.le_refl]|].
  split; [exact Hin|]. split; [exact Hout|]. split; [|discriminate].
  apply box1D_divides_by_zero; [|exact Hin|exact Hout].
  split; [discriminate|apply Z.le_refl].
Qed.

(** ** The eight-lane operations *)

Section Lanes.
Context {F : Type} `{FloatArith F}.
Implicit Types (m : machine F) (xs vs : list F).

Lemma load_vec_spec k : forall a m xs,
  load_vec k a m = Some xs ->
  length xs = k /\
  forall i, (i < k)%nat -> heap m !! (a + Z.of_nat i) = xs !! i.
Proof.
  induction k as [|k IH]; intros a m xs Hl; simpl in Hl.
  - injection Hl as <-. split; [reflexivity|]. intros i Hi. lia.
  - unfold load in Hl. destruct (heap m !! a) as [x|] eqn:Hx; [|discriminate].
    simpl in Hl. destruct (load_vec k (a + 1) m) as [ys|] eqn:Hys; [|discriminate].
    injection Hl as <-. destruct (IH _ _ _ Hys) as (Hlen & Hval).
    split; [simpl; congruence|]. intros [|i] Hi.
    + rewrite Z.add_0_r. exact Hx.
    + replace (a + Z.of_nat (S i)) with (a + 1 + Z.of_nat i) by lia.
      apply Hval. lia.
Qed.

Lemma load_vec_is_Some k : forall a m,
  is_Some (load_vec k a m) <-> allocated (heap m) a 1 (Z.of_nat k).
Proof.
  induction k as [|k IH]; intros a m.
  - split; [intros _ i Hi; lia|intros _; simpl; eauto].
  - cbn [load_vec]. unfold load. split.
    + intros [xs Hxs] i Hi.
      destruct (heap m !! a) as [x|] eqn:Hx; [|discriminate]. simpl in Hxs.
      destruct (load_vec k (a + 1) m) as [ys|] eqn:Hys; [|discriminate].
      destruct (Z.eq_dec i 0) as [->|Hne].
      * rewrite Z.mul_0_l, Z.add_0_r, Hx. eauto.
      * replace (a + i * 1) with (a + 1 + (i - 1) * 1) by lia.
        apply (proj1 (IH (a + 1) m)); [rewrite Hys; eauto|lia].
    + intros Ha. destruct (Ha 0 ltac:(lia)) as [x Hx].
      rewrite Z.mul_0_l, Z.add_0_r in Hx. rewrite Hx. simpl.
      destruct (proj2 (IH (a + 1) m)) as [ys ->]; [|simpl; eauto].
      intros i Hi. replace (a + 1 + i * 1) with (a + (i + 1) * 1) by lia.
      apply Ha. lia.
Qed.

Lemma divide_vec_spec xs : forall ds m,
  fst (divide_vec xs ds m) = zip_with f_div xs ds /\
  heap (snd (divide_vec xs ds m)) = heap m /\
  writes (snd (divide_vec xs ds m)) = writes m /\
  divisors (snd (divide_vec xs ds m)) = divisors m ++ take (length xs) ds.
Proof.
  induction xs as [|x xs IH]; intros ds m.
  - simpl. rewrite app_nil_r. auto.
  - destruct ds as [|d ds]; [simpl; rewrite app_nil_r; auto|].
    cbn [divide_vec divide].
    destruct (IH ds (Machine (heap m) (writes m) (divisors m ++ [d])))
      as (Hv & Hh & Hw & Hd).
    destruct (divide_vec xs ds _) as [vs m2]. simpl in *.
    rewrite Hv, Hh, Hw, Hd, <- app_assoc. auto.
Qed.

Lemma store_vec_is_Some vs : forall a m,
  is_Some (store_vec a vs m) <-> allocated (heap m) a 1 (Z.of_nat (length vs)).
Proof.
  induction vs as [|v vs IH]; intros a m.
  - split; [intros _ i Hi; simpl in Hi; lia|intros _; simpl; eauto].
  - cbn [store_vec length]. unfold store. split.
    + intros Hs i Hi. destruct (heap m !! a) as [x|] eqn:Hx; [|destruct Hs; discriminate].
      simpl in Hs. apply (proj1 (IH _ _)) in Hs.
      destruct (Z.eq_dec i 0) as [->|Hne].
      * rewrite Z.mul_0_l, Z.add_0_r, Hx. eauto.
      * specialize (Hs (i - 1) ltac:(lia)). cbn [heap] in Hs.
        replace (a + 1 + (i - 1) * 1) with (a + i * 1) in Hs by lia.
        rewrite lookup_insert_ne in Hs by lia. exact Hs.
    + intros Ha. destruct (Ha 0 ltac:(lia)) as [x Hx].
      rewrite Z.mul_0_l, Z.add_0_r in Hx. rewrite Hx. simpl.
      apply (proj2 (IH _ _)). intros i Hi. cbn [heap].
      rewrite lookup_insert_ne by lia.
      replace (a + 1 + i * 1) with (a + (i + 1) * 1) by lia. apply Ha. lia.
Qed.

Lemma store_vec_spec vs : forall a m m',
  store_vec a vs m = Some m' ->
  (forall i, (i < length vs)%nat -> heap m' !! (a + Z.of_nat i) = vs !! i) /\
  (forall adr, ~ (a <= adr < a + Z.of_nat (length vs)) ->
     heap m' !! adr = heap m !! adr) /\
  dom (heap m') = dom (heap m) /\
  writes m' = writes m ++ ((fun i : nat => a + Z.of_nat i) <$> seq 0 (length vs)) /\
  divisors m' = divisors m.
Proof.
  induction vs as [|v vs IH]; intros a m m' Hs.
  - simpl in Hs. injection Hs as <-. simpl. rewrite app_nil_r.
    repeat split; auto. intros i Hi. lia.
  - cbn [store_vec] in Hs. unfold store in Hs.
    destruct (heap m !! a) as [x|] eqn:Hx; [|discriminate]. simpl in Hs.
    destruct (IH _ _ _ Hs) as (Hval & Hframe & Hdom & Hwr & Hdiv). cbn [heap writes divisors] in *.
    split; [|split; [|split; [|split]]].
    + intros [|i] Hi.
      * rewrite Z.add_0_r. rewrite Hframe by lia. apply lookup_insert_eq.
      * replace (a + Z.of_nat (S i)) with (a + 1 + Z.of_nat i) by lia.
        apply Hval. simpl in Hi. lia.
    + intros adr Hadr. cbn [length] in Hadr. rewrite Hframe by lia.
      apply lookup_insert_ne. lia.
    + rewrite Hdom. apply dom_insert_lookup_L. eauto.
    + rewrite Hwr. cbn [length seq fmap list_fmap]. rewrite <- app_assoc. simpl.
      rewrite Z.add_0_r. do 2 f_equal. rewrite <- fmap_S_seq, <- list_fmap_compose.
      apply list_fmap_ext. intros _ i _. simpl. lia.
    + exact Hdiv.
Qed.

Lemma lanes_loaded m a xs i :
  load_vec 8 a m = Some xs -> 0 <= i < 8 ->
  exists x, heap m !! (a + i) = Some x /\ xs !! Z.to_nat i = Some x.
Proof.
  intros Hl Hi. destruct (load_vec_spec 8 a m xs Hl) as (Hlen & Hval).
  specialize (Hval (Z.to_nat i) ltac:(lia)). rewrite Z2Nat.id in Hval by lia.
  destruct (lookup_lt_is_Some_2 xs (Z.to_nat i) ltac:(lia)) as [x Hx].
  exists x. split; congruence.
Qed.

(** X1.  [simd_vectorized_div] on three allocated groups of eight cells
    returns and leaves [num[i] / denom[i]] in [out[i]] for the eight
    lanes, with the values [num] and [denom] held before the call: the
    groups may overlap in any way, since all loads come before the
    stores.  It stores to the eight cells of [out] in order and changes
    no other cell. *)
Theorem simd_div_lanes m out num denom :
  allocated (heap m) num 1 8 -> allocated (heap m) denom 1 8 ->
  allocated (heap m) out 1 8 ->
  exists m', simd_vectorized_div out num denom m = Some m' /\
    (forall i, 0 <= i < 8 ->
       exists x d, heap m !! (num + i) = Some x /\ heap m !! (denom + i) = Some d /\
                   heap m' !! (out + i) = Some (f_div x d)) /\
    (forall adr, ~ (out <= adr < out + 8) -> heap m' !! adr = heap m !! adr) /\
    writes m' = writes m ++ ((fun i : nat => out + Z.of_nat i) <$> seq 0 8) /\
    exists ds, load_vec 8 denom m = Some ds /\ divisors m' = divisors m ++ ds.
Proof.
  intros Hn Hd Ho. unfold simd_vectorized_div.
  destruct (proj2 (load_vec_is_Some 8 num m) Hn) as [xs Hxs].
  destruct (proj2 (load_vec_is_Some 8 denom m) Hd) as [ds Hds].
  rewrite Hxs, Hds. cbn [mbind option_bind].
  destruct (load_vec_spec _ _ _ _ Hxs) as (Lx & _).
  destruct (load_vec_spec _ _ _ _ Hds) as (Ld & _).
  destruct (divide_vec_spec xs ds m) as (Hv & Hh & Hw & Hdv).
  destruct (divide_vec xs ds m) as [vs m1]. cbn [fst snd] in *.
  assert (Lv : length vs = 8%nat) by (rewrite Hv, length_zip_with; lia).
  destruct (proj2 (store_vec_is_Some vs out m1)) as [m' Hm'].
  { rewrite Hh, Lv. exact Ho. }
  destruct (store_vec_spec _ _ _ _ Hm') as (Hval & Hframe & _ & Hwr & Hdiv).
  rewrite Lv in *. exists m'. split; [exact Hm'|]. split; [|split; [|split]].
  - intros i Hi. destruct (lanes_loaded m num xs i Hxs Hi) as (x & Hx & Hxi).
    destruct (lanes_loaded m denom ds i Hds Hi) as (d & Hdd & Hdi).
    exists x, d. split; [exact Hx|]. split; [exact Hdd|].
    specialize (Hval (Z.to_nat i) ltac:(lia)). rewrite Z2Nat.id in Hval by lia.
    rewrite Hval, Hv, lookup_zip_with, Hxi. simpl. rewrite Hdi. reflexivity.
  - intros adr Hadr. rewrite Hframe by lia. rewrite Hh. reflexivity.
  - rewrite Hwr, Hw. reflexivity.
  - exists ds. split; [reflexivity|].
    rewrite Hdiv, Hdv, Lx, <- Ld, firstn_all. reflexivity.
Qed.

(** X2.  [simd_vectorized_mul] on three allocated groups of eight cells
    returns and leaves [num[i] * op[i]] in [out[i]] for the eight lanes,
    with the values held before the call, however the groups overlap;
    it stores to the eight cells of [out] in order, changes no other
    cell and performs no division. *)
Theorem simd_mul_lanes m out num op :
  allocated (heap m) num 1 8 -> allocated (heap m) op 1 8 ->
  allocated (heap m) out 1 8 ->
  exists m', simd_vectorized_mul out num op m = Some m' /\
    (forall i, 0 <= i < 8 ->
       exists x y, heap m !! (num + i) = Some x /\ heap m !! (op + i) = Some y /\
                   heap m' !! (out + i) = Some (f_mul x y)) /\
    (forall adr, ~ (out <= adr < out + 8) -> heap m' !! adr = heap m !! adr) /\
    writes m' = writes m ++ ((fun i : nat => out + Z.of_nat i) <$> seq 0 8) /\
    divisors m' = divisors m.
Proof.
  intros Hn Hd Ho. unfold simd_vectorized_mul.
  destruct (proj2 (load_vec_is_Some 8 num m) Hn) as [xs Hxs].
  destruct (proj2 (load_vec_is_Some 8 op m) Hd) as [ds Hds].
  rewrite Hxs, Hds. cbn [mbind option_bind].
  destruct (load_vec_spec _ _ _ _ Hxs) as (Lx & _).
  destruct (load_vec_spec _ _ _ _ Hds) as (Ld & _).
  assert (Lv : length (zip_with f_mul xs ds) = 8%nat) by (rewrite length_zip_with; lia).
  destruct (proj2 (store_vec_is_Some (zip_with f_mul xs ds) out m)) as [m' Hm'].
  { rewrite Lv. exact Ho. }
  destruct (store_vec_spec _ _ _ _ Hm') as (Hval & Hframe & _ & Hwr & Hdiv).
  rewrite Lv in *. exists m'. split; [exact Hm'|]. split; [|split; [|split]].
  - intros i Hi. destruct (lanes_loaded m num xs i Hxs Hi) as (x & Hx & Hxi).
    destruct (lanes_loaded m op ds i Hds Hi) as (d & Hdd & Hdi).
    exists x, d. split; [exact Hx|]. split; [exact Hdd|].
    specialize (Hval (Z.to_nat i) ltac:(lia)). rewrite Z2Nat.id in Hval by lia.
    rewrite Hval, lookup_zip_with, Hxi. simpl. rewrite Hdi. reflexivity.
  - intros adr Hadr. apply Hframe. lia.
  - exact Hwr.
  - exact Hdiv.
Qed.

(** X3.  The two operations return exactly when all three groups of
    eight cells are allocated: with a cell of [num], of the second
    operand or of [out] missing, the call is an out-of-bounds access. *)
Theorem simd_returns_iff m out a b :
  (is_Some (simd_vectorized_div out a b m) <->
   allocated (heap m) a 1 8 /\ allocated (heap m) b 1 8 /\ allocated (heap m) out 1 8)
  /\
  (is_Some (simd_vectorized_mul out a b m) <->
   allocated (heap m) a 1 8 /\ allocated (heap m) b 1 8 /\ allocated (heap m) out 1 8).
Proof.
  split; split.
  - unfold simd_vectorized_div. intros [m' Hm'].
    destruct (load_vec 8 a m) as [xs|] eqn:Hxs; [|discriminate].
    destruct (load_vec 8 b m) as [ds|] eqn:Hds; [|discriminate].
    cbn [mbind option_bind] in Hm'.
    destruct (load_vec_spec _ _ _ _ Hxs) as (Lx & _).
    destruct (load_vec_spec _ _ _ _ Hds) as (Ld & _).
    destruct (divide_vec_spec xs ds m) as (Hv & Hh & _).
    destruct (divide_vec xs ds m) as [vs m1]. cbn [fst snd] in *.
    split; [apply (load_vec_is_Some 8); rewrite Hxs; eauto|].
    split; [apply (load_vec_is_Some 8); rewrite Hds; eauto|].
    assert (Hs : is_Some (store_vec out vs m1)) by eauto.
    apply store_vec_is_Some in Hs. rewrite Hh, Hv, length_zip_with in Hs.
    replace (length xs `min` length ds)%nat with 8%nat in Hs by lia. exact Hs.
  - intros (Ha & Hb & Ho). unfold simd_vectorized_div.
    destruct (proj2 (load_vec_is_Some 8 a m) Ha) as [xs Hxs].
    destruct (proj2 (load_vec_is_Some 8 b m) Hb) as [ds Hds].
    rewrite Hxs, Hds. cbn [mbind option_bind].
    destruct (load_vec_spec _ _ _ _ Hxs) as (Lx & _).
    destruct (load_vec_spec _ _ _ _ Hds) as (Ld & _).
    destruct (divide_vec_spec xs ds m) as (Hv & Hh & _).
    destruct (divide_vec xs ds m) as [vs m1]. cbn [fst snd] in *.
    apply store_vec_is_Some. rewrite Hh, Hv, length_zip_with.
    replace (length xs `min` length ds)%nat with 8%nat by lia. exact Ho.
  - unfold simd_vectorized_mul. intros [m' Hm'].
    destruct (load_vec 8 a m) as [xs|] eqn:Hxs; [|discriminate].
    destruct (load_vec 8 b m) as [ds|] eqn:Hds; [|discriminate].
    cbn [mbind option_bind] in Hm'.
    destruct (load_vec_spec _ _ _ _ Hxs) as (Lx & _).
    destruct (load_vec_spec _ _ _ _ Hds) as (Ld & _).
    split; [apply (load_vec_is_Some 8); rewrite Hxs; eauto|].
    split; [apply (load_vec_is_Some 8); rewrite Hds; eauto|].
    assert (Hs : is_Some (store_vec out (zip_with f_mul xs ds) m)) by eauto.
    apply store_vec_is_Some in Hs. rewrite length_zip_with in Hs.
    replace (length xs `min` length ds)%nat with 8%nat in Hs by lia. exact Hs.
  - intros (Ha & Hb & Ho). unfold simd_vectorized_mul.
    destruct (proj2 (load_vec_is_Some 8 a m) Ha) as [xs Hxs].
    destruct (proj2 (load_vec_is_Some 8 b m) Hb) as [ds Hds].
    rewrite Hxs, Hds. cbn [mbind option_bind].
    destruct (load_vec_spec _ _ _ _ Hxs) as (Lx & _).
    destruct (load_vec_spec _ _ _ _ Hds) as (Ld & _).
    apply store_vec_is_Some. rewrite length_zip_with.
    replace (length xs `min` length ds)%nat with 8%nat by lia. exact Ho.
Qed.

End Lanes.

(** In place: [out] is [num]. *)
Lemma simd_div_lanes_witness :
  let m := machine_of (cells 0 (b32_of_Z <$> [8; 6; 4; 2; 1; 3; 5; 7;
                                              2; 2; 2; 2; 1; 1; 1; 1])) in
  exists m', simd_vectorized_div 0 0 8 m = Some m' /\
    (forall i, 0 <= i < 8 ->
       exists x d, heap m !! (0 + i) = Some x /\ heap m !! (8 + i) = Some d /\
                   heap m' !! (0 + i) = Some (f_div x d)) /\
    (forall adr, ~ (0 <= adr < 0 + 8) -> heap m' !! adr = heap m !! adr) /\
    writes m' = writes m ++ ((fun i : nat => 0 + Z.of_nat i) <$> seq 0 8) /\
    exists ds, load_vec 8 8 m = Some ds /\ divisors m' = divisors m ++ ds.
Proof.
  intros m. apply (simd_div_lanes m 0 0 8); small_alloc.
Defined.

(** Overlapping: [out] starts in the middle of [num]. *)
Lemma simd_mul_lanes_witness :
  let m := machine_of (cells 0 (b32_of_Z <$> [8; 6; 4; 2; 1; 3; 5; 7;
                                              2; 2; 2; 2; 1; 1; 1; 1])) in
  exists m', simd_vectorized_mul 4 0 8 m = Some m' /\
    (forall i, 0 <= i < 8 ->
       exists x y, heap m !! (0 + i) = Some x /\ heap m !! (8 + i) = Some y /\
                   heap m' !! (4 + i) = Some (f_mul x y)) /\
    (forall adr, ~ (4 <= adr < 4 + 8) -> heap m' !! adr = heap m !! adr) /\
    writes m' = writes m ++ ((fun i : nat => 4 + Z.of_nat i) <$> seq 0 8) /\
    divisors m' = divisors m.
Proof.
  intros m. apply (simd_mul_lanes m 4 0 8); small_alloc.
Defined.

(** ** Windows out of range *)

Section WindowEdge.
Context {F : Type} `{FloatArith F}.
Implicit Types (m : machine F).

(** The run lemma for a window of zero samples too. *)
Lemma box1D_result_from_zero m p q s n w :
  0 <= w <= n ->
  allocated (heap m) p s n -> allocated (heap m) q s n ->
  exists m', box1DFloatC p q n s w m = Some m' /\
    mach_inv (8 * blocks (Z.to_nat n - Z.to_nat w)) m p q s (Z.to_nat w) (Z.to_nat n)
      (Z.to_nat n)
      (div_log (8 * blocks (Z.to_nat n - Z.to_nat w)) (Z.to_nat w) (Z.to_nat n)) m'.
Proof.
  intros Hw Hin Hout.
  destruct (box1D_run (8 * blocks (Z.to_nat n - Z.to_nat w)) m p q s
              (Z.to_nat w) (Z.to_nat n)) as (m' & Hrun & Hinv);
    try lia; try reflexivity.
  - intros k Hk. apply Hin. lia.
  - intros k Hk. apply Hout. lia.
  - rewrite !Z2Nat.id in Hrun by lia. eauto.
Qed.

(** Phase 3 with a count of zero or less only computes the reciprocal. *)
Lemma phase3_skip p q s r (st : frame F) :
  r <= 0 ->
  phase3 p q s r st
  = Some (Frame (snd (divide f_one (currentWindowSize st) (mach st)))
                (li st) (ri st) (oi st) (sum st) (currentWindowSize st)).
Proof.
  intros Hr. unfold phase3. cbn [divide snd].
  rewrite for_loop_skip by lia. cbn [mbind option_bind].
  rewrite for_loop_skip by lia. reflexivity.
Qed.

(** With [length <= fullWindowSize] phase 3 has no step, and the other
    phases do not depend on [length]. *)
Lemma box1D_beyond m p q n s w :
  n <= w -> box1DFloatC p q n s w m = box1DFloatC p q w s w m.
Proof.
  intros Hn. unfold box1DFloatC. cbn zeta.
  destruct (for_loop 0 ((w + 2) ÷ 2 - 1) 1 (phase1_body p s) _) as [[i1 st1]|];
    [|reflexivity].
  cbn [mbind option_bind].
  destruct (for_loop 0 (w - (w + 2) ÷ 2 + 1) 1 (phase2_body p q s) st1)
    as [[i2 st2]|]; [|reflexivity].
  cbn [mbind option_bind]. rewrite !phase3_skip by lia. reflexivity.
Qed.

(** With [fullWindowSize <= 0] phases 1, 2 and 4 have no step, as with a
    window of zero samples, and phase 3 has [length - fullWindowSize]. *)
Lemma box1D_below m p q n s w :
  w <= 0 -> box1DFloatC p q n s w m = box1DFloatC p q (n - w) s 0 m.
Proof.
  intros Hw. unfold box1DFloatC. cbn zeta.
  assert (H1 : (w + 2) ÷ 2 - 1 <= 0) by (Z.to_euclidean_division_equations; lia).
  assert (H2 : w - (w + 2) ÷ 2 + 1 <= 0) by (Z.to_euclidean_division_equations; lia).
  change ((0 + 2) ÷ 2) with 1.
  rewrite (for_loop_skip _ 0 ((w + 2) ÷ 2 - 1)) by exact H1.
  rewrite (for_loop_skip _ 0 (1 - 1)) by lia.
  cbn [mbind option_bind].
  rewrite (for_loop_skip _ 0 (w - (w + 2) ÷ 2 + 1)) by exact H2.
  rewrite (for_loop_skip _ 0 (0 - 1 + 1)) by lia.
  cbn [mbind option_bind]. rewrite Z.sub_0_r.
  destruct (phase3 p q s (n - w) _) as [st|]; cbn [mbind option_bind]; [|reflexivity].
  rewrite (for_loop_skip _ 0 ((w + 2) ÷ 2 - 1)) by exact H1.
  rewrite (for_loop_skip _ 0 (1 - 1)) by lia. reflexivity.
Qed.

(** X4.  A window larger than the sequence is not cut to it: with
    [length <= fullWindowSize] the call is the same computation as with
    [length = fullWindowSize], so it reads [fullWindowSize] input samples
    and, where those cells exist, stores to [fullWindowSize] output
    positions, past the end of a sequence of [length] cells. *)
Theorem box1D_window_exceeds m p q n s w :
  n <= w ->
  box1DFloatC p q n s w m = box1DFloatC p q w s w m /\
  (0 <= w -> allocated (heap m) p s w -> allocated (heap m) q s w ->
   exists m', box1DFloatC p q n s w m = Some m' /\
              writes m' = writes m ++ out_addrs q s (Z.to_nat w)).
Proof.
  intros Hn. pose proof (box1D_beyond m p q n s w Hn) as E.
  split; [exact E|]. intros Hw Hin Hout. rewrite E.
  destruct (box1D_result_from_zero m p q s w w ltac:(lia) Hin Hout)
    as (m' & Hrun & Hwr & _).
  exists m'. auto.
Qed.

End WindowEdge.

Lemma box1D_window_exceeds_witness :
  let m := two_arrays 0 (b32_of_Z <$> [1; 2; 3; 4; 5]) 100 (replicate 5 f_zero) in
  box1DFloatC 0 100 3 1 5 m = box1DFloatC 0 100 5 1 5 m /\
  (0 <= 5 -> allocated (heap m) 0 1 5 -> allocated (heap m) 100 1 5 ->
   exists m', box1DFloatC 0 100 3 1 5 m = Some m' /\
              writes m' = writes m ++ out_addrs 100 1 (Z.to_nat 5)).
Proof.
  intros m. apply (box1D_window_exceeds m 0 100 3 1 5). lia.
Defined.

(** ** A window of zero samples *)

Lemma b32_slide_step (sm y : spec_float) :
  sm = S754_zero false \/ sm = S754_nan ->
  b32_sub (b32_add sm y) y = S754_zero false \/ b32_sub (b32_add sm y) y = S754_nan.
Proof.
  intros [->| ->]; [|right; destruct y as [sy|sy| |sy my ey]; reflexivity].
  destruct y as [sy|sy| |sy my ey].
  - left. destruct sy; reflexivity.
  - right. destruct sy; reflexivity.
  - right. reflexivity.
  - left. unfold b32_add, b32_sub. cbn [SFadd SFsub]. rewrite Z.sub_diag. reflexivity.
Qed.

Lemma b32_slide_sum_zero (x : nat -> spec_float) k :
  slide_sum x 0 k = S754_zero false \/ slide_sum x 0 k = S754_nan.
Proof.
  induction k as [|k IH]; [left; reflexivity|]. apply b32_slide_step, IH.
Qed.

Lemma out_value_zero {F : Type} `{FloatArith F} kb (x : nat -> F) n i :
  (i < n)%nat ->
  out_value kb x 0 n i
  = if (i <? kb)%nat
    then f_mul (slide_sum x 0 (S i)) (f_div f_one f_zero)
    else f_div (slide_sum x 0 (S i)) f_zero.
Proof.
  intros Hi. unfold out_value. cbn zeta. change (half_window 0) with O.
  destruct (Nat.ltb_spec i (0 - 0)) as [?|_]; [lia|].
  destruct (Nat.ltb_spec i (n - 0)) as [_|?]; [|lia].
  rewrite !Nat.sub_0_r. reflexivity.
Qed.

(** X5.  [fullWindowSize = 0] is not rejected: in binary32, on allocated
    and separate sequences of length at least 1, the run returns, every
    division it performs is a division by [0.0], and every output
    position holds NaN, whatever the input. *)
Theorem box1D_window_zero (m : machine spec_float) p q n s :
  1 <= n -> s <> 0 ->
  allocated (heap m) p s n -> allocated (heap m) q s n ->
  disjoint_seqs p q s n ->
  exists m' dl,
    box1DFloatC p q n s 0 m = Some m' /\
    divisors m' = divisors m ++ dl /\
    Forall (fun d => d = S754_zero false) dl /\
    forall k, 0 <= k < n -> heap m' !! (q + k * s) = Some S754_nan.
Proof.
  intros Hn Hs Hin Hout Hsep.
  destruct (box1D_result_from_zero m p q s n 0 ltac:(lia) Hin Hout)
    as (m' & Hrun & Hinv).
  destruct Hinv as (_ & Hdiv & _ & _ & Hval).
  specialize (Hval (separate_nat p q s n Hsep)).
  exists m'. eexists. split; [exact Hrun|]. split; [exact Hdiv|]. split.
  - unfold div_log. cbn zeta. change (half_window (Z.to_nat 0)) with O.
    change (Z.to_nat 0) with O. cbn [seq fmap list_fmap app Nat.sub].
    apply Forall_cons. split; [reflexivity|].
    rewrite app_nil_r. apply Forall_forall. intros d Hd.
    apply elem_of_replicate in Hd as [-> _]. reflexivity.
  - intros k Hk. rewrite Hval. rewrite <- (Z2Nat.id k) at 1 by lia.
    rewrite written_lookup by (try assumption; lia). f_equal.
    change (Z.to_nat 0) with O. rewrite out_value_zero by lia.
    destruct (b32_slide_sum_zero (sample m p s) (S (Z.to_nat k))) as [-> | ->];
      destruct (_ <? _)%nat; reflexivity.
Qed.

Lemma box1D_window_zero_witness :
  let m := two_arrays 0 (b32_of_Z <$> [3; 5; 7]) 100 (replicate 3 f_zero) in
  exists m' dl,
    box1DFloatC 0 100 3 1 0 m = Some m' /\
    divisors m' = divisors m ++ dl /\
    Forall (fun d => d = S754_zero false) dl /\
    forall k, 0 <= k < 3 -> heap m' !! (100 + k * 1) = Some S754_nan.
Proof.
  intros m.
  apply (box1D_window_zero m 0 100 3 1); [lia | lia | | | small_disjoint]; small_alloc.
Defined.

Section WindowNegative.
Context {F : Type} `{FloatArith F}.
Implicit Types (m : machine F).

(** X6.  A negative [fullWindowSize] is not rejected either: phases 1, 2
    and 4 have a count of zero or less and phase 3 has
    [length - fullWindowSize] steps, so the call is the same computation
    as with a window of zero samples on a sequence of
    [length - fullWindowSize] cells; where those cells exist it stores to
    that many output positions. *)
Theorem box1D_window_negative m p q n s w :
  w <= 0 ->
  box1DFloatC p q n s w m = box1DFloatC p q (n - w) s 0 m /\
  (0 <= n - w ->
   allocated (heap m) p s (n - w) -> allocated (heap m) q s (n - w) ->
   exists m', box1DFloatC p q n s w m = Some m' /\
              writes m' = writes m ++ out_addrs q s (Z.to_nat (n - w))).
Proof.
  intros Hw. pose proof (box1D_below m p q n s w Hw) as E.
  split; [exact E|]. intros Hn Hin Hout. rewrite E.
  destruct (box1D_result_from_zero m p q s (n - w) 0 ltac:(lia) Hin Hout)
    as (m' & Hrun & Hwr & _).
  exists m'. auto.
Qed.

End WindowNegative.

Lemma box1D_window_negative_witness :
  let m := two_arrays 0 (b32_of_Z <$> [1; 2; 3; 4; 5]) 100 (replicate 5 f_zero) in
  box1DFloatC 0 100 3 1 (-2) m = box1DFloatC 0 100 (3 - -2) 1 0 m /\
  exists m', box1DFloatC 0 100 3 1 (-2) m = Some m' /\
             writes m' = writes m ++ out_addrs 100 1 (Z.to_nat (3 - -2)).
Proof.
  intros m. destruct (box1D_window_negative m 0 100 3 1 (-2) ltac:(lia)) as [E K].
  split; [exact E|]. apply K; [lia| |]; small_alloc.
Defined.

(** ** The cells a run needs *)

Section LoopsPartial.
Context {S : Type}.

(** What a loop that returns has kept, when every iteration that
    returns keeps it. *)
Lemma for_fuel_partial (body : Z -> S -> option S) bound step :
  0 < step ->
  forall (k : nat) (Inv : nat -> S -> Prop) fuel i s r,
    (k <= fuel)%nat ->
    bound <= i + step * Z.of_nat k ->
    (forall j, (j < k)%nat -> i + step * Z.of_nat j < bound) ->
    Inv O s ->
    (forall j t t', (j < k)%nat -> Inv j t ->
       body (i + step * Z.of_nat j) t = Some t' -> Inv (Datatypes.S j) t') ->
    for_fuel fuel i bound step body s = Some r ->
    fst r = i + step * Z.of_nat k /\ Inv k (snd r).
Proof.
  intros Hstep. induction k as [|k IH]; intros Inv fuel i s r Hfuel Hend Hin H0 Hbody Hrun.
  - replace (i + step * Z.of_nat 0) with i in * by lia.
    destruct fuel as [|fuel]; simpl in Hrun.
    + injection Hrun as <-. split; [reflexivity|exact H0].
    + destruct (Z.ltb_spec i bound); [lia|]. injection Hrun as <-.
      split; [reflexivity|exact H0].
  - destruct fuel as [|fuel]; [lia|]. simpl in Hrun.
    pose proof (Hin O ltac:(lia)) as Hlt.
    destruct (Z.ltb_spec i bound) as [_|?]; [|lia].
    destruct (body i s) as [t|] eqn:Hb; [|discriminate]. simpl in Hrun.
    destruct (IH (fun j => Inv (Datatypes.S j)) fuel (i + step) t r) as [Hf Hk];
      try lia; try assumption.
    + intros j Hj. specialize (Hin (Datatypes.S j) ltac:(lia)). lia.
    + apply (Hbody O s t); [lia|exact H0|].
      replace (i + step * Z.of_nat 0) with i by lia. exact Hb.
    + intros j u u' Hj Hinv Hu. apply (Hbody (Datatypes.S j) u u'); [lia|exact Hinv|].
      rewrite <- Hu. f_equal. lia.
    + split; [lia|exact Hk].
Qed.

Lemma for_loop_count_partial (Inv : nat -> S -> Prop) (body : Z -> S -> option S)
    i bound s r :
  Inv O s ->
  (forall j t t', (j < Z.to_nat (bound - i))%nat -> Inv j t ->
     body (i + Z.of_nat j) t = Some t' -> Inv (Datatypes.S j) t') ->
  for_loop i bound 1 body s = Some r -> Inv (Z.to_nat (bound - i)) (snd r).
Proof.
  intros H0 Hbody Hrun. unfold for_loop in Hrun.
  apply (for_fuel_partial body bound 1 ltac:(lia) (Z.to_nat (bound - i)) Inv
           (Z.to_nat (bound - i)) i s r); try lia; try assumption.
  intros j t t' Hj Hinv Hb. apply (Hbody j t t' Hj Hinv).
  rewrite <- Hb. f_equal. lia.
Qed.

Lemma for_loop_blocks_partial (Inv : nat -> S -> Prop) (body : Z -> S -> option S)
    (c : nat) s r :
  Inv O s ->
  (forall j t t', (j < blocks c)%nat -> Inv j t ->
     body (8 * Z.of_nat j) t = Some t' -> Inv (Datatypes.S j) t') ->
  for_loop 0 (Z.of_nat c - 8) 8 body s = Some r ->
  fst r = 8 * Z.of_nat (blocks c) /\ Inv (blocks c) (snd r).
Proof.
  intros H0 Hbody Hrun.
  assert (Hb : (8 * blocks c <= c - 1)%nat /\ (c - 1 < 8 * blocks c + 8)%nat).
  { unfold blocks. pose proof (Nat.div_mod_eq (c - 1) 8) as E.
    pose proof (Nat.mod_upper_bound (c - 1) 8 ltac:(lia)). lia. }
  unfold for_loop in Hrun.
  apply (for_fuel_partial body (Z.of_nat c - 8) 8 ltac:(lia) (blocks c) Inv
           (Z.to_nat (Z.of_nat c - 8 - 0)) 0 s r); try lia; try assumption.
Qed.

End LoopsPartial.

Section Needs.
Context {F : Type} `{FloatArith F}.
Variables (m0 : machine F) (p q s : Z).
Implicit Types (m : machine F) (st : frame F).

Lemma load_needs a m y :
  dom (heap m) = dom (heap m0) -> load a m = Some y -> is_Some (heap m0 !! a).
Proof.
  intros Hdom Hl. apply elem_of_dom. rewrite <- Hdom. apply elem_of_dom.
  unfold load in Hl. eauto.
Qed.

Lemma store_needs a v m m' :
  dom (heap m) = dom (heap m0) -> store a v m = Some m' ->
  is_Some (heap m0 !! a) /\ dom (heap m') = dom (heap m0).
Proof.
  intros Hdom Hs. unfold store in Hs.
  destruct (heap m !! a) as [y|] eqn:E; [|discriminate]. injection Hs as <-.
  split.
  - apply elem_of_dom. rewrite <- Hdom. apply elem_of_dom. eauto.
  - cbn [heap]. rewrite <- Hdom. apply dom_insert_lookup_L. eauto.
Qed.

Lemma more_cells (b : Z) (R c : nat) :
  (forall k, (k < R)%nat -> is_Some (heap m0 !! (b + Z.of_nat k * s))) ->
  (forall j, (j < c)%nat -> is_Some (heap m0 !! (b + (Z.of_nat R * s + s * Z.of_nat j)))) ->
  forall k, (k < c + R)%nat -> is_Some (heap m0 !! (b + Z.of_nat k * s)).
Proof.
  intros Hold Hnew k Hk. destruct (Nat.lt_ge_cases k R) as [Hlt|Hge].
  - apply Hold, Hlt.
  - specialize (Hnew (k - R)%nat ltac:(lia)).
    replace (b + Z.of_nat k * s) with (b + (Z.of_nat R * s + s * Z.of_nat (k - R)))
      by (rewrite Nat2Z.inj_sub by lia; ring).
    exact Hnew.
Qed.

Lemma one_more_cell (b : Z) (R : nat) :
  (forall k, (k < R)%nat -> is_Some (heap m0 !! (b + Z.of_nat k * s))) ->
  is_Some (heap m0 !! (b + Z.of_nat R * s)) ->
  forall k, (k < Datatypes.S R)%nat -> is_Some (heap m0 !! (b + Z.of_nat k * s)).
Proof.
  intros Hold Hnew. apply (more_cells b R 1 Hold). intros j Hj.
  replace j with O by lia. rewrite Z.mul_0_r, Z.add_0_r. exact Hnew.
Qed.

Ltac needs_load :=
  match goal with
  | Hdom : dom (heap ?m) = dom (heap m0) |- context [load ?a ?m] =>
      let Hl := fresh "Hl" in
      destruct (load a m) as [?|] eqn:Hl;
      [apply (load_needs _ _ _ Hdom) in Hl; cbn [mbind option_bind]
      |cbn [mbind option_bind]; intros Hx; discriminate Hx]
  end.

Ltac needs_store :=
  match goal with
  | Hdom : dom (heap ?m) = dom (heap m0) |- context [store ?a ?v ?m] =>
      let Hs := fresh "Hs" in
      let Hd := fresh "Hd" in
      destruct (store a v m) as [?|] eqn:Hs;
      [apply (store_needs _ _ _ _ Hdom) in Hs; destruct Hs as [Hs Hd];
       cbn [mbind option_bind]
      |cbn [mbind option_bind]; intros Hx; discriminate Hx]
  end.

Lemma phase1_needs R O i st st' :
  touched m0 p q s R O st -> phase1_body p s i st = Some st' ->
  touched m0 p q s (Datatypes.S R) O st'.
Proof.
  intros (Hri & Hoi & Hdom & HR & HO). destruct st as [m vl vr vo vs vc].
  cbn [mach li ri oi sum currentWindowSize] in *. subst vr vo.
  unfold phase1_body. cbn [mach li ri oi sum currentWindowSize].
  needs_load. intros [= <-]. unfold touched. cbn [mach li ri oi].
  split; [lia|]. split; [reflexivity|]. split; [exact Hdom|].
  split; [|exact HO]. apply one_more_cell; assumption.
Qed.

Lemma phase2_needs R O i st st' :
  touched m0 p q s R O st -> phase2_body p q s i st = Some st' ->
  touched m0 p q s (Datatypes.S R) (Datatypes.S O) st'.
Proof.
  intros (Hri & Hoi & Hdom & HR & HO). destruct st as [m vl vr vo vs vc].
  cbn [mach li ri oi sum currentWindowSize] in *. subst vr vo.
  unfold phase2_body. cbn [mach li ri oi sum currentWindowSize divide].
  needs_load. change (heap m) with (heap (Machine (heap m) (writes m) (divisors m ++ [f_add vc f_one]))) in Hdom.
  needs_store. intros [= <-]. unfold touched. cbn [mach li ri oi].
  split; [lia|]. split; [lia|]. split; [assumption|].
  split; apply one_more_cell; assumption.
Qed.

Lemma phase3_single_needs R O i st st' :
  touched m0 p q s R O st -> phase3_single p q s i st = Some st' ->
  touched m0 p q s (Datatypes.S R) (Datatypes.S O) st'.
Proof.
  intros (Hri & Hoi & Hdom & HR & HO). destruct st as [m vl vr vo vs vc].
  cbn [mach li ri oi sum currentWindowSize] in *. subst vr vo.
  unfold phase3_single. cbn [mach li ri oi sum currentWindowSize divide].
  needs_load. needs_load.
  change (heap m) with (heap (Machine (heap m) (writes m) (divisors m ++ [vc]))) in Hdom.
  needs_store. intros [= <-]. unfold touched. cbn [mach li ri oi].
  split; [lia|]. split; [lia|]. split; [assumption|].
  split; apply one_more_cell; assumption.
Qed.

Lemma phase4_needs R O i st st' :
  touched m0 p q s R O st -> phase4_body p q s i st = Some st' ->
  touched m0 p q s R (Datatypes.S O) st'.
Proof.
  intros (Hri & Hoi & Hdom & HR & HO). destruct st as [m vl vr vo vs vc].
  cbn [mach li ri oi sum currentWindowSize] in *. subst vr vo.
  unfold phase4_body. cbn [mach li ri oi sum currentWindowSize divide].
  needs_load.
  change (heap m)
    with (heap (Machine (heap m) (writes m) (divisors m ++ [f_sub vc f_one]))) in Hdom.
  needs_store. intros [= <-]. unfold touched. cbn [mach li ri oi].
  split; [reflexivity|]. split; [lia|]. split; [assumption|].
  split; [exact HR|]. apply one_more_cell; assumption.
Qed.

Lemma eight_cells (b c : Z) :
  is_Some (heap m0 !! (b + (c + s * 0))) -> is_Some (heap m0 !! (b + (c + s * 1))) ->
  is_Some (heap m0 !! (b + (c + s * 2))) -> is_Some (heap m0 !! (b + (c + s * 3))) ->
  is_Some (heap m0 !! (b + (c + s * 4))) -> is_Some (heap m0 !! (b + (c + s * 5))) ->
  is_Some (heap m0 !! (b + (c + s * 6))) -> is_Some (heap m0 !! (b + (c + s * 7))) ->
  forall j, (j < 8)%nat -> is_Some (heap m0 !! (b + (c + s * Z.of_nat j))).
Proof.
  intros H0 H1 H2 H3 H4 H5 H6 H7 j Hj.
  do 8 (destruct j as [|j]; [assumption|]). lia.
Qed.

Lemma phase3_block_needs denom R O i st st' :
  touched m0 p q s R O st -> phase3_block p q s denom i st = Some st' ->
  touched m0 p q s (8 + R) (8 + O) st'.
Proof.
  intros (Hri & Hoi & Hdom & HR & HO). destruct st as [m vl vr vo vs vc].
  cbn [mach li ri oi sum currentWindowSize] in *. subst vr vo.
  unfold phase3_block. cbn [mach li ri oi sum currentWindowSize]. cbn zeta.
  do 16 needs_load.
  do 8 needs_store. intros [= <-]. unfold touched. cbn [mach li ri oi].
  split; [lia|]. split; [lia|]. split; [assumption|].
  split; apply more_cells; try assumption; apply eight_cells; try assumption.
  rewrite Z.mul_0_r, Z.add_0_r. assumption.
Qed.

Lemma touched_eq R O R' O' st :
  touched m0 p q s R O st -> R = R' -> O = O' -> touched m0 p q s R' O' st.
Proof. intros Ht -> ->. exact Ht. Qed.

(** A run that returns has loaded every input sample and stored to
    every output position. *)
Lemma box1D_needs n w m' :
  0 <= w <= n -> box1DFloatC p q n s w m0 = Some m' ->
  (forall k, (k < Z.to_nat n)%nat -> is_Some (heap m0 !! (p + Z.of_nat k * s))) /\
  (forall k, (k < Z.to_nat n)%nat -> is_Some (heap m0 !! (q + Z.of_nat k * s))).
Proof.
  intros Hw. unfold box1DFloatC. cbn zeta.
  set (a := (w + 2) ÷ 2 - 1).
  assert (Ha : 0 <= a <= w /\ (w + 2) ÷ 2 = a + 1)
    by (subst a; Z.to_euclidean_division_equations; lia).
  destruct Ha as [Ha ->].
  destruct (for_loop 0 a 1 (phase1_body p s) _) as [[i1 st1]|] eqn:E1;
    cbn [mbind option_bind]; [|intros Hx; discriminate Hx].
  apply (for_loop_count_partial (fun j => touched m0 p q s j 0)) in E1.
  2:{ unfold touched. cbn [mach ri oi]. repeat split; try lia; intros k Hk; lia. }
  2:{ intros j t t' _. apply phase1_needs. }
  cbn [snd] in E1.
  destruct (for_loop 0 (w - (a + 1) + 1) 1 (phase2_body p q s) st1)
    as [[i2 st2]|] eqn:E2; cbn [mbind option_bind]; [|intros Hx; discriminate Hx].
  apply (for_loop_count_partial
           (fun j => touched m0 p q s (j + Z.to_nat (a - 0)) j)) in E2.
  2:{ exact E1. }
  2:{ intros j t t' _. apply (phase2_needs (j + Z.to_nat (a - 0)) j). }
  cbn [snd] in E2.
  unfold phase3. cbn [divide].
  replace (n - w - 8) with (Z.of_nat (Z.to_nat (n - w)) - 8) by lia.
  set (c := Z.to_nat (n - w)).
  destruct (for_loop 0 (Z.of_nat c - 8) 8 _ _) as [[i3 st3]|] eqn:E3;
    cbn [mbind option_bind]; [|intros Hx; discriminate Hx].
  apply (for_loop_blocks_partial
           (fun j => touched m0 p q s
                       (8 * j + (Z.to_nat (w - (a + 1) + 1 - 0) + Z.to_nat (a - 0)))
                       (8 * j + Z.to_nat (w - (a + 1) + 1 - 0)))) in E3.
  2:{ destruct E2 as (Hri & Hoi & Hdom & HR & HO). unfold touched.
      cbn [mach ri oi heap Nat.mul Nat.add]. auto. }
  2:{ intros j t t' _ Ht Hb. apply (phase3_block_needs _ _ _ _ _ _ Ht) in Hb.
      apply (touched_eq _ _ _ _ _ Hb); lia. }
  cbn [fst snd] in E3. destruct E3 as [-> E3].
  destruct (for_loop (8 * Z.of_nat (blocks c)) (n - w) 1 (phase3_single p q s) st3)
    as [[i4 st4]|] eqn:E4; cbn [mbind option_bind]; [|intros Hx; discriminate Hx].
  apply (for_loop_count_partial
           (fun j => touched m0 p q s
                       (j + (8 * blocks c
                             + (Z.to_nat (w - (a + 1) + 1 - 0) + Z.to_nat (a - 0))))
                       (j + (8 * blocks c + Z.to_nat (w - (a + 1) + 1 - 0))))) in E4.
  2:{ exact E3. }
  2:{ intros j t t' _. apply phase3_single_needs. }
  cbn [snd] in E4.
  destruct (for_loop 0 a 1 (phase4_body p q s) st4)
    as [[i5 st5]|] eqn:E5; cbn [mbind option_bind]; [|intros Hx; discriminate Hx].
  apply (for_loop_count_partial
           (fun j => touched m0 p q s
                       (Z.to_nat (n - w - 8 * Z.of_nat (blocks c))
                        + (8 * blocks c
                           + (Z.to_nat (w - (a + 1) + 1 - 0) + Z.to_nat (a - 0))))
                       (j + (Z.to_nat (n - w - 8 * Z.of_nat (blocks c))
                             + (8 * blocks c + Z.to_nat (w - (a + 1) + 1 - 0)))))) in E5.
  2:{ exact E4. }
  2:{ intros j t t' _. apply phase4_needs. }
  cbn [snd] in E5. intros _.
  assert (Hb : (8 * blocks c <= c)%nat).
  { unfold blocks. pose proof (Nat.div_mod_eq (c - 1) 8) as E. lia. }
  destruct E5 as (_ & _ & _ & HR & HO). split.
  - intros k Hk. apply HR. lia.
  - intros k Hk. apply HO. lia.
Qed.

End Needs.

Section Returns.
Context {F : Type} `{FloatArith F}.
Implicit Types (m : machine F).

Lemma box1D_returns_in_range m p q n s w :
  0 <= w <= n ->
  is_Some (box1DFloatC p q n s w m) <->
  allocated (heap m) p s n /\ allocated (heap m) q s n.
Proof.
  intros Hw. split.
  - intros [m' Hrun]. destruct (box1D_needs m p q s n w m' Hw Hrun) as [Hin Hout].
    split; intros k Hk.
    + specialize (Hin (Z.to_nat k) ltac:(lia)). rewrite Z2Nat.id in Hin by lia.
      exact Hin.
    + specialize (Hout (Z.to_nat k) ltac:(lia)). rewrite Z2Nat.id in Hout by lia.
      exact Hout.
  - intros [Hin Hout].
    destruct (box1D_result_from_zero m p q s n w Hw Hin Hout) as (m' & Hrun & _).
    rewrite Hrun. eauto.
Qed.

(** X7.  [box1DFloatC] returns exactly when the cells it uses exist:
    the first [max length fullWindowSize] cells of the input sequence
    and of the output sequence for a window of zero or more samples, the
    first [length - fullWindowSize] of both for a negative window.  With
    one of these cells missing the call is an out-of-bounds access; it
    needs no other cell, and input and output may overlap. *)
Theorem box1D_returns_iff m p q n s w :
  let cells := if w <? 0 then n - w else Z.max n w in
  is_Some (box1DFloatC p q n s w m) <->
  allocated (heap m) p s cells /\ allocated (heap m) q s cells.
Proof.
  cbn zeta. destruct (Z.ltb_spec w 0) as [Hneg|Hpos].
  - rewrite box1D_below by lia.
    destruct (Z.le_gt_cases 0 (n - w)) as [Hlen|Hlen].
    + apply box1D_returns_in_range. lia.
    + rewrite box1D_beyond by lia. rewrite box1D_returns_in_range by lia.
      split; intros _; split; intros k Hk; lia.
  - destruct (Z.le_gt_cases w n) as [Hlen|Hlen].
    + rewrite Z.max_l by lia. apply box1D_returns_in_range. lia.
    + rewrite Z.max_r by lia. rewrite box1D_beyond by lia.
      apply box1D_returns_in_range. lia.
Qed.

End Returns.

(** ** One run depends on its samples only *)

Section Samples.
Context {F : Type} `{FloatArith F}.
Implicit Types (m : machine F).

(** X8.  The values a run stores depend on the [length] input samples
    and on nothing else: two runs with the same length and window, on
    sequences at any addresses and with any non-zero strides that hold
    the same samples, return, store the same value at each output
    position and divide by the same divisors, in every arithmetic. *)
Theorem box1D_samples_only m1 m2 p1 q1 s1 p2 q2 s2 n w :
  1 <= w <= n -> s1 <> 0 -> s2 <> 0 ->
  allocated (heap m1) p1 s1 n -> allocated (heap m1) q1 s1 n ->
  disjoint_seqs p1 q1 s1 n ->
  allocated (heap m2) p2 s2 n -> allocated (heap m2) q2 s2 n ->
  disjoint_seqs p2 q2 s2 n ->
  (forall k, 0 <= k < n -> heap m1 !! (p1 + k * s1) = heap m2 !! (p2 + k * s2)) ->
  exists m1' m2' dl,
    box1DFloatC p1 q1 n s1 w m1 = Some m1' /\
    box1DFloatC p2 q2 n s2 w m2 = Some m2' /\
    (forall k, 0 <= k < n ->
       is_Some (heap m1' !! (q1 + k * s1)) /\
       heap m1' !! (q1 + k * s1) = heap m2' !! (q2 + k * s2)) /\
    divisors m1' = divisors m1 ++ dl /\ divisors m2' = divisors m2 ++ dl.
Proof.
  intros Hw Hs1 Hs2 Hin1 Hout1 Hsep1 Hin2 Hout2 Hsep2 Hsame.
  destruct (box1D_heap m1 p1 q1 n s1 w Hw Hin1 Hout1 Hsep1)
    as (m1' & Hrun1 & Hh1 & _ & Hd1 & _).
  destruct (box1D_heap m2 p2 q2 n s2 w Hw Hin2 Hout2 Hsep2)
    as (m2' & Hrun2 & Hh2 & _ & Hd2 & _).
  exists m1', m2'. eexists. split; [exact Hrun1|]. split; [exact Hrun2|].
  split; [|split; [exact Hd1|exact Hd2]].
  intros k Hk. rewrite Hh1, Hh2. rewrite <- (Z2Nat.id k) by lia.
  rewrite !written_lookup by lia. split; [eauto|]. f_equal.
  apply out_value_ext; [lia|lia|]. intros j Hj. unfold sample.
  rewrite Hsame by lia. reflexivity.
Qed.

End Samples.

Lemma box1D_samples_only_witness :
  let m1 := two_arrays 0 (b32_of_Z <$> [1; 2; 3; 4]) 100 (replicate 4 f_zero) in
  let m2 := two_arrays 0 (b32_of_Z <$> [1; 9; 2; 9; 3; 9; 4; 9])
                       200 (replicate 12 f_zero) in
  exists m1' m2' dl,
    box1DFloatC 0 100 4 1 2 m1 = Some m1' /\
    box1DFloatC 0 200 4 2 2 m2 = Some m2' /\
    (forall k, 0 <= k < 4 ->
       is_Some (heap m1' !! (100 + k * 1)) /\
       heap m1' !! (100 + k * 1) = heap m2' !! (200 + k * 2)) /\
    divisors m1' = divisors m1 ++ dl /\ divisors m2' = divisors m2 ++ dl.
Proof.
  intros m1 m2.
  apply (box1D_samples_only m1 m2 0 100 1 0 200 2 4 2);
    [lia | lia | lia | small_alloc | small_alloc | small_disjoint
    | small_alloc | small_alloc | small_disjoint | ].
  intros k Hk. small_range k Hk; reflexivity.
Defined.

(** ** The result of a pass

    Both passes are a loop of [K] runs of [box1DFloatC]: run [k] works
    on the sequence of [n] cells at [input + k * a] with stride [s]
    ([a] is [numCols] and [s] is 1 for the rows, [a] is 1 and [s] is
    [numCols] for the columns). *)

Section PassResult.
Context {F : Type} `{FloatArith F}.
Variables (m : machine F) (input output a s n w K : Z).
Variable body : Z -> machine F -> option (machine F).

Hypothesis body_run :
  forall k t, body k t = box1DFloatC (input + k * a) (output + k * a) n s w t.
Hypothesis window_range : 1 <= w <= n.
Hypothesis alloc_in : forall k i, 0 <= k < K -> 0 <= i < n ->
  is_Some (heap m !! (input + k * a + i * s)).
Hypothesis alloc_out : forall k i, 0 <= k < K -> 0 <= i < n ->
  is_Some (heap m !! (output + k * a + i * s)).
Hypothesis apart : forall k i k' i',
  0 <= k < K -> 0 <= i < n -> 0 <= k' < K -> 0 <= i' < n ->
  input + k * a + i * s <> output + k' * a + i' * s.
Hypothesis distinct : forall k i k' i',
  0 <= k < K -> 0 <= i < n -> 0 <= k' < K -> 0 <= i' < n ->
  output + k * a + i * s = output + k' * a + i' * s -> k = k' /\ i = i'.

Local Abbreviation kb := (8 * blocks (Z.to_nat n - Z.to_nat w))%nat.

Lemma pass_result :
  exists m',
    for_loop 0 K 1 body m = Some (Z.max 0 K, m') /\
    dom (heap m') = dom (heap m) /\
    (forall adr,
       (forall k i, 0 <= k < K -> 0 <= i < n -> adr <> output + k * a + i * s) ->
       heap m' !! adr = heap m !! adr) /\
    (forall k i, 0 <= k < K -> 0 <= i < n ->
       heap m' !! (output + k * a + i * s)
       = Some (out_value kb (sample m (input + k * a) s) (Z.to_nat w) (Z.to_nat n)
                 (Z.to_nat i))) /\
    writes m' = writes m
      ++ concat ((fun k : nat => out_addrs (output + Z.of_nat k * a) s (Z.to_nat n))
                   <$> seq 0 (Z.to_nat K)) /\
    divisors m' = divisors m
      ++ concat (replicate (Z.to_nat K) (div_log kb (Z.to_nat w) (Z.to_nat n))).
Proof.
  destruct (for_loop_count
    (fun (c : nat) t =>
       dom (heap t) = dom (heap m) /\
       (forall adr,
          (forall k i, 0 <= k < Z.of_nat c -> 0 <= i < n ->
             adr <> output + k * a + i * s) ->
          heap t !! adr = heap m !! adr) /\
       (forall k i, 0 <= k < Z.of_nat c -> 0 <= i < n ->
          heap t !! (output + k * a + i * s)
          = Some (out_value kb (sample m (input + k * a) s) (Z.to_nat w) (Z.to_nat n)
                    (Z.to_nat i))) /\
       writes t = writes m
         ++ concat ((fun k : nat => out_addrs (output + Z.of_nat k * a) s (Z.to_nat n))
                      <$> seq 0 c) /\
       divisors t = divisors m
         ++ concat (replicate c (div_log kb (Z.to_nat w) (Z.to_nat n))))
    body 0 K m) as (m' & Hrun & Hdom & Hframe & Hval & Hwr & Hdiv).
  - split; [reflexivity|]. split; [reflexivity|]. split; [intros k i Hk; lia|].
    simpl. rewrite !app_nil_r. auto.
  - intros c t Hc (Hdom & Hframe & Hval & Hwr & Hdiv). rewrite Z.add_0_l, body_run.
    assert (Hck : 0 <= Z.of_nat c < K) by lia.
    assert (Hin : allocated (heap t) (input + Z.of_nat c * a) s n).
    { intros i Hi. apply elem_of_dom. rewrite Hdom. apply elem_of_dom.
      apply alloc_in; assumption. }
    assert (Hout : allocated (heap t) (output + Z.of_nat c * a) s n).
    { intros i Hi. apply elem_of_dom. rewrite Hdom. apply elem_of_dom.
      apply alloc_out; assumption. }
    assert (Hsep : disjoint_seqs (input + Z.of_nat c * a) (output + Z.of_nat c * a) s n).
    { intros i i' Hi Hi'. apply apart; assumption. }
    destruct (box1D_heap t _ _ n s w window_range Hin Hout Hsep)
      as (t' & Hrun & Hh & Hw' & Hd' & Hdom').
    exists t'. split; [exact Hrun|]. split; [congruence|].
    assert (Hsample : forall j, (j < Z.to_nat n)%nat ->
              sample t (input + Z.of_nat c * a) s j
              = sample m (input + Z.of_nat c * a) s j).
    { intros j Hj. unfold sample. rewrite Hframe; [reflexivity|].
      intros k i Hk Hi. apply apart; lia. }
    split; [|split; [|split]].
    + intros adr Hadr. rewrite Hh, written_lookup_other.
      * apply Hframe. intros k i Hk Hi. apply Hadr; lia.
      * intros j Hj. apply Hadr; lia.
    + intros k i Hk Hi. rewrite Hh.
      destruct (decide (k = Z.of_nat c)) as [->|Hne].
      * rewrite <- (Z2Nat.id i) at 1 by lia. apply written_lookup_val; [lia|].
        intros j Hj E.
        destruct (distinct (Z.of_nat c) (Z.of_nat j) (Z.of_nat c) (Z.of_nat (Z.to_nat i)))
          as [_ Eji]; try lia.
        apply Nat2Z.inj in Eji. subst j.
        apply out_value_ext; [lia|lia|exact Hsample].
      * rewrite written_lookup_other; [apply Hval; lia|].
        intros j Hj E.
        destruct (distinct k i (Z.of_nat c) (Z.of_nat j)) as [Ek _]; try lia.
    + rewrite Hw', Hwr, seq_S, fmap_app, concat_app. simpl.
      rewrite app_nil_r, app_assoc. reflexivity.
    + rewrite Hd', Hdiv, replicate_S_end, concat_app. simpl.
      rewrite app_nil_r, app_assoc. reflexivity.
  - exists m'. rewrite Z.sub_0_r in *. split; [exact Hrun|]. split; [exact Hdom|].
    split; [|split; [|split; [exact Hwr|exact Hdiv]]].
    + intros adr Hadr. apply Hframe. intros k i Hk Hi. apply Hadr; lia.
    + intros k i Hk Hi. apply Hval; lia.
Qed.

End PassResult.

Lemma out_addrs_app (q s : Z) (t u : nat) :
  out_addrs q s (t + u) = out_addrs q s t ++ out_addrs (q + Z.of_nat t * s) s u.
Proof.
  unfold out_addrs. rewrite seq_app, fmap_app. f_equal.
  replace (seq (0 + t) u) with (Nat.add t <$> seq 0 u)
    by (rewrite fmap_add_seq; f_equal; lia).
  rewrite <- list_fmap_compose.
  apply list_fmap_ext. intros _ i _. simpl. lia.
Qed.

(** The rows one after the other are the buffer in ascending order. *)
Lemma concat_rows (b : Z) (c r : nat) :
  concat ((fun k : nat => out_addrs (b + Z.of_nat k * Z.of_nat c) 1 c) <$> seq 0 r)
  = out_addrs b 1 (r * c).
Proof.
  induction r as [|r IH]; [reflexivity|].
  rewrite seq_S, fmap_app, concat_app, IH. simpl. rewrite app_nil_r.
  replace (c + r * c)%nat with (r * c + c)%nat by lia.
  rewrite out_addrs_app. do 2 f_equal. lia.
Qed.

Section Passes2D.
Context {F : Type} `{FloatArith F}.
Implicit Types (m : machine F).

Lemma rows_result m input output numRows numCols w :
  1 <= w <= numCols ->
  allocated (heap m) input 1 (numRows * numCols) ->
  allocated (heap m) output 1 (numRows * numCols) ->
  disjoint_seqs input output 1 (numRows * numCols) ->
  exists m',
    boxAlongRowsFloatC input output numRows numCols w m = Some m' /\
    dom (heap m') = dom (heap m) /\
    (forall adr, ~ (output <= adr < output + numRows * numCols) ->
       heap m' !! adr = heap m !! adr) /\
    (forall i j, 0 <= i < numRows -> 0 <= j < numCols ->
       heap m' !! (output + i * numCols + j)
       = Some (out_value (8 * blocks (Z.to_nat numCols - Z.to_nat w))
                 (sample m (input + i * numCols) 1) (Z.to_nat w) (Z.to_nat numCols)
                 (Z.to_nat j))) /\
    writes m' = writes m
      ++ out_addrs output 1 (Z.to_nat numRows * Z.to_nat numCols) /\
    divisors m' = divisors m
      ++ concat (replicate (Z.to_nat numRows)
                   (div_log (8 * blocks (Z.to_nat numCols - Z.to_nat w))
                      (Z.to_nat w) (Z.to_nat numCols))).
Proof.
  intros Hw Hin Hout Hsep. unfold boxAlongRowsFloatC.
  destruct (pass_result m input output numCols 1 numCols w numRows
              (fun i m => box1DFloatC (input + i * numCols) (output + i * numCols)
                            numCols 1 w m))
    as (m' & Hrun & Hdom & Hframe & Hval & Hwr & Hdiv); try assumption.
  - reflexivity.
  - intros k i Hk Hi.
    replace (input + k * numCols + i * 1) with (input + (k * numCols + i) * 1) by lia.
    apply Hin. nia.
  - intros k i Hk Hi.
    replace (output + k * numCols + i * 1) with (output + (k * numCols + i) * 1) by lia.
    apply Hout. nia.
  - intros k i k' i' Hk Hi Hk' Hi' E.
    apply (Hsep (k * numCols + i) (k' * numCols + i')); [nia|nia|lia].
  - intros k i k' i' Hk Hi Hk' Hi' E.
    assert (k = k') by (destruct (Z.lt_trichotomy k k') as [|[|]]; nia). lia.
  - rewrite Hrun. exists m'. split; [reflexivity|]. split; [exact Hdom|].
    split; [|split; [|split; [|exact Hdiv]]].
    + intros adr Hadr. apply Hframe. intros k i Hk Hi. nia.
    + intros i j Hi Hj. rewrite <- (Hval i j Hi Hj). f_equal. lia.
    + rewrite Hwr. f_equal. rewrite <- concat_rows. f_equal.
      apply list_fmap_ext. intros _ k _. f_equal. lia.
Qed.

Lemma cols_result m input output numRows numCols w :
  1 <= w <= numRows ->
  allocated (heap m) input 1 (numRows * numCols) ->
  allocated (heap m) output 1 (numRows * numCols) ->
  disjoint_seqs input output 1 (numRows * numCols) ->
  exists m',
    boxAlongColsFloatC input output numRows numCols w m = Some m' /\
    dom (heap m') = dom (heap m) /\
    (forall adr, ~ (output <= adr < output + numRows * numCols) ->
       heap m' !! adr = heap m !! adr) /\
    (forall i j, 0 <= i < numRows -> 0 <= j < numCols ->
       heap m' !! (output + i * numCols + j)
       = Some (out_value (8 * blocks (Z.to_nat numRows - Z.to_nat w))
                 (sample m (input + j) numCols) (Z.to_nat w) (Z.to_nat numRows)
                 (Z.to_nat i))) /\
    writes m' = writes m
      ++ concat ((fun j : nat => out_addrs (output + Z.of_nat j) numCols
                                   (Z.to_nat numRows))
                   <$> seq 0 (Z.to_nat numCols)) /\
    divisors m' = divisors m
      ++ concat (replicate (Z.to_nat numCols)
                   (div_log (8 * blocks (Z.to_nat numRows - Z.to_nat w))
                      (Z.to_nat w) (Z.to_nat numRows))).
Proof.
  intros Hw Hin Hout Hsep. unfold boxAlongColsFloatC.
  destruct (pass_result m input output 1 numCols numRows w numCols
              (fun j m => box1DFloatC (input + j) (output + j) numRows numCols w m))
    as (m' & Hrun & Hdom & Hframe & Hval & Hwr & Hdiv); try assumption.
  - intros k t. rewrite Z.mul_1_r. reflexivity.
  - intros k i Hk Hi.
    replace (input + k * 1 + i * numCols) with (input + (i * numCols + k) * 1) by lia.
    apply Hin. nia.
  - intros k i Hk Hi.
    replace (output + k * 1 + i * numCols) with (output + (i * numCols + k) * 1) by lia.
    apply Hout. nia.
  - intros k i k' i' Hk Hi Hk' Hi' E.
    apply (Hsep (i * numCols + k) (i' * numCols + k')); [nia|nia|lia].
  - intros k i k' i' Hk Hi Hk' Hi' E.
    assert (i = i') by (destruct (Z.lt_trichotomy i i') as [|[|]]; nia). lia.
  - rewrite Hrun. exists m'. split; [reflexivity|]. split; [exact Hdom|].
    split; [|split; [|split; [|exact Hdiv]]].
    + intros adr Hadr. apply Hframe. intros k i Hk Hi. nia.
    + intros i j Hi Hj. specialize (Hval j i Hj Hi). rewrite Z.mul_1_r in Hval.
      rewrite <- Hval. f_equal. lia.
    + rewrite Hwr. f_equal. f_equal. apply list_fmap_ext. intros _ k _.
      rewrite Z.mul_1_r. reflexivity.
Qed.

End Passes2D.

Section PassTheorems.
Context {F : Type} `{FloatArith F}.
Implicit Types (m : machine F).

(** X9.  The row pass treats the rows independently: on two allocated,
    separate buffers of [numRows * numCols] cells and with
    [1 <= windowSize <= numCols] it returns, row [i] of the output holds
    what the single call [box1DFloatC] on row [i], started from the
    heap before the pass, stores there, and no cell outside the output
    buffer changes (the input buffer keeps its contents). *)
Theorem rows_by_row m input output numRows numCols w :
  1 <= w <= numCols ->
  allocated (heap m) input 1 (numRows * numCols) ->
  allocated (heap m) output 1 (numRows * numCols) ->
  disjoint_seqs input output 1 (numRows * numCols) ->
  exists m',
    boxAlongRowsFloatC input output numRows numCols w m = Some m' /\
    (forall i, 0 <= i < numRows ->
       exists mi,
         box1DFloatC (input + i * numCols) (output + i * numCols) numCols 1 w m
         = Some mi /\
         forall j, 0 <= j < numCols ->
           is_Some (heap m' !! (output + i * numCols + j)) /\
           heap m' !! (output + i * numCols + j)
           = heap mi !! (output + i * numCols + j)) /\
    (forall adr, ~ (output <= adr < output + numRows * numCols) ->
       heap m' !! adr = heap m !! adr).
Proof.
  intros Hw Hin Hout Hsep.
  destruct (rows_result m input output numRows numCols w Hw Hin Hout Hsep)
    as (m' & Hrun & _ & Hframe & Hval & _).
  exists m'. split; [exact Hrun|]. split; [|exact Hframe].
  intros i Hi.
  destruct (box1D_heap m (input + i * numCols) (output + i * numCols) numCols 1 w Hw)
    as (mi & Hruni & Hh & _).
  - apply allocated_row with numRows; assumption.
  - apply allocated_row with numRows; assumption.
  - apply disjoint_row with numRows; assumption.
  - exists mi. split; [exact Hruni|]. intros j Hj.
    rewrite (Hval i j Hi Hj). split; [eauto|]. rewrite Hh.
    replace (output + i * numCols + j)
      with (output + i * numCols + Z.of_nat (Z.to_nat j) * 1) by lia.
    rewrite written_lookup by lia. reflexivity.
Qed.

(** X10.  The column pass treats the columns independently: on two
    allocated, separate buffers and with [1 <= windowSize <= numRows] it
    returns, column [j] of the output holds what the single call
    [box1DFloatC] on column [j] (stride [numCols]), started from the
    heap before the pass, stores there, and no cell outside the output
    buffer changes. *)
Theorem cols_by_col m input output numRows numCols w :
  1 <= w <= numRows ->
  allocated (heap m) input 1 (numRows * numCols) ->
  allocated (heap m) output 1 (numRows * numCols) ->
  disjoint_seqs input output 1 (numRows * numCols) ->
  exists m',
    boxAlongColsFloatC input output numRows numCols w m = Some m' /\
    (forall j, 0 <= j < numCols ->
       exists mj,
         box1DFloatC (input + j) (output + j) numRows numCols w m = Some mj /\
         forall i, 0 <= i < numRows ->
           is_Some (heap m' !! (output + j + i * numCols)) /\
           heap m' !! (output + j + i * numCols)
           = heap mj !! (output + j + i * numCols)) /\
    (forall adr, ~ (output <= adr < output + numRows * numCols) ->
       heap m' !! adr = heap m !! adr).
Proof.
  intros Hw Hin Hout Hsep.
  destruct (cols_result m input output numRows numCols w Hw Hin Hout Hsep)
    as (m' & Hrun & _ & Hframe & Hval & _).
  exists m'. split; [exact Hrun|]. split; [|exact Hframe].
  intros j Hj.
  destruct (box1D_heap m (input + j) (output + j) numRows numCols w Hw)
    as (mj & Hrunj & Hh & _).
  - apply allocated_col; assumption.
  - apply allocated_col; assumption.
  - apply disjoint_col; assumption.
  - exists mj. split; [exact Hrunj|]. intros i Hi.
    replace (output + j + i * numCols) with (output + i * numCols + j) at 1 2 by lia.
    rewrite (Hval i j Hi Hj). split; [eauto|]. rewrite Hh.
    replace (output + j + i * numCols)
      with (output + j + Z.of_nat (Z.to_nat i) * numCols)
      by (rewrite Z2Nat.id by lia; reflexivity).
    rewrite written_lookup by lia. reflexivity.
Qed.

Context {EA : ExactArith F}.

(** X11.  In arithmetic without rounding the row pass leaves at row
    [i], column [j] of the output the mean of the samples of input row
    [i] over the window [j - (w-1)/2, j + w/2] cut to the row. *)
Theorem rows_window_mean m input output numRows numCols w :
  1 <= w <= numCols ->
  allocated (heap m) input 1 (numRows * numCols) ->
  allocated (heap m) output 1 (numRows * numCols) ->
  disjoint_seqs input output 1 (numRows * numCols) ->
  exists m',
    boxAlongRowsFloatC input output numRows numCols w m = Some m' /\
    forall i j, 0 <= i < numRows -> 0 <= j < numCols ->
      heap m' !! (output + i * numCols + j)
      = Some (window_mean (sample m (input + i * numCols) 1)
                (Z.to_nat w) (Z.to_nat numCols) (Z.to_nat j)).
Proof.
  intros Hw Hin Hout Hsep.
  destruct (rows_result m input output numRows numCols w Hw Hin Hout Hsep)
    as (m' & Hrun & _ & _ & Hval & _).
  exists m'. split; [exact Hrun|]. intros i j Hi Hj.
  rewrite (Hval i j Hi Hj), out_value_mean by lia. reflexivity.
Qed.

(** X12.  In arithmetic without rounding the column pass leaves at row
    [i], column [j] of the output the mean of the samples of input
    column [j] over the window [i - (w-1)/2, i + w/2] cut to the
    column. *)
Theorem cols_window_mean m input output numRows numCols w :
  1 <= w <= numRows ->
  allocated (heap m) input 1 (numRows * numCols) ->
  allocated (heap m) output 1 (numRows * numCols) ->
  disjoint_seqs input output 1 (numRows * numCols) ->
  exists m',
    boxAlongColsFloatC input output numRows numCols w m = Some m' /\
    forall i j, 0 <= i < numRows -> 0 <= j < numCols ->
      heap m' !! (output + i * numCols + j)
      = Some (window_mean (sample m (input + j) numCols)
                (Z.to_nat w) (Z.to_nat numRows) (Z.to_nat i)).
Proof.
  intros Hw Hin Hout Hsep.
  destruct (cols_result m input output numRows numCols w Hw Hin Hout Hsep)
    as (m' & Hrun & _ & _ & Hval & _).
  exists m'. split; [exact Hrun|]. intros i j Hi Hj.
  rewrite (Hval i j Hi Hj), out_value_mean by lia. reflexivity.
Qed.

End PassTheorems.

Lemma rows_by_row_witness :
  let m := two_arrays 0 (b32_of_Z <$> [1; 2; 3; 4; 5; 6]) 100 (replicate 6 f_zero) in
  exists m',
    boxAlongRowsFloatC 0 100 2 3 2 m = Some m' /\
    (forall i, 0 <= i < 2 ->
       exists mi,
         box1DFloatC (0 + i * 3) (100 + i * 3) 3 1 2 m = Some mi /\
         forall j, 0 <= j < 3 ->
           is_Some (heap m' !! (100 + i * 3 + j)) /\
           heap m' !! (100 + i * 3 + j) = heap mi !! (100 + i * 3 + j)) /\
    (forall adr, ~ (100 <= adr < 100 + 2 * 3) -> heap m' !! adr = heap m !! adr).
Proof.
  intros m. apply (rows_by_row m 0 100 2 3 2); [lia | | | small_disjoint]; small_alloc.
Defined.

Lemma cols_by_col_witness :
  let m := two_arrays 0 (b32_of_Z <$> [1; 2; 3; 4; 5; 6]) 100 (replicate 6 f_zero) in
  exists m',
    boxAlongColsFloatC 0 100 2 3 2 m = Some m' /\
    (forall j, 0 <= j < 3 ->
       exists mj,
         box1DFloatC (0 + j) (100 + j) 2 3 2 m = Some mj /\
         forall i, 0 <= i < 2 ->
           is_Some (heap m' !! (100 + j + i * 3)) /\
           heap m' !! (100 + j + i * 3) = heap mj !! (100 + j + i * 3)) /\
    (forall adr, ~ (100 <= adr < 100 + 2 * 3) -> heap m' !! adr = heap m !! adr).
Proof.
  intros m. apply (cols_by_col m 0 100 2 3 2); [lia | | | small_disjoint]; small_alloc.
Defined.

Lemma rows_window_mean_witness :
  let m := two_arrays 0 (rat_of_Z <$> [1; 2; 3; 4; 5; 6]) 100 (replicate 6 f_zero) in
  exists m',
    boxAlongRowsFloatC 0 100 2 3 2 m = Some m' /\
    forall i j, 0 <= i < 2 -> 0 <= j < 3 ->
      heap m' !! (100 + i * 3 + j)
      = Some (window_mean (sample m (0 + i * 3) 1)
                (Z.to_nat 2) (Z.to_nat 3) (Z.to_nat j)).
Proof.
  intros m.
  apply (rows_window_mean m 0 100 2 3 2); [lia | | | small_disjoint]; small_alloc.
Defined.

Lemma cols_window_mean_witness :
  let m := two_arrays 0 (rat_of_Z <$> [1; 2; 3; 4; 5; 6]) 100 (replicate 6 f_zero) in
  exists m',
    boxAlongColsFloatC 0 100 2 3 2 m = Some m' /\
    forall i j, 0 <= i < 2 -> 0 <= j < 3 ->
      heap m' !! (100 + i * 3 + j)
      = Some (window_mean (sample m (0 + j) 3)
                (Z.to_nat 2) (Z.to_nat 2) (Z.to_nat i)).
Proof.
  intros m.
  apply (cols_window_mean m 0 100 2 3 2); [lia | | | small_disjoint]; small_alloc.
Defined.

(** ** The order of the stores of a pass *)

Lemma elem_of_cols (b : Z) (R C c : nat) (x : Z) :
  x ∈ concat ((fun j : nat => out_addrs (b + Z.of_nat j) (Z.of_nat C) R) <$> seq 0 c)
  <-> exists j i : nat, (j < c)%nat /\ (i < R)%nat /\
        x = b + Z.of_nat j + Z.of_nat i * Z.of_nat C.
Proof.
  rewrite list_elem_of_In, in_concat. split.
  - intros (l & Hl & Hx). apply list_elem_of_In, list_elem_of_fmap in Hl.
    destruct Hl as (j & -> & Hj). apply elem_of_seq in Hj.
    apply list_elem_of_In, elem_of_out_addrs in Hx. destruct Hx as (i & Hi & ->).
    exists j, i. split; [lia|]. split; [exact Hi|reflexivity].
  - intros (j & i & Hj & Hi & ->).
    exists (out_addrs (b + Z.of_nat j) (Z.of_nat C) R). split.
    + apply list_elem_of_In, list_elem_of_fmap. exists j. split; [reflexivity|].
      apply elem_of_seq. lia.
    + apply list_elem_of_In, elem_of_out_addrs. exists i. split; [exact Hi|reflexivity].
Qed.

Lemma NoDup_cols (b : Z) (R C c : nat) :
  (c <= C)%nat ->
  NoDup (concat ((fun j : nat => out_addrs (b + Z.of_nat j) (Z.of_nat C) R) <$> seq 0 c)).
Proof.
  induction c as [|c IH]; intros Hc; [apply NoDup_nil_2|].
  rewrite seq_S, fmap_app, concat_app. simpl. rewrite app_nil_r.
  apply NoDup_app. split; [apply IH; lia|]. split.
  - intros x Hx Hx'. apply elem_of_cols in Hx. destruct Hx as (j & i & Hj & Hi & ->).
    apply elem_of_out_addrs in Hx'. destruct Hx' as (i' & Hi' & E).
    assert (Z.of_nat i = Z.of_nat i')
      by (destruct (Z.lt_trichotomy (Z.of_nat i) (Z.of_nat i')) as [|[|]]; nia).
    lia.
  - unfold out_addrs. apply NoDup_fmap_2_strong; [|apply NoDup_seq].
    intros i i' _ _ E. nia.
Qed.

Section StoreOrder.
Context {F : Type} `{FloatArith F}.
Implicit Types (m : machine F).

(** X13.  Each pass stores to every cell of the output buffer exactly
    once and to no other cell: the row pass in ascending address order,
    the column pass column by column, that is with stride [numCols]
    inside a column; the two lists of stores are permutations of each
    other. *)
Theorem passes_store_order m input output numRows numCols wr wc :
  1 <= wr <= numCols -> 1 <= wc <= numRows ->
  allocated (heap m) input 1 (numRows * numCols) ->
  allocated (heap m) output 1 (numRows * numCols) ->
  disjoint_seqs input output 1 (numRows * numCols) ->
  let by_rows :=
    (fun k : nat => output + Z.of_nat k) <$> seq 0 (Z.to_nat (numRows * numCols)) in
  let by_cols :=
    concat ((fun j : nat =>
               (fun i : nat => output + Z.of_nat j + Z.of_nat i * numCols)
                 <$> seq 0 (Z.to_nat numRows))
              <$> seq 0 (Z.to_nat numCols)) in
  exists mr mc,
    boxAlongRowsFloatC input output numRows numCols wr m = Some mr /\
    boxAlongColsFloatC input output numRows numCols wc m = Some mc /\
    writes mr = writes m ++ by_rows /\
    writes mc = writes m ++ by_cols /\
    NoDup by_rows /\ by_cols ≡ₚ by_rows.
Proof.
  intros Hwr Hwc Hin Hout Hsep by_rows by_cols.
  destruct (rows_result m input output numRows numCols wr Hwr Hin Hout Hsep)
    as (mr & Hrunr & _ & _ & _ & Hr & _).
  destruct (cols_result m input output numRows numCols wc Hwc Hin Hout Hsep)
    as (mc & Hrunc & _ & _ & _ & Hc & _).
  assert (Er : by_rows = out_addrs output 1 (Z.to_nat numRows * Z.to_nat numCols)).
  { subst by_rows. unfold out_addrs. rewrite Z2Nat.inj_mul by lia.
    apply list_fmap_ext. intros _ k _. lia. }
  assert (Ec : by_cols
               = concat ((fun j : nat =>
                            out_addrs (output + Z.of_nat j)
                              (Z.of_nat (Z.to_nat numCols)) (Z.to_nat numRows))
                           <$> seq 0 (Z.to_nat numCols))).
  { subst by_cols. rewrite Z2Nat.id by lia. reflexivity. }
  exists mr, mc. split; [exact Hrunr|]. split; [exact Hrunc|].
  split; [rewrite Er; exact Hr|].
  split; [subst by_cols; exact Hc|].
  assert (Nr : NoDup by_rows) by (rewrite Er; apply NoDup_out_addrs; lia).
  split; [exact Nr|].
  apply NoDup_Permutation; [rewrite Ec; apply NoDup_cols; lia|exact Nr|].
  intros x. rewrite Ec, elem_of_cols, Er, elem_of_out_addrs. split.
  - intros (j & i & Hj & Hi & ->).
    exists (i * Z.to_nat numCols + j)%nat. split; [nia|]. lia.
  - intros (k & Hk & ->).
    exists (k mod Z.to_nat numCols)%nat, (k / Z.to_nat numCols)%nat.
    pose proof (Nat.div_mod_eq k (Z.to_nat numCols)) as E.
    pose proof (Nat.mod_upper_bound k (Z.to_nat numCols) ltac:(lia)) as Hm.
    split; [exact Hm|]. split; [|nia].
    apply Nat.Div0.div_lt_upper_bound. lia.
Qed.

End StoreOrder.

Lemma passes_store_order_witness :
  let m := two_arrays 0 (b32_of_Z <$> [1; 2; 3; 4; 5; 6]) 100 (replicate 6 f_zero) in
  let by_rows := (fun k : nat => 100 + Z.of_nat k) <$> seq 0 (Z.to_nat (2 * 3)) in
  let by_cols :=
    concat ((fun j : nat =>
               (fun i : nat => 100 + Z.of_nat j + Z.of_nat i * 3) <$> seq 0 (Z.to_nat 2))
              <$> seq 0 (Z.to_nat 3)) in
  exists mr mc,
    boxAlongRowsFloatC 0 100 2 3 2 m = Some mr /\
    boxAlongColsFloatC 0 100 2 3 2 m = Some mc /\
    writes mr = writes m ++ by_rows /\
    writes mc = writes m ++ by_cols /\
    NoDup by_rows /\ by_cols ≡ₚ by_rows.
Proof.
  intros m.
  apply (passes_store_order m 0 100 2 3 2 2); [lia | lia | | | small_disjoint];
    small_alloc.
Defined.

(** ** The column pass is the row pass of the transposed image *)

Section Transpose.
Context {F : Type} `{FloatArith F}.
Implicit Types (m : machine F).

(** X14.  The column pass on an image of [numRows * numCols] cells and
    the row pass on its transpose (an image of [numCols * numRows]
    cells anywhere in memory) return and store the same values, bit for
    bit in every arithmetic: cell [(i, j)] of the one output holds what
    cell [(j, i)] of the other holds. *)
Theorem cols_rows_transposed m1 m2 in1 out1 in2 out2 numRows numCols w :
  1 <= w <= numRows ->
  allocated (heap m1) in1 1 (numRows * numCols) ->
  allocated (heap m1) out1 1 (numRows * numCols) ->
  disjoint_seqs in1 out1 1 (numRows * numCols) ->
  allocated (heap m2) in2 1 (numCols * numRows) ->
  allocated (heap m2) out2 1 (numCols * numRows) ->
  disjoint_seqs in2 out2 1 (numCols * numRows) ->
  (forall i j, 0 <= i < numRows -> 0 <= j < numCols ->
     heap m1 !! (in1 + i * numCols + j) = heap m2 !! (in2 + j * numRows + i)) ->
  exists m1' m2',
    boxAlongColsFloatC in1 out1 numRows numCols w m1 = Some m1' /\
    boxAlongRowsFloatC in2 out2 numCols numRows w m2 = Some m2' /\
    forall i j, 0 <= i < numRows -> 0 <= j < numCols ->
      is_Some (heap m1' !! (out1 + i * numCols + j)) /\
      heap m1' !! (out1 + i * numCols + j) = heap m2' !! (out2 + j * numRows + i).
Proof.
  intros Hw Hin1 Hout1 Hsep1 Hin2 Hout2 Hsep2 Hsame.
  destruct (cols_result m1 in1 out1 numRows numCols w Hw Hin1 Hout1 Hsep1)
    as (m1' & Hrun1 & _ & _ & Hval1 & _).
  destruct (rows_result m2 in2 out2 numCols numRows w Hw Hin2 Hout2 Hsep2)
    as (m2' & Hrun2 & _ & _ & Hval2 & _).
  exists m1', m2'. split; [exact Hrun1|]. split; [exact Hrun2|].
  intros i j Hi Hj. rewrite (Hval1 i j Hi Hj), (Hval2 j i Hj Hi).
  split; [eauto|]. f_equal. apply out_value_ext; [lia|lia|].
  intros k Hk. unfold sample.
  replace (in1 + j + Z.of_nat k * numCols) with (in1 + Z.of_nat k * numCols + j) by lia.
  rewrite Hsame by lia. do 2 f_equal. lia.
Qed.

End Transpose.

Lemma cols_rows_transposed_witness :
  let m1 := two_arrays 0 (b32_of_Z <$> [1; 2; 3; 4; 5; 6]) 100 (replicate 6 f_zero) in
  let m2 := two_arrays 0 (b32_of_Z <$> [1; 4; 2; 5; 3; 6]) 100 (replicate 6 f_zero) in
  exists m1' m2',
    boxAlongColsFloatC 0 100 2 3 2 m1 = Some m1' /\
    boxAlongRowsFloatC 0 100 3 2 2 m2 = Some m2' /\
    forall i j, 0 <= i < 2 -> 0 <= j < 3 ->
      is_Some (heap m1' !! (100 + i * 3 + j)) /\
      heap m1' !! (100 + i * 3 + j) = heap m2' !! (100 + j * 2 + i).
Proof.
  intros m1 m2.
  apply (cols_rows_transposed m1 m2 0 100 0 100 2 3 2);
    [lia | small_alloc | small_alloc | small_disjoint
    | small_alloc | small_alloc | small_disjoint | ].
  intros i j Hi Hj.
  assert (Hc : (i = 0 \/ i = 1) /\ (j = 0 \/ j = 1 \/ j = 2)) by lia.
  destruct Hc as [[-> | ->] [-> | [-> | ->]]]; reflexivity.
Defined.

(** ** The iterated filter on two buffers *)

Section Repetition.
Context {F : Type} `{FloatArith F}.
Implicit Types (m : machine F).

Lemma disjoint_seqs_sym a b s n : disjoint_seqs a b s n -> disjoint_seqs b a s n.
Proof. intros Hd j k Hj Hk E. apply (Hd k j Hk Hj). symmetry. exact E. Qed.

Lemma length_cols (b st : Z) (R c : nat) :
  length (concat ((fun j : nat => out_addrs (b + Z.of_nat j) st R) <$> seq 0 c))
  = (c * R)%nat.
Proof.
  induction c as [|c IH]; [reflexivity|].
  rewrite seq_S, fmap_app, concat_app, length_app, IH. simpl.
  rewrite app_nil_r, length_out_addrs. lia.
Qed.

(** One repetition: the row pass fills buffer B from buffer A, the
    column pass then fills buffer A from buffer B. *)
Lemma repetition_result m bufferA bufferB numRows numCols wr wc :
  1 <= wr <= numCols -> 1 <= wc <= numRows ->
  allocated (heap m) bufferA 1 (numRows * numCols) ->
  allocated (heap m) bufferB 1 (numRows * numCols) ->
  disjoint_seqs bufferA bufferB 1 (numRows * numCols) ->
  exists m',
    repetition bufferA bufferB numRows numCols wr wc m = Some m' /\
    dom (heap m') = dom (heap m) /\
    (forall adr, ~ (bufferA <= adr < bufferA + numRows * numCols) ->
                 ~ (bufferB <= adr < bufferB + numRows * numCols) ->
       heap m' !! adr = heap m !! adr) /\
    (forall i j, 0 <= i < numRows -> 0 <= j < numCols ->
       heap m' !! (bufferB + i * numCols + j)
       = Some (out_value (8 * blocks (Z.to_nat numCols - Z.to_nat wr))
                 (sample m (bufferA + i * numCols) 1) (Z.to_nat wr) (Z.to_nat numCols)
                 (Z.to_nat j))) /\
    (forall i j, 0 <= i < numRows -> 0 <= j < numCols ->
       heap m' !! (bufferA + i * numCols + j)
       = Some (out_value (8 * blocks (Z.to_nat numRows - Z.to_nat wc))
                 (fun i' : nat =>
                    out_value (8 * blocks (Z.to_nat numCols - Z.to_nat wr))
                      (sample m (bufferA + Z.of_nat i' * numCols) 1)
                      (Z.to_nat wr) (Z.to_nat numCols) (Z.to_nat j))
                 (Z.to_nat wc) (Z.to_nat numRows) (Z.to_nat i))) /\
    length (writes m')
    = (length (writes m) + 2 * (Z.to_nat numRows * Z.to_nat numCols))%nat.
Proof.
  intros Hwr Hwc HA HB Hsep. unfold repetition.
  destruct (rows_result m bufferA bufferB numRows numCols wr Hwr HA HB Hsep)
    as (m1 & -> & Hdom1 & Hframe1 & Hval1 & Hw1 & _).
  cbn [mbind option_bind].
  destruct (cols_result m1 bufferB bufferA numRows numCols wc Hwc)
    as (m2 & Hrun2 & Hdom2 & Hframe2 & Hval2 & Hw2 & _).
  { apply (allocated_dom (heap m)); assumption. }
  { apply (allocated_dom (heap m)); assumption. }
  { apply disjoint_seqs_sym, Hsep. }
  exists m2. split; [exact Hrun2|]. split; [congruence|].
  split; [|split; [|split]].
  - intros adr HnA HnB. rewrite Hframe2, Hframe1 by assumption. reflexivity.
  - intros i j Hi Hj. rewrite Hframe2; [apply Hval1; assumption|].
    intros Hin. apply (Hsep (bufferB + i * numCols + j - bufferA) (i * numCols + j));
      [lia|nia|lia].
  - intros i j Hi Hj. rewrite (Hval2 i j Hi Hj). f_equal.
    apply out_value_ext; [lia|lia|]. intros k Hk. unfold sample.
    replace (bufferB + j + Z.of_nat k * numCols)
      with (bufferB + Z.of_nat k * numCols + j) by lia.
    rewrite Hval1 by lia. reflexivity.
  - rewrite Hw2, Hw1, !length_app, length_cols, length_out_addrs. lia.
Qed.

(** X15.  On two allocated, separate buffers and with windows in range
    the filter returns for every [nreps]; it changes no cell outside the
    two buffers, keeps the set of allocated cells, and performs
    [2 * numRows * numCols] stores per repetition. *)
Theorem jarosz_frame m bufferA bufferB numRows numCols wr wc nreps :
  1 <= wr <= numCols -> 1 <= wc <= numRows ->
  allocated (heap m) bufferA 1 (numRows * numCols) ->
  allocated (heap m) bufferB 1 (numRows * numCols) ->
  disjoint_seqs bufferA bufferB 1 (numRows * numCols) ->
  exists m',
    jaroszFilterFloat bufferA bufferB numRows numCols wr wc nreps m = Some m' /\
    dom (heap m') = dom (heap m) /\
    (forall adr, ~ (bufferA <= adr < bufferA + numRows * numCols) ->
                 ~ (bufferB <= adr < bufferB + numRows * numCols) ->
       heap m' !! adr = heap m !! adr) /\
    Z.of_nat (length (writes m'))
    = Z.of_nat (length (writes m)) + Z.max 0 nreps * (2 * (numRows * numCols)).
Proof.
  intros Hwr Hwc HA HB Hsep. rewrite jarosz_repeat.
  replace (Z.max 0 nreps) with (Z.of_nat (Z.to_nat nreps)) by lia.
  generalize (Z.to_nat nreps) as k. intros k.
  induction k as [|k IH].
  - exists m. split; [reflexivity|]. split; [reflexivity|].
    split; [reflexivity|]. lia.
  - destruct IH as (mk & Hrun & Hdom & Hframe & Hlen).
    rewrite repeat_opt_snoc, Hrun. cbn [mbind option_bind].
    destruct (repetition_result mk bufferA bufferB numRows numCols wr wc Hwr Hwc)
      as (m' & Hrun' & Hdom' & Hframe' & _ & _ & Hlen').
    { apply (allocated_dom (heap m)); assumption. }
    { apply (allocated_dom (heap m)); assumption. }
    { exact Hsep. }
    exists m'. split; [exact Hrun'|]. split; [congruence|]. split.
    + intros adr HnA HnB. rewrite Hframe', Hframe by assumption. reflexivity.
    + rewrite Hlen'. nia.
Qed.

Context {EA : ExactArith F}.

(** X16.  In arithmetic without rounding one repetition is the
    separable two-dimensional box mean: cell [(i, j)] of buffer A ends
    as the mean, over the window of row index [i], of the means over
    the window of column index [j] of the rows of the image, and buffer
    B holds those row means. *)
Theorem jarosz_one_repetition m bufferA bufferB numRows numCols wr wc :
  1 <= wr <= numCols -> 1 <= wc <= numRows ->
  allocated (heap m) bufferA 1 (numRows * numCols) ->
  allocated (heap m) bufferB 1 (numRows * numCols) ->
  disjoint_seqs bufferA bufferB 1 (numRows * numCols) ->
  let row_mean (i' j : nat) :=
    window_mean (sample m (bufferA + Z.of_nat i' * numCols) 1)
      (Z.to_nat wr) (Z.to_nat numCols) j in
  exists m',
    jaroszFilterFloat bufferA bufferB numRows numCols wr wc 1 m = Some m' /\
    forall i j, 0 <= i < numRows -> 0 <= j < numCols ->
      heap m' !! (bufferB + i * numCols + j)
      = Some (row_mean (Z.to_nat i) (Z.to_nat j)) /\
      heap m' !! (bufferA + i * numCols + j)
      = Some (window_mean (fun i' => row_mean i' (Z.to_nat j))
                (Z.to_nat wc) (Z.to_nat numRows) (Z.to_nat i)).
Proof.
  intros Hwr Hwc HA HB Hsep row_mean. rewrite jarosz_repeat.
  change (Z.to_nat 1) with 1%nat. cbn [repeat_opt].
  destruct (repetition_result m bufferA bufferB numRows numCols wr wc Hwr Hwc HA HB Hsep)
    as (m' & -> & _ & _ & HvB & HvA & _).
  cbn [mbind option_bind]. exists m'. split; [reflexivity|].
  intros i j Hi Hj. split.
  - rewrite (HvB i j Hi Hj), out_value_mean by lia. subst row_mean. cbn beta.
    rewrite Z2Nat.id by lia. reflexivity.
  - rewrite (HvA i j Hi Hj), out_value_mean by lia. f_equal.
    unfold window_mean, mean_of. f_equal.
    generalize (Nat.min (Z.to_nat numRows) (S (Z.to_nat i + Z.to_nat wc / 2))
                - (Z.to_nat i - (Z.to_nat wc - 1) / 2))%nat as len.
    generalize (Z.to_nat i - (Z.to_nat wc - 1) / 2)%nat as lo.
    intros lo len. induction len as [|len IH]; [reflexivity|].
    cbn [range_sum]. rewrite IH. f_equal. subst row_mean. cbn beta.
    apply out_value_mean; [lia|]. lia.
Qed.

End Repetition.

Section ConstantImage.
Context {F : Type} `{FloatArith F} {EA : ExactArith F}.
Implicit Types (m : machine F).

Lemma window_mean_const (x : nat -> F) c w n i :
  (i < n)%nat -> (forall k, (k < n)%nat -> x k = c) -> window_mean x w n i = c.
Proof.
  intros Hi Hc. unfold window_mean. apply mean_of_const; [lia|].
  intros k Hk. apply Hc. lia.
Qed.

Lemma repetition_constant m bufferA bufferB numRows numCols wr wc c :
  1 <= wr <= numCols -> 1 <= wc <= numRows ->
  (forall i j, 0 <= i < numRows -> 0 <= j < numCols ->
     heap m !! (bufferA + i * numCols + j) = Some c) ->
  allocated (heap m) bufferB 1 (numRows * numCols) ->
  disjoint_seqs bufferA bufferB 1 (numRows * numCols) ->
  exists m',
    repetition bufferA bufferB numRows numCols wr wc m = Some m' /\
    dom (heap m') = dom (heap m) /\
    forall i j, 0 <= i < numRows -> 0 <= j < numCols ->
      heap m' !! (bufferA + i * numCols + j) = Some c /\
      heap m' !! (bufferB + i * numCols + j) = Some c.
Proof.
  intros Hwr Hwc Hc HB Hsep.
  assert (HA : allocated (heap m) bufferA 1 (numRows * numCols)).
  { intros k Hk.
    replace (bufferA + k * 1)
      with (bufferA + (k / numCols) * numCols + k mod numCols)
      by (pose proof (Z.div_mod k numCols ltac:(lia)); lia).
    rewrite Hc; [eauto| |apply Z.mod_pos_bound; lia].
    split; [apply Z.div_pos; lia|apply Z.div_lt_upper_bound; lia]. }
  destruct (repetition_result m bufferA bufferB numRows numCols wr wc Hwr Hwc HA HB Hsep)
    as (m' & Hrun & Hdom & _ & HvB & HvA & _).
  exists m'. split; [exact Hrun|]. split; [exact Hdom|].
  assert (Hrow : forall (i' : nat) (j : nat),
            (i' < Z.to_nat numRows)%nat -> (j < Z.to_nat numCols)%nat ->
            out_value (8 * blocks (Z.to_nat numCols - Z.to_nat wr))
              (sample m (bufferA + Z.of_nat i' * numCols) 1)
              (Z.to_nat wr) (Z.to_nat numCols) j = c).
  { intros i' j Hi' Hj. rewrite out_value_mean by lia.
    apply window_mean_const; [exact Hj|]. intros k Hk. unfold sample.
    replace (bufferA + Z.of_nat i' * numCols + Z.of_nat k * 1)
      with (bufferA + Z.of_nat i' * numCols + Z.of_nat k) by lia.
    rewrite Hc by lia. reflexivity. }
  intros i j Hi Hj. split.
  - rewrite (HvA i j Hi Hj), out_value_mean by lia. f_equal.
    apply window_mean_const; [lia|]. intros k Hk. apply Hrow; lia.
  - rewrite (HvB i j Hi Hj). f_equal. rewrite <- (Z2Nat.id i) by lia.
    apply Hrow; lia.
Qed.

(** X17.  In arithmetic without rounding the filter keeps a constant
    image: when every cell of buffer A holds [c], then after any number
    of repetitions every cell of buffer A holds [c], and after at least
    one so does every cell of buffer B. *)
Theorem jarosz_constant_image m bufferA bufferB numRows numCols wr wc nreps c :
  1 <= wr <= numCols -> 1 <= wc <= numRows ->
  (forall i j, 0 <= i < numRows -> 0 <= j < numCols ->
     heap m !! (bufferA + i * numCols + j) = Some c) ->
  allocated (heap m) bufferB 1 (numRows * numCols) ->
  disjoint_seqs bufferA bufferB 1 (numRows * numCols) ->
  exists m',
    jaroszFilterFloat bufferA bufferB numRows numCols wr wc nreps m = Some m' /\
    forall i j, 0 <= i < numRows -> 0 <= j < numCols ->
      heap m' !! (bufferA + i * numCols + j) = Some c /\
      (1 <= nreps -> heap m' !! (bufferB + i * numCols + j) = Some c).
Proof.
  intros Hwr Hwc Hc HB Hsep. rewrite jarosz_repeat.
  assert (Hk : exists m',
            repeat_opt (Z.to_nat nreps)
              (repetition bufferA bufferB numRows numCols wr wc) m = Some m' /\
            dom (heap m') = dom (heap m) /\
            forall i j, 0 <= i < numRows -> 0 <= j < numCols ->
              heap m' !! (bufferA + i * numCols + j) = Some c /\
              ((1 <= Z.to_nat nreps)%nat ->
               heap m' !! (bufferB + i * numCols + j) = Some c)).
  { generalize (Z.to_nat nreps) as k. intros k. induction k as [|k IH].
    - exists m. split; [reflexivity|]. split; [reflexivity|].
      intros i j Hi Hj. split; [apply Hc; assumption|lia].
    - destruct IH as (mk & Hrun & Hdom & Hval).
      rewrite repeat_opt_snoc, Hrun. cbn [mbind option_bind].
      destruct (repetition_constant mk bufferA bufferB numRows numCols wr wc c Hwr Hwc)
        as (m' & Hrun' & Hdom' & Hval').
      { intros i j Hi Hj. apply Hval; assumption. }
      { apply (allocated_dom (heap m)); assumption. }
      { exact Hsep. }
      exists m'. split; [exact Hrun'|]. split; [congruence|].
      intros i j Hi Hj. destruct (Hval' i j Hi Hj) as [Ha Hb]. auto. }
  destruct Hk as (m' & Hrun & _ & Hval). exists m'. split; [exact Hrun|].
  intros i j Hi Hj. destruct (Hval i j Hi Hj) as [Ha Hb].
  split; [exact Ha|]. intros Hn. apply Hb. lia.
Qed.

End ConstantImage.

Lemma jarosz_frame_witness :
  let m := two_arrays 0 (b32_of_Z <$> [1; 2; 3; 4; 5; 6]) 100 (replicate 6 f_zero) in
  exists m',
    jaroszFilterFloat 0 100 2 3 2 2 2 m = Some m' /\
    dom (heap m') = dom (heap m) /\
    (forall adr, ~ (0 <= adr < 0 + 2 * 3) -> ~ (100 <= adr < 100 + 2 * 3) ->
       heap m' !! adr = heap m !! adr) /\
    Z.of_nat (length (writes m'))
    = Z.of_nat (length (writes m)) + Z.max 0 2 * (2 * (2 * 3)).
Proof.
  intros m.
  apply (jarosz_frame m 0 100 2 3 2 2 2); [lia | lia | | | small_disjoint]; small_alloc.
Defined.

Lemma jarosz_one_repetition_witness :
  let m := two_arrays 0 (rat_of_Z <$> [1; 2; 3; 4; 5; 6]) 100 (replicate 6 f_zero) in
  let row_mean (i' j : nat) :=
    window_mean (sample m (0 + Z.of_nat i' * 3) 1) (Z.to_nat 2) (Z.to_nat 3) j in
  exists m',
    jaroszFilterFloat 0 100 2 3 2 2 1 m = Some m' /\
    forall i j, 0 <= i < 2 -> 0 <= j < 3 ->
      heap m' !! (100 + i * 3 + j) = Some (row_mean (Z.to_nat i) (Z.to_nat j)) /\
      heap m' !! (0 + i * 3 + j)
      = Some (window_mean (fun i' => row_mean i' (Z.to_nat j))
                (Z.to_nat 2) (Z.to_nat 2) (Z.to_nat i)).
Proof.
  intros m.
  apply (jarosz_one_repetition m 0 100 2 3 2 2); [lia | lia | | | small_disjoint];
    small_alloc.
Defined.

Lemma jarosz_constant_image_witness :
  let m := two_arrays 0 (replicate 6 (rat_of_Z 5)) 100 (replicate 6 f_zero) in
  exists m',
    jaroszFilterFloat 0 100 2 3 2 2 3 m = Some m' /\
    forall i j, 0 <= i < 2 -> 0 <= j < 3 ->
      heap m' !! (0 + i * 3 + j) = Some (rat_of_Z 5) /\
      (1 <= 3 -> heap m' !! (100 + i * 3 + j) = Some (rat_of_Z 5)).
Proof.
  intros m.
  apply (jarosz_constant_image m 0 100 2 3 2 2 3 (rat_of_Z 5));
    [lia | lia | | small_alloc | small_disjoint].
  intros i j Hi Hj.
  assert (Hc : (i = 0 \/ i = 1) /\ (j = 0 \/ j = 1 \/ j = 2)) by lia.
  destruct Hc as [[-> | ->] [-> | [-> | ->]]]; reflexivity.
Defined.

(** ** No look-ahead beyond the window *)

Section LookAhead.
Context {F : Type} `{FloatArith F}.
Implicit Types (m : machine F) (x y : nat -> F).

Lemma out_value_prefix_ext kb x y w n i :
  (1 <= w <= n)%nat -> (i < n)%nat ->
  (forall k, (k < n)%nat -> (k <= i + half_window w)%nat -> x k = y k) ->
  out_value kb x w n i = out_value kb y w n i.
Proof.
  intros Hw Hi E. unfold out_value. cbn zeta.
  destruct (half_window_facts w) as (_ & _ & Ha & Ha').
  set (a := half_window w) in *. specialize (Ha' ltac:(lia)).
  destruct (Nat.ltb_spec i (w - a)) as [H1|H1].
  - rewrite (prefix_sum_ext x y); [reflexivity|]. intros k Hk. apply E; lia.
  - destruct (Nat.ltb_spec i (n - a)) as [H2|H2].
    + rewrite (slide_sum_ext x y); [reflexivity|]. intros k Hk. apply E; lia.
    + rewrite (shrink_sum_ext x y) by (try assumption; try lia; intros k Hk; apply E; lia).
      reflexivity.
Qed.

(** X18.  The value stored at output position [i] depends on no sample
    to the right of the window: two runs on heaps with the same cells
    whose input samples agree at the indices [0 .. i + w/2] store the
    same value at position [i], in every arithmetic, whatever the
    samples to the right of [i + w/2] are. *)
Theorem box1D_no_lookahead m1 m2 p q n s w i :
  1 <= w <= n -> s <> 0 -> 0 <= i < n ->
  allocated (heap m1) p s n -> allocated (heap m1) q s n ->
  dom (heap m2) = dom (heap m1) ->
  disjoint_seqs p q s n ->
  (forall k, 0 <= k < n -> k <= i + w / 2 ->
     heap m1 !! (p + k * s) = heap m2 !! (p + k * s)) ->
  exists m1' m2',
    box1DFloatC p q n s w m1 = Some m1' /\
    box1DFloatC p q n s w m2 = Some m2' /\
    is_Some (heap m1' !! (q + i * s)) /\
    heap m1' !! (q + i * s) = heap m2' !! (q + i * s).
Proof.
  intros Hw Hs Hi Hin Hout Hdom Hsep Hsame.
  destruct (box1D_heap m1 p q n s w Hw Hin Hout Hsep) as (m1' & Hrun1 & Hh1 & _).
  destruct (box1D_heap m2 p q n s w Hw) as (m2' & Hrun2 & Hh2 & _);
    try (apply (allocated_dom (heap m1)); assumption); try assumption.
  exists m1', m2'. split; [exact Hrun1|]. split; [exact Hrun2|].
  rewrite Hh1, Hh2. rewrite <- (Z2Nat.id i) by lia.
  rewrite !written_lookup by lia. split; [eauto|]. f_equal.
  apply out_value_prefix_ext; [lia|lia|]. intros k Hk Hle. unfold sample.
  rewrite Hsame; [reflexivity|lia|].
  unfold half_window in Hle.
  assert (E : Z.of_nat (Z.to_nat w / 2) = w / 2)
    by (rewrite Nat2Z.inj_div, Z2Nat.id by lia; reflexivity).
  lia.
Qed.

End LookAhead.

Lemma box1D_no_lookahead_witness :
  let m1 := two_arrays 0 (b32_of_Z <$> [1; 2; 3; 4; 5; 6]) 100 (replicate 6 f_zero) in
  let m2 := two_arrays 0 (b32_of_Z <$> [1; 2; 3; 9; 9; 9]) 100 (replicate 6 f_zero) in
  exists m1' m2',
    box1DFloatC 0 100 6 1 3 m1 = Some m1' /\
    box1DFloatC 0 100 6 1 3 m2 = Some m2' /\
    is_Some (heap m1' !! (100 + 1 * 1)) /\
    heap m1' !! (100 + 1 * 1) = heap m2' !! (100 + 1 * 1).
Proof.
  intros m1 m2.
  apply (box1D_no_lookahead m1 m2 0 100 6 1 3 1);
    [lia | lia | lia | small_alloc | small_alloc | reflexivity | small_disjoint | ].
  intros k Hk Hle. change (3 / 2) with 1 in Hle.
  assert (Hc : k = 0 \/ k = 1 \/ k = 2) by lia.
  destruct Hc as [-> | [-> | ->]]; reflexivity.
Defined.

(** ** The cells the passes and the filter need *)

Section PassReturns.
Context {F : Type} `{FloatArith F}.
Variables (input output a s n w : Z).
Variable body : Z -> machine F -> option (machine F).

Hypothesis body_run :
  forall k t, body k t = box1DFloatC (input + k * a) (output + k * a) n s w t.
Hypothesis window_range : 0 <= w <= n.

Lemma run_keeps_dom (p q : Z) (t t' : machine F) :
  box1DFloatC p q n s w t = Some t' -> dom (heap t') = dom (heap t).
Proof.
  intros Hrun.
  assert (Hs : is_Some (box1DFloatC p q n s w t)) by eauto.
  apply (box1D_returns_in_range t p q n s w window_range) in Hs.
  destruct Hs as [Hin Hout].
  destruct (box1D_result_from_zero t p q s n w window_range Hin Hout)
    as (t'' & Hrun' & _ & _ & Hdom & _).
  congruence.
Qed.

Lemma pass_returns_iff (m : machine F) (K : Z) :
  is_Some (for_loop 0 K 1 body m) <->
  forall k i, 0 <= k < K -> 0 <= i < n ->
    is_Some (heap m !! (input + k * a + i * s)) /\
    is_Some (heap m !! (output + k * a + i * s)).
Proof.
  split.
  - intros [r Hrun].
    apply (for_loop_count_partial
             (fun (c : nat) t =>
                dom (heap t) = dom (heap m) /\
                forall k i, 0 <= k < Z.of_nat c -> 0 <= i < n ->
                  is_Some (heap m !! (input + k * a + i * s)) /\
                  is_Some (heap m !! (output + k * a + i * s)))) in Hrun.
    + destruct Hrun as [_ Hall]. intros k i Hk Hi. apply Hall; lia.
    + split; [reflexivity|]. intros k i Hk. lia.
    + intros c t t' Hc (Hdom & Hall) Hb. rewrite Z.add_0_l, body_run in Hb.
      split; [rewrite <- Hdom; eapply run_keeps_dom; exact Hb|].
      assert (Hs : is_Some (box1DFloatC (input + Z.of_nat c * a)
                              (output + Z.of_nat c * a) n s w t)) by eauto.
      apply (box1D_returns_in_range _ _ _ _ _ _ window_range) in Hs.
      destruct Hs as [Hin Hout]. intros k i Hk Hi.
      destruct (decide (k = Z.of_nat c)) as [->|Hne]; [|apply Hall; lia].
      split; apply elem_of_dom; rewrite <- Hdom; apply elem_of_dom; auto.
  - intros Hall.
    destruct (for_loop_count (fun (c : nat) t => dom (heap t) = dom (heap m))
                body 0 K m) as (m' & Hrun & _).
    + reflexivity.
    + intros c t Hc Hdom. rewrite Z.add_0_l, body_run.
      assert (Hs : is_Some (box1DFloatC (input + Z.of_nat c * a)
                              (output + Z.of_nat c * a) n s w t)).
      { apply (box1D_returns_in_range _ _ _ _ _ _ window_range).
        split; intros i Hi; apply elem_of_dom; rewrite Hdom; apply elem_of_dom;
          apply Hall; lia. }
      destruct Hs as [t' Ht']. exists t'. split; [exact Ht'|].
      rewrite <- Hdom. eapply run_keeps_dom. exact Ht'.
    + rewrite Hrun. eauto.
Qed.

Lemma pass_keeps_dom (m : machine F) (K : Z) r :
  for_loop 0 K 1 body m = Some r -> dom (heap (snd r)) = dom (heap m).
Proof.
  intros Hrun.
  apply (for_loop_count_partial (fun (c : nat) t => dom (heap t) = dom (heap m)))
    in Hrun; [exact Hrun|reflexivity|].
  intros c t t' _ Hdom Hb. rewrite body_run in Hb.
  rewrite <- Hdom. eapply run_keeps_dom. exact Hb.
Qed.

End PassReturns.

Section Returns2D.
Context {F : Type} `{FloatArith F}.
Implicit Types (m : machine F).

(** The cells of an image, by row and column and by address. *)
Lemma image_cells (h : gmap Z F) (b numRows numCols : Z) :
  0 <= numCols ->
  (forall i j, 0 <= i < numRows -> 0 <= j < numCols ->
     is_Some (h !! (b + i * numCols + j)))
  <-> allocated h b 1 (numRows * numCols).
Proof.
  intros HC. split.
  - intros Hall k Hk.
    assert (numCols <> 0) by (intros E0; rewrite E0, Z.mul_0_r in Hk; lia).
    pose proof (Z.div_mod k numCols ltac:(lia)) as E.
    pose proof (Z.mod_pos_bound k numCols ltac:(lia)) as Hm.
    replace (b + k * 1) with (b + (k / numCols) * numCols + k mod numCols) by lia.
    apply Hall; [|exact Hm].
    split; [apply Z.div_pos; lia|apply Z.div_lt_upper_bound; lia].
  - intros Ha i j Hi Hj.
    replace (b + i * numCols + j) with (b + (i * numCols + j) * 1) by lia.
    apply Ha. nia.
Qed.

Lemma rows_returns_iff m input output numRows numCols w :
  0 <= w <= numCols ->
  is_Some (boxAlongRowsFloatC input output numRows numCols w m) <->
  allocated (heap m) input 1 (numRows * numCols) /\
  allocated (heap m) output 1 (numRows * numCols).
Proof.
  intros Hw. unfold boxAlongRowsFloatC. rewrite fmap_is_Some.
  rewrite (pass_returns_iff input output numCols 1 numCols w _
             ltac:(reflexivity) Hw m numRows).
  rewrite <- !image_cells by lia. split.
  - intros Hall. split; intros i j Hi Hj.
    + destruct (Hall i j Hi Hj) as [Hc _]. rewrite Z.mul_1_r in Hc. exact Hc.
    + destruct (Hall i j Hi Hj) as [_ Hc]. rewrite Z.mul_1_r in Hc. exact Hc.
  - intros [Hin Hout] k i Hk Hi. rewrite !Z.mul_1_r. auto.
Qed.

Lemma cols_returns_iff m input output numRows numCols w :
  0 <= w <= numRows -> 0 <= numCols ->
  is_Some (boxAlongColsFloatC input output numRows numCols w m) <->
  allocated (heap m) input 1 (numRows * numCols) /\
  allocated (heap m) output 1 (numRows * numCols).
Proof.
  intros Hw HC. unfold boxAlongColsFloatC. rewrite fmap_is_Some.
  rewrite (pass_returns_iff input output 1 numCols numRows w
             (fun j m => box1DFloatC (input + j) (output + j) numRows numCols w m)
             ltac:(intros k t; rewrite Z.mul_1_r; reflexivity) Hw m numCols).
  rewrite <- !image_cells by lia. split.
  - intros Hall. split; intros i j Hi Hj.
    + destruct (Hall j i Hj Hi) as [Hc _].
      replace (input + i * numCols + j) with (input + j * 1 + i * numCols) by lia.
      exact Hc.
    + destruct (Hall j i Hj Hi) as [_ Hc].
      replace (output + i * numCols + j) with (output + j * 1 + i * numCols) by lia.
      exact Hc.
  - intros [Hin Hout] k i Hk Hi.
    replace (input + k * 1 + i * numCols) with (input + i * numCols + k) by lia.
    replace (output + k * 1 + i * numCols) with (output + i * numCols + k) by lia.
    auto.
Qed.

Lemma rows_keeps_dom m m' input output numRows numCols w :
  0 <= w <= numCols ->
  boxAlongRowsFloatC input output numRows numCols w m = Some m' ->
  dom (heap m') = dom (heap m).
Proof.
  intros Hw. unfold boxAlongRowsFloatC.
  destruct (for_loop 0 numRows 1 _ m) as [r|] eqn:E; [|discriminate].
  intros [= <-].
  apply (pass_keeps_dom input output numCols 1 numCols w _ ltac:(reflexivity) Hw
           m numRows r E).
Qed.

Lemma cols_keeps_dom m m' input output numRows numCols w :
  0 <= w <= numRows ->
  boxAlongColsFloatC input output numRows numCols w m = Some m' ->
  dom (heap m') = dom (heap m).
Proof.
  intros Hw. unfold boxAlongColsFloatC.
  destruct (for_loop 0 numCols 1 _ m) as [r|] eqn:E; [|discriminate].
  intros [= <-].
  apply (pass_keeps_dom input output 1 numCols numRows w
           (fun j m => box1DFloatC (input + j) (output + j) numRows numCols w m)
           ltac:(intros k t; rewrite Z.mul_1_r; reflexivity) Hw m numCols r E).
Qed.

(** X19.  With a window of zero or more samples that fits
    ([windowSize <= numCols] for the rows, [windowSize <= numRows] for
    the columns) a pass returns exactly when all
    [numRows * numCols] cells of the input buffer and of the output
    buffer exist, whether or not the two buffers overlap; with one of
    them missing it is an out-of-bounds access. *)
Theorem passes_return_iff m input output numRows numCols wr wc :
  0 <= wr <= numCols -> 0 <= wc <= numRows ->
  (is_Some (boxAlongRowsFloatC input output numRows numCols wr m) <->
   allocated (heap m) input 1 (numRows * numCols) /\
   allocated (heap m) output 1 (numRows * numCols)) /\
  (is_Some (boxAlongColsFloatC input output numRows numCols wc m) <->
   allocated (heap m) input 1 (numRows * numCols) /\
   allocated (heap m) output 1 (numRows * numCols)).
Proof.
  intros Hwr Hwc. split.
  - apply rows_returns_iff, Hwr.
  - apply cols_returns_iff; [exact Hwc|lia].
Qed.

Lemma repetition_returns_iff m bufferA bufferB numRows numCols wr wc :
  0 <= wr <= numCols -> 0 <= wc <= numRows ->
  is_Some (repetition bufferA bufferB numRows numCols wr wc m) <->
  allocated (heap m) bufferA 1 (numRows * numCols) /\
  allocated (heap m) bufferB 1 (numRows * numCols).
Proof.
  intros Hwr Hwc. unfold repetition. split.
  - intros Hs.
    destruct (boxAlongRowsFloatC bufferA bufferB numRows numCols wr m) as [m1|] eqn:E;
      [|destruct Hs as [? Hs]; discriminate Hs].
    apply (proj1 (rows_returns_iff m bufferA bufferB numRows numCols wr Hwr)).
    rewrite E. eauto.
  - intros [HA HB].
    destruct (proj2 (rows_returns_iff m bufferA bufferB numRows numCols wr Hwr))
      as [m1 Hm1]; [auto|].
    rewrite Hm1. cbn [mbind option_bind].
    pose proof (rows_keeps_dom _ _ _ _ _ _ _ Hwr Hm1) as Hdom.
    apply (proj2 (cols_returns_iff m1 bufferB bufferA numRows numCols wc Hwc
                    ltac:(lia))).
    split; apply (allocated_dom (heap m)); assumption.
Qed.

Lemma repetition_keeps_dom m m' bufferA bufferB numRows numCols wr wc :
  0 <= wr <= numCols -> 0 <= wc <= numRows ->
  repetition bufferA bufferB numRows numCols wr wc m = Some m' ->
  dom (heap m') = dom (heap m).
Proof.
  intros Hwr Hwc. unfold repetition.
  destruct (boxAlongRowsFloatC bufferA bufferB numRows numCols wr m) as [m1|] eqn:E;
    [|discriminate].
  cbn [mbind option_bind]. intros Hc.
  rewrite (cols_keeps_dom _ _ _ _ _ _ _ Hwc Hc).
  apply (rows_keeps_dom _ _ _ _ _ _ _ Hwr E).
Qed.

(** X20.  With windows of zero or more samples that fit and
    [nreps >= 1], the filter returns exactly when all
    [numRows * numCols] cells of both buffers exist; the two buffers
    may overlap.  With a cell missing, the first repetition already is
    an out-of-bounds access. *)
Theorem jarosz_returns_iff m bufferA bufferB numRows numCols wr wc nreps :
  0 <= wr <= numCols -> 0 <= wc <= numRows -> 1 <= nreps ->
  is_Some (jaroszFilterFloat bufferA bufferB numRows numCols wr wc nreps m) <->
  allocated (heap m) bufferA 1 (numRows * numCols) /\
  allocated (heap m) bufferB 1 (numRows * numCols).
Proof.
  intros Hwr Hwc Hn. rewrite jarosz_repeat.
  replace (Z.to_nat nreps) with (Datatypes.S (Z.to_nat (nreps - 1))) by lia.
  generalize (Z.to_nat (nreps - 1)) as k. intros k. split.
  - cbn [repeat_opt]. intros Hs.
    apply (proj1 (repetition_returns_iff m bufferA bufferB numRows numCols wr wc
                    Hwr Hwc)).
    destruct (repetition bufferA bufferB numRows numCols wr wc m) as [m1|];
      [eauto|destruct Hs as [? Hs]; discriminate Hs].
  - intros [HA HB]. revert m HA HB.
    induction (Datatypes.S k) as [|c IH]; intros m HA HB; [cbn; eauto|].
    cbn [repeat_opt].
    destruct (proj2 (repetition_returns_iff m bufferA bufferB numRows numCols wr wc
                       Hwr Hwc)) as [m1 Hm1]; [auto|].
    rewrite Hm1. cbn [mbind option_bind].
    pose proof (repetition_keeps_dom _ _ _ _ _ _ _ _ Hwr Hwc Hm1) as Hdom.
    apply IH; apply (allocated_dom (heap m)); assumption.
Qed.

End Returns2D.

Lemma passes_return_iff_witness :
  let m := two_arrays 0 (b32_of_Z <$> [1; 2; 3; 4; 5; 6]) 100 (replicate 6 f_zero) in
  (is_Some (boxAlongRowsFloatC 0 100 2 3 2 m) <->
   allocated (heap m) 0 1 (2 * 3) /\ allocated (heap m) 100 1 (2 * 3)) /\
  (is_Some (boxAlongColsFloatC 0 100 2 3 2 m) <->
   allocated (heap m) 0 1 (2 * 3) /\ allocated (heap m) 100 1 (2 * 3)).
Proof.
  intros m. apply (passes_return_iff m 0 100 2 3 2 2); lia.
Defined.

Lemma jarosz_returns_iff_witness :
  let m := two_arrays 0 (b32_of_Z <$> [1; 2; 3; 4; 5; 6]) 100 (replicate 5 f_zero) in
  is_Some (jaroszFilterFloat 0 100 2 3 2 2 2 m) <->
  allocated (heap m) 0 1 (2 * 3) /\ allocated (heap m) 100 1 (2 * 3).
Proof.
  intros m. apply (jarosz_returns_iff m 0 100 2 3 2 2 2); lia.
Defined.

(** ** Multiplying, then dividing, by the same eight lanes *)

Section LanesRoundTrip.
Context {F : Type} `{FloatArith F} {EA : ExactArith F}.
Implicit Types (m : machine F).

(** X21.  In arithmetic without rounding, [simd_vectorized_mul] into
    [out] followed by [simd_vectorized_div] of [out] by the same second
    operand, in place, leaves in [out] the eight values [num] held at
    the start, when no lane of the operand is zero and the operand does
    not overlap [out]; [num] itself may be [out]. *)
Theorem simd_mul_div_round_trip m out num op :
  allocated (heap m) num 1 8 -> allocated (heap m) op 1 8 ->
  allocated (heap m) out 1 8 ->
  (forall i, 0 <= i < 8 -> ~ (out <= op + i < out + 8)) ->
  (forall i, 0 <= i < 8 -> heap m !! (op + i) <> Some f_zero) ->
  exists m1 m2,
    simd_vectorized_mul out num op m = Some m1 /\
    simd_vectorized_div out out op m1 = Some m2 /\
    forall i, 0 <= i < 8 ->
      is_Some (heap m2 !! (out + i)) /\ heap m2 !! (out + i) = heap m !! (num + i).
Proof.
  intros Hn Hp Ho Hapart Hnz.
  unfold simd_vectorized_mul, simd_vectorized_div.
  destruct (proj2 (load_vec_is_Some 8 num m) Hn) as [xs Hxs].
  destruct (proj2 (load_vec_is_Some 8 op m) Hp) as [ys Hys].
  rewrite Hxs, Hys. cbn [mbind option_bind].
  destruct (load_vec_spec _ _ _ _ Hxs) as (Lx & _).
  destruct (load_vec_spec _ _ _ _ Hys) as (Ly & _).
  assert (Lv : length (zip_with f_mul xs ys) = 8%nat) by (rewrite length_zip_with; lia).
  destruct (proj2 (store_vec_is_Some (zip_with f_mul xs ys) out m)) as [m1 Hm1].
  { rewrite Lv. exact Ho. }
  destruct (store_vec_spec _ _ _ _ Hm1) as (Hval1 & Hframe1 & Hdom1 & _).
  rewrite Lv in *.
  exists m1.
  destruct (proj2 (load_vec_is_Some 8 out m1)) as [zs Hzs].
  { apply (allocated_dom (heap m)); assumption. }
  destruct (proj2 (load_vec_is_Some 8 op m1)) as [ys' Hys'].
  { apply (allocated_dom (heap m)); assumption. }
  rewrite Hzs, Hys'. cbn [mbind option_bind].
  destruct (load_vec_spec _ _ _ _ Hzs) as (Lz & _).
  destruct (load_vec_spec _ _ _ _ Hys') as (Ly' & _).
  destruct (divide_vec_spec zs ys' m1) as (Hv & Hh & _).
  destruct (divide_vec zs ys' m1) as [vs m1']. cbn [fst snd] in *.
  assert (Lq : length vs = 8%nat) by (rewrite Hv, length_zip_with; lia).
  destruct (proj2 (store_vec_is_Some vs out m1')) as [m2 Hm2].
  { rewrite Lq, Hh. apply (allocated_dom (heap m)); assumption. }
  destruct (store_vec_spec _ _ _ _ Hm2) as (Hval2 & _).
  exists m2. split; [exact Hm1|]. split; [exact Hm2|].
  intros i Hi.
  destruct (lanes_loaded m num xs i Hxs Hi) as (x & Hx & Hxi).
  destruct (lanes_loaded m op ys i Hys Hi) as (y & Hy & Hyi).
  destruct (lanes_loaded m1 out zs i Hzs Hi) as (z & Hz & Hzi).
  destruct (lanes_loaded m1 op ys' i Hys' Hi) as (y' & Hy' & Hyi').
  assert (Ey : y' = y).
  { rewrite Hframe1 in Hy' by (apply Hapart; exact Hi). congruence. }
  assert (Ez : z = f_mul x y).
  { specialize (Hval1 (Z.to_nat i) ltac:(lia)). rewrite Z2Nat.id in Hval1 by lia.
    rewrite Hval1, lookup_zip_with, Hxi in Hz. simpl in Hz. rewrite Hyi in Hz.
    simpl in Hz. congruence. }
  subst y' z.
  specialize (Hval2 (Z.to_nat i) ltac:(lia)). rewrite Z2Nat.id in Hval2 by lia.
  rewrite Hval2, Hv, lookup_zip_with, Hzi. simpl. rewrite Hyi'. simpl.
  rewrite ex_div_mul; [rewrite Hx; eauto|].
  intros E. apply (Hnz i Hi). rewrite Hy, E. reflexivity.
Qed.

End LanesRoundTrip.

Lemma simd_mul_div_round_trip_witness :
  let m := machine_of (cells 0 (rat_of_Z <$> [8; 6; 4; 2; 1; 3; 5; 7;
                                               2; 2; 2; 2; 3; 3; 3; 3])) in
  exists m1 m2,
    simd_vectorized_mul 0 0 8 m = Some m1 /\
    simd_vectorized_div 0 0 8 m1 = Some m2 /\
    forall i, 0 <= i < 8 ->
      is_Some (heap m2 !! (0 + i)) /\ heap m2 !! (0 + i) = heap m !! (0 + i).
Proof.
  intros m.
  apply (simd_mul_div_round_trip m 0 0 8);
    [small_alloc | small_alloc | small_alloc | intros i Hi; lia | ].
  intros i Hi. small_range i Hi; discriminate.
Defined.

(** ** Rounding in binary32

    What [SpecFloat]'s rounding does to a value, on the rationals:
    enough to compare the product by a rounded reciprocal with the
    rounded quotient. *)

Lemma pow2_pos e : (0 < pow2 e)%Q.
Proof. apply Qpower_0_lt. reflexivity. Qed.

Lemma pow2_add a b : (pow2 (a + b) == pow2 a * pow2 b)%Q.
Proof. apply Qpower_plus. discriminate. Qed.

Lemma pow2_Z a : 0 <= a -> (pow2 a == inject_Z (2 ^ a))%Q.
Proof. intros Ha. unfold pow2. rewrite Zpower_Qpower by exact Ha. reflexivity. Qed.

Lemma pow2_le a b : a <= b -> (pow2 a <= pow2 b)%Q.
Proof.
  intros Hab. replace b with (a + (b - a)) by lia. rewrite pow2_add.
  assert (H1 : (1 <= pow2 (b - a))%Q).
  { rewrite pow2_Z by lia. change 1%Q with (inject_Z 1). rewrite <- Zle_Qle.
    pose proof (Z.pow_pos_nonneg 2 (b - a) ltac:(lia) ltac:(lia)). lia. }
  pose proof (pow2_pos a). nra.
Qed.

Lemma pow2_half e : (pow2 (e - 1) == (1#2) * pow2 e)%Q.
Proof.
  replace e with ((e - 1) + 1) at 2 by lia. rewrite pow2_add.
  change (pow2 1) with 2%Q. lra.
Qed.

Lemma located_ext m r s t t' : (t == t')%Q -> located m r s t -> located m r s t'.
Proof. intros E. unfold located. destruct r, s; rewrite E; auto. Qed.

Lemma inject_double p : (inject_Z (Zpos p~0) == 2 * inject_Z (Zpos p))%Q.
Proof. unfold Qeq. simpl. lia. Qed.

Lemma inject_double_one p : (inject_Z (Zpos p~1) == 2 * inject_Z (Zpos p) + 1)%Q.
Proof. unfold Qeq. simpl. lia. Qed.

Ltac loc_cases :=
  unfold located in *; cbn [orb shr_m shr_r shr_s] in *;
  try change (inject_Z 0) with 0%Q in *; try change (inject_Z 1) with 1%Q in *;
  repeat match goal with H : _ /\ _ |- _ => destruct H end;
  try split; lra.

Lemma shr_1_located mrs t :
  0 <= shr_m mrs -> located_rec mrs t ->
  0 <= shr_m (shr_1 mrs) /\ located_rec (shr_1 mrs) (t * (1#2)).
Proof.
  destruct mrs as [m r s]. unfold located_rec. cbn [shr_m shr_r shr_s]. intros Hm Hl.
  destruct m as [|p|p]; [| |lia].
  - split; [simpl; lia|]. change (inject_Z 0) with 0%Q in *.
    destruct r, s; cbn [shr_1 orb shr_m shr_r shr_s]; loc_cases.
  - destruct p as [p|p|].
    + pose proof (inject_double_one p) as E. split; [simpl; lia|].
      destruct r, s; cbn [shr_1 orb shr_m shr_r shr_s]; loc_cases.
    + pose proof (inject_double p) as E. split; [simpl; lia|].
      destruct r, s; cbn [shr_1 orb shr_m shr_r shr_s]; loc_cases.
    + split; [simpl; lia|]. change (inject_Z 1) with 1%Q in *.
      change (inject_Z 0) with 0%Q in *.
      destruct r, s; cbn [shr_1 orb shr_m shr_r shr_s]; loc_cases.
Qed.

Lemma located_rec_ext mrs t t' : (t == t')%Q -> located_rec mrs t -> located_rec mrs t'.
Proof. apply located_ext. Qed.

Lemma iter_shr_located p : forall mrs t,
  0 <= shr_m mrs -> located_rec mrs t ->
  0 <= shr_m (SpecFloat.iter_pos shr_1 p mrs) /\
  located_rec (SpecFloat.iter_pos shr_1 p mrs) (t * pow2 (- Zpos p)).
Proof.
  induction p as [p IH|p IH|]; intros mrs t Hm Hl; cbn [SpecFloat.iter_pos].
  - destruct (shr_1_located mrs t Hm Hl) as [H1 L1].
    destruct (IH _ _ H1 L1) as [H2 L2]. destruct (IH _ _ H2 L2) as [H3 L3].
    split; [exact H3|]. eapply located_rec_ext; [|exact L3].
    replace (- Zpos p~1) with (-1 + (- Zpos p + - Zpos p)) by lia.
    rewrite !pow2_add. change (pow2 (-1)) with (1#2)%Q.
    generalize (pow2 (- Zpos p)). intros a. ring.
  - destruct (IH _ _ Hm Hl) as [H2 L2]. destruct (IH _ _ H2 L2) as [H3 L3].
    split; [exact H3|]. eapply located_rec_ext; [|exact L3].
    replace (- Zpos p~0) with (- Zpos p + - Zpos p) by lia.
    rewrite !pow2_add. generalize (pow2 (- Zpos p)). intros a. ring.
  - destruct (shr_1_located mrs t Hm Hl) as [H1 L1]. split; [exact H1|].
    eapply located_rec_ext; [|exact L1]. change (pow2 (-1)) with (1#2)%Q. reflexivity.
Qed.

Lemma digits_upper p : (inject_Z (Zpos p) < pow2 (Zpos (digits2_pos p)))%Q.
Proof.
  rewrite pow2_Z by lia. rewrite <- Zlt_Qlt.
  rewrite digits_size. pose proof (Pos.size_gt p) as Hs.
  rewrite <- Pos2Z.inj_pow. lia.
Qed.

Lemma digits_lower p : (pow2 (Zpos (digits2_pos p) - 1) <= inject_Z (Zpos p))%Q.
Proof.
  rewrite pow2_Z by lia. rewrite <- Zle_Qle.
  rewrite digits_size. pose proof (Pos.size_le p) as Hs.
  assert (H2 : 2 ^ Zpos (Pos.size p) = 2 * 2 ^ (Zpos (Pos.size p) - 1)).
  { rewrite <- Z.pow_succ_r by lia. f_equal. lia. }
  rewrite <- Pos2Z.inj_pow in H2. lia.
Qed.

Lemma rne_spec m r s t :
  located m r s t ->
  let m' := round_nearest_even m (loc_of_shr_record (Build_shr_record m r s)) in
  (m' = m \/ m' = m + 1) /\
  (inject_Z m' - t <= 1#2)%Q /\ (t - inject_Z m' <= 1#2)%Q /\
  (forall K : Z, (t <= inject_Z K)%Q -> m' <= K) /\
  (r = false -> s = false -> m' = m /\ (t == inject_Z m)%Q).
Proof.
  intros Hl m'. subst m'.
  assert (E1 : (inject_Z (m + 1) == inject_Z m + 1)%Q) by (rewrite inject_Z_plus; reflexivity).
  assert (HK : forall K : Z, (inject_Z m <= inject_Z K)%Q -> m <= K)
    by (intros K HK; rewrite Zle_Qle; exact HK).
  assert (HK1 : forall K : Z, (inject_Z m < inject_Z K)%Q -> m + 1 <= K)
    by (intros K HK'; rewrite <- Zlt_Qlt in HK'; lia).
  destruct r, s; cbn [loc_of_shr_record round_nearest_even]; unfold located in Hl.
  - destruct Hl as [H1 H2]. split; [auto|]. split; [lra|]. split; [lra|].
    split; [|discriminate]. intros K HKt. apply HK1. lra.
  - destruct (Z.even m).
    + split; [auto|]. split; [lra|]. split; [lra|]. split; [|discriminate].
      intros K HKt. apply HK. lra.
    + split; [auto|]. split; [lra|]. split; [lra|]. split; [|discriminate].
      intros K HKt. apply HK1. lra.
  - destruct Hl as [H1 H2]. split; [auto|]. split; [lra|]. split; [lra|].
    split; [|discriminate]. intros K HKt. apply HK. lra.
  - split; [auto|]. split; [lra|]. split; [lra|]. split; [|auto].
    intros K HKt. apply HK. lra.
Qed.

Lemma located_bounds m r s t :
  located m r s t -> (inject_Z m <= t /\ t < inject_Z m + 1)%Q.
Proof. intros Hl. destruct r, s; loc_cases. Qed.

Lemma succ_le_pow2_digits m :
  0 <= m -> (inject_Z m + 1 <= pow2 (Zdigits2 m))%Q.
Proof.
  intros Hm. destruct m as [|p|p]; [unfold Qle; simpl; lia| |lia].
  cbn [Zdigits2]. rewrite pow2_Z by lia.
  rewrite digits_size. pose proof (Pos.size_gt p) as Hs.
  assert (H1 : Zpos p + 1 <= 2 ^ Zpos (Pos.size p)) by (rewrite <- Pos2Z.inj_pow; lia).
  rewrite Zle_Qle, inject_Z_plus in H1. exact H1.
Qed.

Lemma inject_lt_pow2 m a : 0 <= a -> (inject_Z m < pow2 a)%Q -> m < 2 ^ a.
Proof. intros Ha H. rewrite pow2_Z in H by exact Ha. rewrite Zlt_Qlt. exact H. Qed.

Lemma shr_fexp_located m e loc t :
  0 <= m -> located_rec (shr_record_of_loc m loc) t ->
  let er := Z.max e (fexp 24 128 (Zdigits2 m + e)) in
  e <= er /\ -149 <= er /\
  snd (shr_fexp 24 128 m e loc) = er /\
  0 <= shr_m (fst (shr_fexp 24 128 m e loc)) < 2 ^ 24 /\
  located_rec (fst (shr_fexp 24 128 m e loc)) (t * pow2 (e - er)) /\
  (er = e -> fst (shr_fexp 24 128 m e loc) = shr_record_of_loc m loc).
Proof.
  intros Hm Hl er.
  assert (Hrm : shr_m (shr_record_of_loc m loc) = m) by (destruct loc as [|[]]; reflexivity).
  pose proof (located_bounds _ _ _ _ Hl) as [Hlo Hhi]. rewrite Hrm in Hlo, Hhi.
  pose proof (succ_le_pow2_digits m Hm) as Hd.
  assert (Hd0 : 0 <= Zdigits2 m) by (destruct m; simpl; lia).
  unfold shr_fexp, shr. subst er. unfold fexp, emin.
  set (d := Zdigits2 m) in *.
  destruct (Z.max (d + e - 24) (3 - 128 - 24) - e) as [|p|p] eqn:En; cbn [fst snd].
  - rewrite Z.max_l by lia. split; [lia|]. split; [lia|]. split; [reflexivity|].
    rewrite Hrm. split.
    + split; [exact Hm|]. apply inject_lt_pow2; [lia|].
      apply Qlt_le_trans with (pow2 d); [lra|]. apply pow2_le. lia.
    + split; [|auto]. eapply located_rec_ext; [|exact Hl].
      rewrite Z.sub_diag. change (pow2 0) with 1%Q. ring.
  - rewrite Z.max_r by lia. split; [lia|]. split; [lia|]. split; [lia|].
    rewrite <- Hrm in Hm.
    destruct (iter_shr_located p _ t Hm Hl) as [H1 L1].
    pose proof (located_bounds _ _ _ _ L1) as [Hlo' Hhi'].
    split; [|split].
    + split; [exact H1|]. apply inject_lt_pow2; [lia|].
      apply Qle_lt_trans with (t * pow2 (- Zpos p))%Q; [exact Hlo'|].
      apply Qlt_le_trans with (pow2 d * pow2 (- Zpos p))%Q.
      * pose proof (pow2_pos (- Zpos p)). nra.
      * rewrite <- pow2_add. apply pow2_le. lia.
    + eapply located_rec_ext; [|exact L1].
      replace (e - Z.max (d + e - 24) (3 - 128 - 24)) with (- Zpos p) by lia.
      reflexivity.
    + intros E. lia.
  - rewrite Z.max_l by lia. split; [lia|]. split; [lia|]. split; [reflexivity|].
    rewrite Hrm. split.
    + split; [exact Hm|]. apply inject_lt_pow2; [lia|].
      apply Qlt_le_trans with (pow2 d); [lra|]. apply pow2_le. lia.
    + split; [|auto]. eapply located_rec_ext; [|exact Hl].
      rewrite Z.sub_diag. change (pow2 0) with 1%Q. ring.
Qed.

Lemma digits_le_24 m : 0 <= m < 2 ^ 24 -> Zdigits2 m <= 24.
Proof.
  intros Hm. destruct m as [|p|p]; [simpl; lia| |lia]. cbn [Zdigits2].
  rewrite digits_size.
  destruct (Z.le_gt_cases (Zpos (Pos.size p)) 24) as [Hle|Hgt]; [exact Hle|].
  pose proof (Pos.size_le p) as Hs.
  assert (H2 : 2 ^ 25 <= 2 ^ Zpos (Pos.size p)) by (apply Z.pow_le_mono_r; lia).
  assert (H3 : Zpos (2 ^ Pos.size p) = 2 ^ Zpos (Pos.size p)) by apply Pos2Z.inj_pow.
  lia.
Qed.

Lemma round_aux_spec sx m e loc t :
  0 <= m -> located_rec (shr_record_of_loc m loc) t ->
  let er := Z.max e (fexp 24 128 (Zdigits2 m + e)) in
  exists ms mz ez,
    binary_round_aux 24 128 sx m e loc = b32_pack sx mz ez /\
    0 <= mz < 2 ^ 24 /\ 0 <= ms <= 2 ^ 24 /\
    ((ez = er /\ mz = ms) \/ (ez = er + 1 /\ ms = 2 ^ 24 /\ mz = 2 ^ 23)) /\
    (inject_Z ms - t * pow2 (e - er) <= 1#2)%Q /\
    (t * pow2 (e - er) - inject_Z ms <= 1#2)%Q /\
    (forall K : Z, (t * pow2 (e - er) <= inject_Z K)%Q -> ms <= K) /\
    (loc = loc_Exact -> er = e -> (inject_Z ms == t)%Q) /\
    e <= er /\ -149 <= er.
Proof.
  intros Hm Hl er.
  destruct (shr_fexp_located m e loc t Hm Hl) as (Hle & Hlo & He' & Hm' & Hl' & Hsame).
  fold er in Hle, Hlo, He', Hl', Hsame.
  unfold binary_round_aux.
  destruct (shr_fexp 24 128 m e loc) as [mrs' e'] eqn:E1. cbn [fst snd] in *. subst e'.
  destruct mrs' as [m' r' s']. unfold located_rec in Hl'. cbn [shr_m shr_r shr_s] in *.
  destruct (rne_spec m' r' s' _ Hl') as (Hms & Hup & Hdn & Hmono & Hex).
  set (ms := round_nearest_even m' (loc_of_shr_record (Build_shr_record m' r' s'))) in *.
  assert (Hms' : 0 <= ms <= 2 ^ 24) by lia.
  assert (Hexact : loc = loc_Exact -> er = e -> (inject_Z ms == t)%Q).
  { intros -> Ee. specialize (Hsame Ee). cbn [shr_record_of_loc] in Hsame.
    injection Hsame as -> -> ->. destruct (Hex eq_refl eq_refl) as [-> Ht].
    rewrite <- Ht, Ee, Z.sub_diag. change (pow2 0) with 1%Q. ring. }
  destruct (Z.eq_dec ms (2 ^ 24)) as [Ebig|Esmall].
  - exists ms, (2 ^ 23), (er + 1). rewrite Ebig.
    split.
    + unfold shr_fexp, shr, fexp, emin.
      change (Zdigits2 (2 ^ 24)) with 25.
      replace (Z.max (25 + er - 24) (3 - 128 - 24) - er) with 1 by lia.
      reflexivity.
    + split; [lia|]. split; [lia|]. split; [right; auto|].
      rewrite <- Ebig. auto 10.
  - exists ms, ms, er. split.
    + unfold shr_fexp, shr, fexp, emin.
      pose proof (digits_le_24 ms ltac:(lia)) as Hd.
      assert (Hd0 : 0 <= Zdigits2 ms) by (destruct ms; simpl; lia).
      destruct (Z.max (Zdigits2 ms + er - 24) (3 - 128 - 24) - er) as [|p|p] eqn:En;
        try lia; reflexivity.
    + split; [lia|]. split; [lia|]. split; [left; auto|]. auto 10.
Qed.

Lemma pow2_lt_inv a b : (pow2 a < pow2 b)%Q -> a < b.
Proof.
  intros H. destruct (Z.lt_ge_cases a b) as [Hlt|Hge]; [exact Hlt|].
  pose proof (pow2_le b a Hge). lra.
Qed.

Lemma pack_real sx mz ez :
  0 <= mz -> ez <= 104 ->
  b32_real (b32_pack sx mz ez) /\ b32_sign (b32_pack sx mz ez) = sx /\
  (b32_mag (b32_pack sx mz ez) == inject_Z mz * pow2 ez)%Q.
Proof.
  intros Hm He. unfold b32_pack. destruct mz as [|p|p]; [| |lia].
  - cbn. split; [exact I|]. split; [reflexivity|]. ring.
  - destruct (Z.leb_spec ez 104); [|lia]. cbn. split; [exact I|]. split; reflexivity.
Qed.

Lemma pack_bounded sx mz ez : 0 <= mz < 2 ^ 24 -> b32_bounded (b32_pack sx mz ez).
Proof.
  intros Hm. unfold b32_pack. destruct mz as [|p|p]; [exact I| |exact I].
  destruct (Z.leb_spec ez 104); [|exact I]. split; lia.
Qed.

Lemma b32_max_lt : (b32_max < pow2 128)%Q.
Proof. unfold b32_max. rewrite !pow2_Z by lia. rewrite <- inject_Z_mult, <- Zlt_Qlt. lia. Qed.

(** The rounding of a located value, in absolute terms. *)
Lemma round_aux_abs sx m e loc t :
  0 <= m -> located_rec (shr_record_of_loc m loc) t ->
  let er := Z.max e (fexp 24 128 (Zdigits2 m + e)) in
  let x := (t * pow2 e)%Q in
  exists mz ez,
    binary_round_aux 24 128 sx m e loc = b32_pack sx mz ez /\
    0 <= mz < 2 ^ 24 /\
    let y := (inject_Z mz * pow2 ez)%Q in
    (y - x <= pow2 (er - 1))%Q /\ (x - y <= pow2 (er - 1))%Q /\
    (loc = loc_Exact -> er = e -> (y == x)%Q) /\
    (forall K : Z, (x <= inject_Z K * pow2 er)%Q -> (y <= inject_Z K * pow2 er)%Q) /\
    (ez = er \/ (ez = er + 1 /\ (y == pow2 (er + 24))%Q)).
Proof.
  intros Hm Hl er x.
  destruct (round_aux_spec sx m e loc t Hm Hl)
    as (ms & mz & ez & Hrun & Hmz & Hms & Hcase & Hup & Hdn & Hmono & Hex & Hle & Hlo).
  fold er in Hcase, Hup, Hdn, Hmono, Hex, Hle, Hlo.
  exists mz, ez. split; [exact Hrun|]. split; [exact Hmz|]. cbn zeta.
  assert (Hy : (inject_Z mz * pow2 ez == inject_Z ms * pow2 er)%Q).
  { destruct Hcase as [[-> ->]|(-> & -> & ->)]; [reflexivity|].
    rewrite pow2_add. change (pow2 1) with 2%Q.
    change (inject_Z (2 ^ 23)) with (8388608#1)%Q.
    change (inject_Z (2 ^ 24)) with (16777216#1)%Q.
    generalize (pow2 er). intros p. ring. }
  assert (Hx : (x == t * pow2 (e - er) * pow2 er)%Q).
  { subst x. rewrite <- Qmult_assoc, <- pow2_add. replace (e - er + er) with e by lia.
    reflexivity. }
  pose proof (pow2_pos er) as Hp. pose proof (pow2_half er) as Hh.
  assert (Hexact : loc = loc_Exact -> er = e ->
                   (inject_Z mz * pow2 ez == x)%Q).
  { intros Hloc Ee. specialize (Hex Hloc Ee). rewrite Hy, Hx, Hex, Ee, Z.sub_diag.
    change (pow2 0) with 1%Q. ring. }
  assert (Hlast : ez = er \/ (ez = er + 1 /\ (inject_Z mz * pow2 ez == pow2 (er + 24))%Q)).
  { destruct Hcase as [[-> ->]|(-> & -> & ->)]; [left; reflexivity|right].
    split; [reflexivity|]. rewrite !pow2_add. change (pow2 24) with (16777216#1)%Q.
    change (pow2 1) with 2%Q. change (inject_Z (2 ^ 23)) with (8388608#1)%Q.
    generalize (pow2 er). intros p. ring. }
  split; [rewrite Hy, Hx, Hh; nra|]. split; [rewrite Hy, Hx, Hh; nra|].
  split; [exact Hexact|]. split; [|exact Hlast].
  intros K HK. rewrite Hx in HK. rewrite Hy.
  assert (Ht : (t * pow2 (e - er) <= inject_Z K)%Q) by nra.
  specialize (Hmono K Ht). rewrite Zle_Qle in Hmono. nra.
Qed.

Lemma pow2_le_inv a b : (pow2 a <= pow2 b)%Q -> a <= b.
Proof.
  intros H. destruct (Z.le_gt_cases a b) as [Hle|Hgt]; [exact Hle|].
  assert (Hb : b + 1 <= a) by lia. pose proof (pow2_le _ _ Hb) as H1.
  rewrite pow2_add in H1. change (pow2 1) with 2%Q in H1.
  pose proof (pow2_pos b). lra.
Qed.

(** Where the located value sits relative to the digits of [m]. *)
Lemma located_ge_digits m loc t e :
  0 < m -> located_rec (shr_record_of_loc m loc) t ->
  (pow2 (Zdigits2 m - 1 + e) <= t * pow2 e)%Q.
Proof.
  intros Hm Hl.
  assert (Hrm : shr_m (shr_record_of_loc m loc) = m) by (destruct loc as [|[]]; reflexivity).
  pose proof (located_bounds _ _ _ _ Hl) as [Hlo _]. rewrite Hrm in Hlo.
  destruct m as [|p|p]; try lia. cbn [Zdigits2].
  pose proof (digits_lower p) as Hd. rewrite pow2_add.
  pose proof (pow2_pos e). nra.
Qed.

Lemma round_aux_close sx m e loc t :
  0 <= m -> located_rec (shr_record_of_loc m loc) t ->
  let x := (t * pow2 e)%Q in
  e <= 104 -> (x <= b32_max)%Q ->
  (loc = loc_Exact \/ (pow2 (e - 1) <= pow2 (-24) * x + pow2 (-150))%Q) ->
  let f := binary_round_aux 24 128 sx m e loc in
  b32_real f /\ b32_sign f = sx /\ b32_bounded f /\
  (b32_mag f - x <= pow2 (-24) * x + pow2 (-150))%Q /\
  (x - b32_mag f <= pow2 (-24) * x + pow2 (-150))%Q /\
  (e <= 0 -> (x <= 1)%Q -> (b32_mag f <= 1)%Q).
Proof.
  intros Hm Hl x He Hx Hloc f.
  destruct (round_aux_abs sx m e loc t Hm Hl)
    as (mz & ez & Hrun & Hmz & Hup & Hdn & Hex & Hmono & Hcase).
  fold x in Hup, Hdn, Hex, Hmono.
  set (er := Z.max e (fexp 24 128 (Zdigits2 m + e))) in *.
  assert (Hrm : shr_m (shr_record_of_loc m loc) = m) by (destruct loc as [|[]]; reflexivity).
  pose proof (located_bounds _ _ _ _ Hl) as [Hlo _]. rewrite Hrm in Hlo.
  assert (Hx0 : (0 <= x)%Q).
  { subst x. pose proof (pow2_pos e). assert (0 <= inject_Z m)%Q by
      (change 0%Q with (inject_Z 0); rewrite <- Zle_Qle; lia). nra. }
  assert (Hd0 : 0 <= Zdigits2 m) by (destruct m; simpl; lia).
  assert (Hdig : 0 < m -> Zdigits2 m - 1 + e < 128 /\
                 (pow2 (Zdigits2 m - 1 + e) <= x)%Q).
  { intros Hpos. pose proof (located_ge_digits m loc t e Hpos Hl) as Hge. fold x in Hge.
    split; [|exact Hge]. apply pow2_lt_inv. pose proof b32_max_lt. lra. }
  assert (Her : er <= 104).
  { subst er. unfold fexp, emin. destruct (Z.eq_dec m 0) as [->|Hne]; [simpl; lia|].
    destruct (Hdig ltac:(lia)). lia. }
  assert (Hez : ez <= 104).
  { destruct Hcase as [->|[-> Hy]]; [exact Her|].
    destruct (Z.eq_dec er 104) as [E|E]; [|lia].
    exfalso. specialize (Hmono (2 ^ 24 - 1)). rewrite E in Hmono, Hy.
    fold b32_max in Hmono. specialize (Hmono Hx). rewrite Hy in Hmono.
    pose proof b32_max_lt. change (104 + 24) with 128 in Hmono. lra. }
  assert (Herr : (pow2 (er - 1) <= pow2 (-24) * x + pow2 (-150))%Q
                 \/ (loc = loc_Exact /\ er = e)).
  { destruct (Z.eq_dec er e) as [Ee|Ene].
    - destruct Hloc as [Hl1|Hl2]; [right; auto|left; rewrite Ee; exact Hl2].
    - left. assert (Ef : er = fexp 24 128 (Zdigits2 m + e)) by (subst er; lia).
      unfold fexp, emin in Ef.
      assert (Hu : (0 <= pow2 (-24) * x)%Q) by (pose proof (pow2_pos (-24)); nra).
      destruct (Z.max_spec (Zdigits2 m + e - 24) (3 - 128 - 24)) as [[_ Em]|[_ Em]].
      + rewrite Em in Ef. rewrite Ef. change (3 - 128 - 24 - 1) with (-150). lra.
      + rewrite Em in Ef. assert (Hpos : 0 < m).
        { destruct m as [|p|p]; [simpl in *; subst er; lia|lia|lia]. }
        destruct (Hdig Hpos) as [_ Hge].
        replace (er - 1) with (-24 + (Zdigits2 m - 1 + e)) by lia.
        rewrite pow2_add. pose proof (pow2_pos (-24)). pose proof (pow2_pos (-150)).
        nra. }
  destruct (pack_real sx mz ez ltac:(lia) Hez) as (Hreal & Hsign & Hmag).
  subst f. rewrite Hrun. split; [exact Hreal|]. split; [exact Hsign|].
  split; [apply pack_bounded; exact Hmz|]. rewrite Hmag.
  assert (Hu : (0 <= pow2 (-24) * x + pow2 (-150))%Q).
  { pose proof (pow2_pos (-24)). pose proof (pow2_pos (-150)). nra. }
  split; [|split].
  - destruct Herr as [Hb|[Hl1 Ee]]; [lra|]. rewrite (Hex Hl1 Ee). lra.
  - destruct Herr as [Hb|[Hl1 Ee]]; [lra|]. rewrite (Hex Hl1 Ee). lra.
  - intros He0 Hx1.
    assert (Her0 : er <= 0).
    { subst er. unfold fexp, emin. destruct (Z.eq_dec m 0) as [->|Hne]; [simpl; lia|].
      destruct (Hdig ltac:(lia)) as [_ Hge].
      assert (Hle : Zdigits2 m - 1 + e <= 0).
      { apply pow2_le_inv. change (pow2 0) with 1%Q. lra. }
      lia. }
    specialize (Hmono (2 ^ (- er))).
    assert (E1 : (inject_Z (2 ^ (- er)) * pow2 er == 1)%Q).
    { rewrite <- pow2_Z by lia. rewrite <- pow2_add.
      replace (- er + er) with 0 by lia. reflexivity. }
    rewrite E1 in Hmono. apply Hmono. exact Hx1.
Qed.

Lemma inject_pos p : (0 < inject_Z (Zpos p))%Q.
Proof. change 0%Q with (inject_Z 0). rewrite <- Zlt_Qlt. lia. Qed.

Lemma b32_mul_close sx mx ex sy my ey :
  let x := (inject_Z (Zpos mx) * pow2 ex * (inject_Z (Zpos my) * pow2 ey))%Q in
  ex + ey <= 104 -> (x <= b32_max)%Q ->
  let f := b32_mul (S754_finite sx mx ex) (S754_finite sy my ey) in
  b32_real f /\ b32_sign f = xorb sx sy /\ b32_bounded f /\
  (b32_mag f - x <= pow2 (-24) * x + pow2 (-150))%Q /\
  (x - b32_mag f <= pow2 (-24) * x + pow2 (-150))%Q.
Proof.
  intros x He Hx f.
  assert (Ex : (inject_Z (Zpos (mx * my)) * pow2 (ex + ey) == x)%Q).
  { subst x. rewrite Pos2Z.inj_mul, inject_Z_mult, pow2_add.
    generalize (pow2 ex) (pow2 ey). intros a b. ring. }
  destruct (round_aux_close (xorb sx sy) (Zpos (mx * my)) (ex + ey) loc_Exact
              (inject_Z (Zpos (mx * my))))
    as (Hreal & Hsign & Hbd & Hup & Hdn & _).
  - lia.
  - unfold located_rec. cbn. reflexivity.
  - exact He.
  - rewrite Ex. exact Hx.
  - left. reflexivity.
  - rewrite Ex in Hup, Hdn. auto.
Qed.

(** The location of a remainder. *)
Lemma new_location_located (q r d : Z) :
  0 < d -> 0 <= r < d ->
  located_rec (shr_record_of_loc q (new_location d r))
    (inject_Z q + inject_Z r / inject_Z d).
Proof.
  intros Hd Hr.
  assert (HD : (0 < inject_Z d)%Q)
    by (change 0%Q with (inject_Z 0); rewrite <- Zlt_Qlt; lia).
  set (rho := (inject_Z r / inject_Z d)%Q).
  assert (Erho : (rho * inject_Z d == inject_Z r)%Q).
  { subst rho. field. intros E. rewrite E in HD. lra. }
  clearbody rho.
  assert (Hex : r = 0 -> located_rec (shr_record_of_loc q loc_Exact) (inject_Z q + rho)).
  { intros Er. rewrite Er in Erho. change (inject_Z 0) with 0%Q in Erho.
    assert (E0 : (rho == 0)%Q) by nra.
    unfold located_rec, located. cbn [shr_record_of_loc shr_m shr_r shr_s].
    rewrite E0. ring. }
  assert (Hlt : 2 * r < d ->
            located_rec (shr_record_of_loc q (loc_Inexact Lt)) (inject_Z q + rho) \/ r = 0).
  { intros E. destruct (Z.eq_dec r 0) as [E0|Hr0]; [right; exact E0|left].
    assert (Hr1 : (1 <= inject_Z r)%Q)
      by (change 1%Q with (inject_Z 1); rewrite <- Zle_Qle; lia).
    rewrite Zlt_Qlt, inject_Z_mult in E. change (inject_Z 2) with 2%Q in E.
    unfold located_rec, located. cbn [shr_record_of_loc shr_m shr_r shr_s].
    split; nra. }
  assert (Heq : 2 * r = d ->
            located_rec (shr_record_of_loc q (loc_Inexact Eq)) (inject_Z q + rho)).
  { intros E.
    assert (E' : (2 * inject_Z r == inject_Z d)%Q)
      by (rewrite <- E, inject_Z_mult; reflexivity).
    assert (Eh : (rho == 1#2)%Q) by (apply Qle_antisym; nra).
    unfold located_rec, located. cbn [shr_record_of_loc shr_m shr_r shr_s].
    rewrite Eh. reflexivity. }
  assert (Hgt : d < 2 * r ->
            located_rec (shr_record_of_loc q (loc_Inexact Gt)) (inject_Z q + rho)).
  { intros E.
    assert (Hr2 : (inject_Z r + 1 <= inject_Z d)%Q).
    { change 1%Q with (inject_Z 1). rewrite <- inject_Z_plus, <- Zle_Qle. lia. }
    rewrite Zlt_Qlt, inject_Z_mult in E. change (inject_Z 2) with 2%Q in E.
    unfold located_rec, located. cbn [shr_record_of_loc shr_m shr_r shr_s].
    split; nra. }
  unfold new_location, new_location_even, new_location_odd.
  destruct (Z.even d) eqn:Ev; cbn beta.
  - destruct (Z.eqb_spec r 0) as [Er|Hr0]; [auto|].
    destruct (Z.compare_spec (2 * r) d) as [E|E|E]; [auto| |auto].
    destruct (Hlt E) as [Hl|Hl]; [exact Hl|contradiction].
  - assert (Hodd : 2 * r <> d).
    { intros E. rewrite <- E, Z.even_mul in Ev. discriminate Ev. }
    destruct (Z.eqb_spec r 0) as [Er|Hr0]; [auto|].
    destruct (Z.compare_spec (2 * r + 1) d) as [E|E|E].
    + destruct (Hlt ltac:(lia)) as [Hl|Hl]; [exact Hl|contradiction].
    + destruct (Hlt ltac:(lia)) as [Hl|Hl]; [exact Hl|contradiction].
    + apply Hgt. lia.
Qed.

Lemma div_core_spec mx ex my ey :
  let c := SFdiv_core_binary 24 128 (Zpos mx) ex (Zpos my) ey in
  let x := (inject_Z (Zpos mx) * pow2 ex / (inject_Z (Zpos my) * pow2 ey))%Q in
  let D := Zpos (digits2_pos mx) + ex - (Zpos (digits2_pos my) + ey) in
  0 <= fst (fst c) /\
  snd (fst c) <= fexp 24 128 D /\
  (exists t, located_rec (shr_record_of_loc (fst (fst c)) (snd c)) t /\
             (t * pow2 (snd (fst c)) == x)%Q) /\
  (pow2 (D - 1) <= x)%Q.
Proof.
  intros c x D. subst c. unfold SFdiv_core_binary. cbn [Zdigits2]. fold D.
  set (e' := Z.min (fexp 24 128 D) (ex - ey)).
  set (s := ex - ey - e').
  assert (Hs : 0 <= s) by (subst s e'; lia).
  set (m' := match s with Zpos _ => Z.shiftl (Zpos mx) s | Z0 => Zpos mx | Zneg _ => 0 end).
  assert (Em : m' = Zpos mx * 2 ^ s).
  { subst m'. destruct s as [|p|p] eqn:Es; [lia| |lia].
    rewrite Z.shiftl_mul_pow2 by lia. reflexivity. }
  clearbody m'.
  pose proof (Z_div_mod m' (Zpos my) ltac:(lia)) as Hdm.
  destruct (Z.div_eucl m' (Zpos my)) as [q r]. destruct Hdm as [Hq Hr].
  cbn [fst snd].
  assert (Hm0 : 0 < m') by (rewrite Em; apply Z.mul_pos_pos; [lia|apply Z.pow_pos_nonneg; lia]).
  assert (Hq0 : 0 <= q) by nia.
  pose proof (inject_pos mx) as HX. pose proof (inject_pos my) as HM.
  pose proof (pow2_pos ex) as Pex. pose proof (pow2_pos ey) as Pey.
  pose proof (pow2_pos e') as Pe'. pose proof (pow2_pos s) as Ps.
  assert (Epow : (pow2 s * pow2 e' * pow2 ey == pow2 ex)%Q).
  { rewrite <- !pow2_add. replace (s + e' + ey) with ex by (subst s; lia). reflexivity. }
  assert (Ex : (x * (inject_Z (Zpos my) * pow2 ey) == inject_Z (Zpos mx) * pow2 ex)%Q).
  { subst x. field. split; lra. }
  split; [exact Hq0|]. split; [subst e'; lia|]. split.
  - exists (inject_Z q + inject_Z r / inject_Z (Zpos my))%Q.
    split; [apply new_location_located; lia|].
    assert (Et : ((inject_Z q + inject_Z r / inject_Z (Zpos my)) * inject_Z (Zpos my)
                  == inject_Z (Zpos mx) * pow2 s)%Q).
    { rewrite pow2_Z by exact Hs. rewrite <- inject_Z_mult, <- Em, Hq.
      rewrite inject_Z_plus, inject_Z_mult. field. lra. }
    set (t := (inject_Z q + inject_Z r / inject_Z (Zpos my))%Q) in *. clearbody t.
    apply (Qmult_inj_r _ _ (inject_Z (Zpos my) * pow2 ey)); [nra|].
    rewrite Ex, <- Epow.
    generalize dependent (pow2 s). generalize dependent (pow2 e').
    generalize dependent (pow2 ey). intros. 
    transitivity (t * inject_Z (Z.pos my) * q0 * q1)%Q; [ring|]. rewrite Et. ring.
  - pose proof (digits_lower mx) as Hlo. pose proof (digits_upper my) as Hup.
    set (d1 := Zpos (digits2_pos mx)) in *. set (d2 := Zpos (digits2_pos my)) in *.
    assert (Ed : (pow2 (D - 1) * (pow2 d2 * pow2 ey) == pow2 (d1 - 1) * pow2 ex)%Q).
    { rewrite <- !pow2_add. replace (D - 1 + (d2 + ey)) with (d1 - 1 + ex) by (subst D; lia).
      reflexivity. }
    pose proof (pow2_pos d2) as Pd2. pose proof (pow2_pos (d1 - 1)) as Pd1.
    pose proof (pow2_pos (D - 1)) as PD.
    assert (Hx0 : (0 < x)%Q).
    { subst x. apply Qlt_shift_div_l; nra. }
    apply (Qmult_le_r _ _ (pow2 d2 * pow2 ey)); [nra|].
    rewrite Ed. 
    apply Qle_trans with (inject_Z (Zpos mx) * pow2 ex)%Q; [nra|].
    rewrite <- Ex. assert (Hxe : (0 < x * pow2 ey)%Q) by nra.
    assert (H1 : (x * (inject_Z (Z.pos my) * pow2 ey) == x * pow2 ey * inject_Z (Zpos my))%Q) by ring.
    assert (H2 : (x * (pow2 d2 * pow2 ey) == x * pow2 ey * pow2 d2)%Q) by ring.
    rewrite H1, H2. nra.
Qed.

Lemma b32_div_close sx mx ex sy my ey :
  let x := (inject_Z (Zpos mx) * pow2 ex / (inject_Z (Zpos my) * pow2 ey))%Q in
  (x <= b32_max)%Q ->
  let f := b32_div (S754_finite sx mx ex) (S754_finite sy my ey) in
  b32_real f /\ b32_sign f = xorb sx sy /\ b32_bounded f /\
  (b32_mag f - x <= pow2 (-24) * x + pow2 (-150))%Q /\
  (x - b32_mag f <= pow2 (-24) * x + pow2 (-150))%Q /\
  ((x <= 1)%Q -> (b32_mag f <= 1)%Q).
Proof.
  intros x Hx f. subst f. unfold b32_div, SFdiv.
  pose proof (div_core_spec mx ex my ey) as Hc. cbn zeta in Hc. fold x in Hc.
  destruct (SFdiv_core_binary 24 128 (Zpos mx) ex (Zpos my) ey) as [[q e'] l].
  cbn [fst snd] in Hc. destruct Hc as (Hq & He' & (t & Hl & Et) & HD).
  set (D := Zpos (digits2_pos mx) + ex - (Zpos (digits2_pos my) + ey)) in *.
  assert (HD128 : D - 1 < 128).
  { apply pow2_lt_inv. pose proof b32_max_lt. lra. }
  unfold fexp, emin in He'.
  pose proof (pow2_pos (-24)) as Pu. pose proof (pow2_pos (-150)) as Pn.
  pose proof (pow2_pos (D - 1)) as PD.
  destruct (round_aux_close (xorb sx sy) q e' l t Hq Hl)
    as (Hreal & Hsign & Hbd & Hup & Hdn & Hone).
  - lia.
  - rewrite Et. exact Hx.
  - right. rewrite Et.
    destruct (Z.max_spec (D - 24) (3 - 128 - 24)) as [[_ Em]|[_ Em]]; rewrite Em in He'.
    + apply Qle_trans with (pow2 (-150)); [apply pow2_le; lia|nra].
    + apply Qle_trans with (pow2 (-24 + (D - 1))); [apply pow2_le; lia|].
      rewrite pow2_add. nra.
  - rewrite Et in Hup, Hdn, Hone. split; [exact Hreal|]. split; [exact Hsign|].
    split; [exact Hbd|]. split; [exact Hup|]. split; [exact Hdn|].
    intros Hx1. apply Hone; [|exact Hx1].
    assert (HD0 : D - 1 <= 0) by (apply pow2_le_inv; change (pow2 0) with 1%Q; lra).
    lia.
Qed.

Lemma bounded_mag sx m e :
  b32_bounded (S754_finite sx m e) ->
  (0 < inject_Z (Zpos m) * pow2 e <= b32_max)%Q.
Proof.
  intros [Hm He]. pose proof (inject_pos m) as Hp. pose proof (pow2_pos e) as Pe.
  split; [nra|]. unfold b32_max.
  pose proof (pow2_le e 104 He) as Hle. pose proof (pow2_pos 104) as P104.
  assert (Hm' : (inject_Z (Zpos m) <= inject_Z (2 ^ 24 - 1))%Q) by (rewrite <- Zle_Qle; lia).
  nra.
Qed.

(** Multiplying by the rounded reciprocal against dividing. *)
Lemma recip_close (s : spec_float) mc ec :
  b32_bounded s ->
  (1 <= inject_Z (Zpos mc) * pow2 ec <= pow2 24)%Q ->
  b32_close (b32_mul s (b32_div b32_one (S754_finite false mc ec)))
            (b32_div s (S754_finite false mc ec)).
Proof.
  intros Hs [HC1 HC2].
  set (C := (inject_Z (Zpos mc) * pow2 ec)%Q) in *.
  assert (HC0 : (0 < C)%Q) by lra.
  (* the reciprocal *)
  pose proof (b32_div_close false 8388608 (-23) false mc ec) as Hr. cbn zeta in Hr.
  fold C in Hr.
  assert (E1 : (inject_Z (Zpos 8388608) * pow2 (-23) == 1)%Q) by reflexivity.
  set (xr := (inject_Z (Zpos 8388608) * pow2 (-23) / C)%Q) in *.
  assert (Exr : (xr * C == 1)%Q) by (subst xr; rewrite E1; field; lra).
  assert (Hxr1 : (xr <= 1)%Q) by nra.
  assert (Hxr0 : (0 < xr)%Q) by nra.
  assert (Emax : (1 <= b32_max)%Q).
  { unfold b32_max. rewrite pow2_Z by lia. rewrite <- inject_Z_mult.
    change 1%Q with (inject_Z 1). rewrite <- Zle_Qle. lia. }
  destruct (Hr ltac:(lra)) as (Rreal & Rsign & Rbd & Rup & Rdn & Rone).
  specialize (Rone Hxr1).
  fold (b32_div b32_one (S754_finite false mc ec)) in *.
  change (b32_div (S754_finite false 8388608 (-23))) with (b32_div b32_one) in *.
  set (r := b32_div b32_one (S754_finite false mc ec)) in *.
  assert (P24 : (pow2 (-24) == 1 # 16777216)%Q) by reflexivity.
  assert (P22 : (pow2 (-22) == 1 # 4194304)%Q) by reflexivity.
  assert (P126 : (pow2 (-150) == pow2 (-126) * (1 # 16777216))%Q).
  { rewrite <- P24, <- pow2_add. reflexivity. }
  assert (P148 : (pow2 (-148) == 4 * pow2 (-150))%Q).
  { replace (-148) with (2 + -150) by lia. rewrite pow2_add. reflexivity. }
  assert (Q126 : (0 < pow2 (-126) <= 1 # 16777216)%Q).
  { split; [apply pow2_pos|]. rewrite <- P24. apply pow2_le. lia. }
  assert (Hxr24 : (1 # 16777216 <= xr)%Q).
  { assert (E24 : (pow2 24 == 16777216 # 1)%Q) by reflexivity. rewrite E24 in HC2. nra. }
  pose proof (pow2_pos (-150)) as Peta.
  rewrite P24 in Rup, Rdn.
  assert (Reta : (pow2 (-150) <= pow2 (-126) * xr)%Q) by (rewrite P126; nra).
  assert (Rmag : (0 < b32_mag r)%Q) by nra.
  destruct r as [sr|sr| |sr mr er] eqn:Er; try contradiction;
    [cbn in Rmag; lra|].
  cbn [b32_sign xorb] in Rsign. subst sr. cbn [b32_mag] in *.
  set (R := (inject_Z (Zpos mr) * pow2 er)%Q) in *.
  assert (Her : er <= 0).
  { apply pow2_le_inv. change (pow2 0) with 1%Q. pose proof (inject_pos mr) as Hp.
    pose proof (pow2_pos er) as Pp.
    assert (H1 : (1 <= inject_Z (Zpos mr))%Q)
      by (change 1%Q with (inject_Z 1); rewrite <- Zle_Qle; lia).
    subst R. nra. }
  destruct s as [ss|ss| |ss ms es]; try (left; reflexivity).
  right.
  destruct (bounded_mag _ _ _ Hs) as [HS0 HSmax]. destruct Hs as [Hms Hes].
  set (S := (inject_Z (Zpos ms) * pow2 es)%Q) in *.
  pose proof (b32_mul_close ss ms es false mr er) as Hm. cbn zeta in Hm.
  fold S R in Hm.
  destruct (Hm ltac:(lia) ltac:(nra)) as (M1 & M2 & M3 & Mup & Mdn).
  pose proof (b32_div_close ss ms es false mc ec) as Hd. cbn zeta in Hd.
  fold S C in Hd.
  assert (Ex2 : (S / C == S * xr)%Q).
  { subst xr. rewrite E1. field. lra. }
  assert (Hx2max : (S / C <= b32_max)%Q) by (rewrite Ex2; nra).
  destruct (Hd Hx2max) as (D1 & D2 & D3 & Dup & Ddn & _).
  rewrite Ex2 in Dup, Ddn. rewrite P24 in Mup, Mdn, Dup, Ddn.
  split; [exact M1|]. split; [exact D1|]. split; [rewrite M2, D2; reflexivity|].
  set (v1 := b32_mag (b32_mul (S754_finite ss ms es) (S754_finite false mr er))) in *.
  set (v2 := b32_mag (b32_div (S754_finite ss ms es) (S754_finite false mc ec))) in *.
  clearbody v1 v2. rewrite P22, P148.
  assert (A1 : (S * R - S * xr <= ((1 # 16777216) + pow2 (-126)) * (S * xr))%Q) by nra.
  assert (A2 : (S * xr - S * R <= ((1 # 16777216) + pow2 (-126)) * (S * xr))%Q) by nra.
  assert (A3 : (0 < S * xr)%Q) by nra.
  assert (W126 : (pow2 (-126) == 1 # 85070591730234615865843651857942052864)%Q)
    by reflexivity.
  rewrite W126 in A1, A2.
  generalize dependent (S * xr)%Q. generalize dependent (S * R)%Q.
  generalize dependent (pow2 (-150)).
  intros. split; lra.
Qed.

Lemma located_exists m loc : exists t, located_rec (shr_record_of_loc m loc) t.
Proof.
  destruct loc as [|[]]; unfold located_rec, located; cbn [shr_record_of_loc shr_m shr_r shr_s].
  - exists (inject_Z m). reflexivity.
  - exists (inject_Z m + (1#2))%Q. reflexivity.
  - exists (inject_Z m + (1#4))%Q. split; lra.
  - exists (inject_Z m + (3#4))%Q. split; lra.
Qed.

Lemma round_aux_bounded sx m e loc :
  0 <= m -> b32_bounded (binary_round_aux 24 128 sx m e loc).
Proof.
  intros Hm. destruct (located_exists m loc) as [t Ht].
  destruct (round_aux_spec sx m e loc t Hm Ht) as (ms & mz & ez & -> & Hmz & _).
  apply pack_bounded, Hmz.
Qed.

Lemma normalize_bounded z e sz : b32_bounded (binary_normalize 24 128 z e sz).
Proof.
  unfold binary_normalize, binary_round. destruct z as [|p|p]; [exact I| |].
  - destruct (shl_align p e _) as [mz ez]. apply round_aux_bounded. lia.
  - destruct (shl_align p e _) as [mz ez]. apply round_aux_bounded. lia.
Qed.

Lemma b32_add_bounded x y :
  b32_bounded x -> b32_bounded y -> b32_bounded (b32_add x y).
Proof.
  intros Hx Hy. unfold b32_add, SFadd.
  destruct x as [sx|sx| |sx mx ex], y as [sy|sy| |sy my ey];
    try exact I; try exact Hx; try exact Hy;
    try (destruct sx, sy; exact I).
  apply normalize_bounded.
Qed.

Lemma b32_sub_bounded x y :
  b32_bounded x -> b32_bounded y -> b32_bounded (b32_sub x y).
Proof.
  intros Hx Hy. unfold b32_sub, SFsub.
  destruct x as [sx|sx| |sx mx ex], y as [sy|sy| |sy my ey];
    try exact I; try exact Hx; try exact Hy;
    try (destruct sx, sy; exact I).
  apply normalize_bounded.
Qed.

(** ** The block loop against the single-step loop in binary32 *)

Lemma shift_left_value m k :
  0 <= k -> Zpos (shift_left m k) = Zpos m * 2 ^ k.
Proof.
  intros Hk. unfold shift_left. destruct k as [|p|p]; [lia| |lia].
  induction p using Pos.peano_ind.
  - simpl. lia.
  - rewrite Pos.iter_succ, Pos2Z.inj_xO, IHp by lia.
    rewrite Pos2Z.inj_succ, Z.pow_succ_r by lia. lia.
Qed.

Lemma b32_normal_mag m :
  Zpos (digits2_pos m) <= 24 -> (b32_mag (b32_normal m) == inject_Z (Zpos m))%Q.
Proof.
  intros Hd. unfold b32_normal. cbn [b32_mag].
  rewrite shift_left_value by lia. rewrite inject_Z_mult.
  rewrite <- pow2_Z by lia. rewrite <- Qmult_assoc, <- pow2_add.
  replace (24 - Zpos (digits2_pos m) + (Zpos (digits2_pos m) - 24)) with 0 by lia.
  change (pow2 0) with 1%Q. ring.
Qed.

(** The float counter is a positive float of magnitude 1 to 2^24. *)
Lemma count_b32_form (k : nat) :
  (1 <= k)%nat ->
  exists mc ec,
    count (F := spec_float) k = S754_finite false mc ec /\
    (1 <= inject_Z (Zpos mc) * pow2 ec <= pow2 24)%Q.
Proof.
  intros Hk. destruct (count_b32_value k Hk) as (z & Hz1 & Hz2 & ->).
  destruct (Z.eq_dec z (2 ^ 24)) as [->|Hne].
  - exists 8388608%positive, 1. split; [reflexivity|].
    split; vm_compute; discriminate.
  - destruct z as [|m|m]; try lia.
    unfold b32_of_Z. rewrite b32_of_pos by (apply digits_bound; lia).
    pose proof (b32_normal_mag m ltac:(apply digits_bound; lia)) as Hmag.
    unfold b32_normal in *. cbn [b32_mag] in Hmag.
    eexists _, _. split; [reflexivity|]. rewrite Hmag. rewrite pow2_Z by lia.
    change 1%Q with (inject_Z 1). rewrite <- !Zle_Qle. lia.
Qed.

Lemma prefix_sum_bounded (x : nat -> spec_float) t :
  (forall j, (j < t)%nat -> b32_bounded (x j)) -> b32_bounded (prefix_sum x t).
Proof.
  induction t as [|t IH]; intros Hx; [exact I|]. cbn [prefix_sum].
  apply b32_add_bounded; [apply IH; intros j Hj; apply Hx; lia|apply Hx; lia].
Qed.

Lemma slide_sum_bounded (x : nat -> spec_float) w k :
  (forall j, (j < w + k)%nat -> b32_bounded (x j)) -> b32_bounded (slide_sum x w k).
Proof.
  induction k as [|k IH]; intros Hx; cbn [slide_sum].
  - apply prefix_sum_bounded. intros j Hj. apply Hx. lia.
  - apply b32_sub_bounded; [apply b32_add_bounded|]; [apply IH; intros j Hj| |];
      apply Hx; lia.
Qed.

(** The two closed forms differ at the steps of the block loop only,
    and there by the product with the reciprocal in the place of the
    quotient, of the same sum by the same count. *)
Lemma out_value_paths {F : Type} `{FloatArith F} kb (x : nat -> F) w n i :
  let first := (w - half_window w)%nat in
  ((i < first \/ first + kb <= i)%nat -> out_value kb x w n i = out_value O x w n i) /\
  (out_value kb x w n i = out_value O x w n i \/
   (first <= i /\ i < n - half_window w)%nat /\
   out_value kb x w n i
   = f_mul (slide_sum x w (S (i - first))) (f_div f_one (count w)) /\
   out_value O x w n i = f_div (slide_sum x w (S (i - first))) (count w)).
Proof.
  intros first. unfold out_value. cbn zeta. fold first.
  destruct (Nat.ltb_spec i first) as [H1|H1]; [split; auto|].
  destruct (Nat.ltb_spec i (n - half_window w)) as [H2|H2]; [|split; auto].
  destruct (Nat.ltb_spec (i - first) kb) as [H3|H3].
  - split; [intros [Hc|Hc]; lia|]. right. split; [lia|]. split; reflexivity.
  - split; auto.
Qed.

(** C2.  In binary32, on allocated and separate sequences whose input
    samples are [float] values, with a non-zero stride and
    [1 <= windowSize <= length]: the function with its block-of-8 loop
    and the function whose steady state is run by the single-step loop
    alone both return, store to the same cells in the same order and
    leave every other cell alike; at every output position the two
    results are equal up to the tolerance [b32_close].  They are the same
    float at every position the block loop does not compute; at a
    position it computes, the block path holds [sum * (1 / count)] and
    the single-step path [sum / count] for one and the same running sum
    and count. *)
Theorem box1D_block_fallback_close (m : machine spec_float) p q n s w :
  1 <= w <= n -> s <> 0 ->
  (forall k, 0 <= k < n ->
     exists v, heap m !! (p + k * s) = Some v /\ b32_bounded v) ->
  allocated (heap m) q s n ->
  disjoint_seqs p q s n ->
  exists m1 m2,
    box1DFloatC p q n s w m = Some m1 /\
    box1D_fallback p q n s w m = Some m2 /\
    writes m1 = writes m2 /\
    (forall adr, adr ∉ out_addrs q s (Z.to_nat n) -> heap m1 !! adr = heap m2 !! adr) /\
    forall k, 0 <= k < n ->
      exists v1 v2,
        heap m1 !! (q + k * s) = Some v1 /\ heap m2 !! (q + k * s) = Some v2 /\
        b32_close v1 v2 /\
        (v1 = v2 \/
         exists sum, b32_bounded sum /\
           v1 = b32_mul sum (b32_div b32_one (count (Z.to_nat w))) /\
           v2 = b32_div sum (count (Z.to_nat w))) /\
        (let first := (Z.to_nat w - half_window (Z.to_nat w))%nat in
         (Z.to_nat k < first \/
          first + 8 * blocks (Z.to_nat n - Z.to_nat w) <= Z.to_nat k)%nat ->
         v1 = v2).
Proof.
  intros Hw Hs Hsamples Hout Hsep.
  assert (Hin : allocated (heap m) p s n).
  { intros k Hk. destruct (Hsamples k Hk) as (v & -> & _). eauto. }
  destruct (box1D_heap m p q n s w Hw Hin Hout Hsep)
    as (m1 & Hrun1 & Hheap1 & Hwr1 & _ & _).
  destruct (box1D_result m p q s n w Hw Hin Hout) as (m1' & Hrun1' & Hinv1).
  assert (m1' = m1) by congruence. subst m1'.
  destruct Hinv1 as (_ & _ & _ & Hframe1 & _).
  destruct (box1D_fallback_result m p q s n w Hw Hin Hout)
    as (m2 & dl & Hrun2 & Hinv2).
  destruct Hinv2 as (Hwr2 & _ & _ & Hframe2 & Hheap2).
  specialize (Hheap2 (separate_nat p q s n Hsep)).
  exists m1, m2. split; [exact Hrun1|]. split; [exact Hrun2|].
  split; [congruence|]. split.
  { intros adr Hadr. rewrite Hframe1, Hframe2 by exact Hadr. reflexivity. }
  intros k Hk.
  set (x := sample m p s) in *.
  set (kb := (8 * blocks (Z.to_nat n - Z.to_nat w))%nat) in *.
  exists (out_value kb x (Z.to_nat w) (Z.to_nat n) (Z.to_nat k)),
         (out_value O x (Z.to_nat w) (Z.to_nat n) (Z.to_nat k)).
  split; [rewrite Hheap1, <- (Z2Nat.id k) at 1 by lia; apply written_lookup; lia|].
  split; [rewrite Hheap2, <- (Z2Nat.id k) at 1 by lia; apply written_lookup; lia|].
  assert (Hx : forall j, (j < Z.to_nat n)%nat -> b32_bounded (x j)).
  { intros j Hj. subst x. unfold sample.
    destruct (Hsamples (Z.of_nat j) ltac:(lia)) as (v & -> & Hv). exact Hv. }
  destruct (out_value_paths kb x (Z.to_nat w) (Z.to_nat n) (Z.to_nat k))
    as [Hsame Hcases].
  assert (Hmain : out_value kb x (Z.to_nat w) (Z.to_nat n) (Z.to_nat k)
                  = out_value O x (Z.to_nat w) (Z.to_nat n) (Z.to_nat k) \/
                  exists sum, b32_bounded sum /\
                    out_value kb x (Z.to_nat w) (Z.to_nat n) (Z.to_nat k)
                    = b32_mul sum (b32_div b32_one (count (Z.to_nat w))) /\
                    out_value O x (Z.to_nat w) (Z.to_nat n) (Z.to_nat k)
                    = b32_div sum (count (Z.to_nat w))).
  { destruct Hcases as [E|(Hpos & E1 & E2)]; [left; exact E|right].
    eexists. split; [|split; [exact E1|exact E2]].
    apply slide_sum_bounded. intros j Hj. apply Hx.
    pose proof (half_window_facts (Z.to_nat w)) as (_ & _ & Ha & _). lia. }
  split; [|split; [exact Hmain|exact Hsame]].
  destruct Hmain as [E|(sum & Hb & E1 & E2)]; [left; exact E|].
  rewrite E1, E2.
  destruct (count_b32_form (Z.to_nat w) ltac:(lia)) as (mc & ec & -> & HC).
  apply recip_close; assumption.
Qed.

Lemma box1D_block_fallback_close_witness :
  let m := two_arrays 0 (b32_of_Z <$> [0; 0; 0; 10; 0; 0; 0; 0; 0; 0; 0; 0])
                      100 (replicate 12 f_zero) in
  exists m1 m2,
    box1DFloatC 0 100 12 1 3 m = Some m1 /\
    box1D_fallback 0 100 12 1 3 m = Some m2 /\
    writes m1 = writes m2 /\
    (forall adr, adr ∉ out_addrs 100 1 (Z.to_nat 12) -> heap m1 !! adr = heap m2 !! adr) /\
    forall k, 0 <= k < 12 ->
      exists v1 v2,
        heap m1 !! (100 + k * 1) = Some v1 /\ heap m2 !! (100 + k * 1) = Some v2 /\
        b32_close v1 v2 /\
        (v1 = v2 \/
         exists sum, b32_bounded sum /\
           v1 = b32_mul sum (b32_div b32_one (count (Z.to_nat 3))) /\
           v2 = b32_div sum (count (Z.to_nat 3))) /\
        (let first := (Z.to_nat 3 - half_window (Z.to_nat 3))%nat in
         (Z.to_nat k < first \/
          first + 8 * blocks (Z.to_nat 12 - Z.to_nat 3) <= Z.to_nat k)%nat ->
         v1 = v2).
Proof.
  intros m.
  apply (box1D_block_fallback_close m 0 100 12 1 3);
    [lia | lia | | small_alloc | small_disjoint].
  intros k Hk. small_range k Hk; eexists; (split; [reflexivity|]);
    first [exact I | split; [reflexivity | discriminate]].
Defined.

(** ** The repetitions of the filter *)

Section Repetitions.
Context {F : Type} `{FloatArith F}.
Implicit Types (m : machine F).

(** The stores of one repetition: buffer B row by row, then buffer A
    column by column. *)
Lemma repetition_trace m bufferA bufferB numRows numCols wr wc :
  1 <= wr <= numCols -> 1 <= wc <= numRows ->
  allocated (heap m) bufferA 1 (numRows * numCols) ->
  allocated (heap m) bufferB 1 (numRows * numCols) ->
  disjoint_seqs bufferA bufferB 1 (numRows * numCols) ->
  exists m',
    repetition bufferA bufferB numRows numCols wr wc m = Some m' /\
    writes m' = writes m
      ++ (out_addrs bufferB 1 (Z.to_nat numRows * Z.to_nat numCols)
          ++ concat ((fun j : nat => out_addrs (bufferA + Z.of_nat j) numCols
                                       (Z.to_nat numRows))
                       <$> seq 0 (Z.to_nat numCols))).
Proof.
  intros Hwr Hwc HA HB Hsep. unfold repetition.
  destruct (rows_result m bufferA bufferB numRows numCols wr Hwr HA HB Hsep)
    as (m1 & -> & Hdom1 & _ & _ & Hw1 & _).
  cbn [mbind option_bind].
  destruct (cols_result m1 bufferB bufferA numRows numCols wc Hwc)
    as (m2 & Hrun2 & _ & _ & _ & Hw2 & _).
  { apply (allocated_dom (heap m)); assumption. }
  { apply (allocated_dom (heap m)); assumption. }
  { apply disjoint_seqs_sym, Hsep. }
  exists m2. split; [exact Hrun2|]. rewrite Hw2, Hw1, <- app_assoc. reflexivity.
Qed.

(** C5.  On two allocated, separate buffers and with windows in range,
    for every [nreps >= 0]: the filter returns and is [nreps] times the
    repetition "row pass from buffer A into buffer B with the window
    along rows, then column pass from buffer B into buffer A with the
    window along columns"; its stores are, [nreps] times over, those of
    the row pass into buffer B followed by those of the column pass into
    buffer A; at the end buffer A holds the image smoothed [nreps]
    times, and buffer B, after at least one repetition, the rows of the
    last repetition filtered, which the last column pass read. *)
Theorem jarosz_repetitions m bufferA bufferB numRows numCols windowRows windowCols nreps :
  0 <= nreps ->
  1 <= windowRows <= numCols -> 1 <= windowCols <= numRows ->
  allocated (heap m) bufferA 1 (numRows * numCols) ->
  allocated (heap m) bufferB 1 (numRows * numCols) ->
  disjoint_seqs bufferA bufferB 1 (numRows * numCols) ->
  let result (k : nat) :=
    smoothed k (Z.to_nat windowRows) (Z.to_nat windowCols)
      (Z.to_nat numRows) (Z.to_nat numCols) (image m bufferA numCols) in
  exists m',
    jaroszFilterFloat bufferA bufferB numRows numCols windowRows windowCols nreps m
    = Some m' /\
    repeat_opt (Z.to_nat nreps)
      (repetition bufferA bufferB numRows numCols windowRows windowCols) m
    = Some m' /\
    writes m' = writes m
      ++ concat (replicate (Z.to_nat nreps)
           (out_addrs bufferB 1 (Z.to_nat numRows * Z.to_nat numCols)
            ++ concat ((fun j : nat => out_addrs (bufferA + Z.of_nat j) numCols
                                         (Z.to_nat numRows))
                         <$> seq 0 (Z.to_nat numCols)))) /\
    (forall i j, 0 <= i < numRows -> 0 <= j < numCols ->
       heap m' !! (bufferA + i * numCols + j)
       = Some (result (Z.to_nat nreps) (Z.to_nat i) (Z.to_nat j))) /\
    (1 <= nreps ->
     forall i j, 0 <= i < numRows -> 0 <= j < numCols ->
       heap m' !! (bufferB + i * numCols + j)
       = Some (rows_filtered (Z.to_nat windowRows) (Z.to_nat numCols)
                 (result (Z.to_nat nreps - 1)%nat) (Z.to_nat i) (Z.to_nat j))).
Proof.
  intros Hn Hwr Hwc HA HB Hsep result. rewrite jarosz_repeat.
  set (stores := out_addrs bufferB 1 (Z.to_nat numRows * Z.to_nat numCols)
                 ++ concat ((fun j : nat => out_addrs (bufferA + Z.of_nat j) numCols
                                              (Z.to_nat numRows))
                              <$> seq 0 (Z.to_nat numCols))).
  assert (Hk : forall k : nat, exists mk,
            repeat_opt k (repetition bufferA bufferB numRows numCols
                            windowRows windowCols) m = Some mk /\
            dom (heap mk) = dom (heap m) /\
            writes mk = writes m ++ concat (replicate k stores) /\
            (forall i j, 0 <= i < numRows -> 0 <= j < numCols ->
               heap mk !! (bufferA + i * numCols + j)
               = Some (result k (Z.to_nat i) (Z.to_nat j))) /\
            ((1 <= k)%nat ->
             forall i j, 0 <= i < numRows -> 0 <= j < numCols ->
               heap mk !! (bufferB + i * numCols + j)
               = Some (rows_filtered (Z.to_nat windowRows) (Z.to_nat numCols)
                         (result (k - 1)%nat) (Z.to_nat i) (Z.to_nat j)))).
  { induction k as [|k IH].
    - exists m. split; [reflexivity|]. split; [reflexivity|].
      split; [simpl; rewrite app_nil_r; reflexivity|]. split; [|lia].
      intros i j Hi Hj. subst result. cbn [smoothed]. unfold image, sample.
      rewrite !Z2Nat.id by lia.
      replace (bufferA + i * numCols + j * 1) with (bufferA + (i * numCols + j) * 1)
        by lia.
      destruct (HA (i * numCols + j) ltac:(nia)) as [v Hv].
      replace (bufferA + i * numCols + j) with (bufferA + (i * numCols + j) * 1)
        by lia.
      rewrite Hv. reflexivity.
    - destruct IH as (mk & Hrun & Hdom & Hwrk & HvA & _).
      rewrite repeat_opt_snoc, Hrun. cbn [mbind option_bind].
      assert (HAk : allocated (heap mk) bufferA 1 (numRows * numCols))
        by (apply (allocated_dom (heap m)); assumption).
      assert (HBk : allocated (heap mk) bufferB 1 (numRows * numCols))
        by (apply (allocated_dom (heap m)); assumption).
      destruct (repetition_result mk bufferA bufferB numRows numCols
                  windowRows windowCols Hwr Hwc HAk HBk Hsep)
        as (m' & Hrun' & Hdom' & _ & HB' & HA' & _).
      destruct (repetition_trace mk bufferA bufferB numRows numCols
                  windowRows windowCols Hwr Hwc HAk HBk Hsep)
        as (m'' & Hrun'' & Hwr'').
      assert (m'' = m') by congruence. subst m''.
      assert (Hrow : forall (i' j' : nat),
                (i' < Z.to_nat numRows)%nat -> (j' < Z.to_nat numCols)%nat ->
                out_value (8 * blocks (Z.to_nat numCols - Z.to_nat windowRows))
                  (sample mk (bufferA + Z.of_nat i' * numCols) 1)
                  (Z.to_nat windowRows) (Z.to_nat numCols) j'
                = rows_filtered (Z.to_nat windowRows) (Z.to_nat numCols)
                    (result k) i' j').
      { intros i' j' Hi' Hj'. unfold rows_filtered.
        apply out_value_ext; [lia|exact Hj'|]. intros c Hc. unfold sample.
        replace (bufferA + Z.of_nat i' * numCols + Z.of_nat c * 1)
          with (bufferA + Z.of_nat i' * numCols + Z.of_nat c) by lia.
        rewrite HvA by lia. rewrite !Nat2Z.id. reflexivity. }
      exists m'. split; [exact Hrun'|]. split; [congruence|].
      split; [|split].
      + rewrite Hwr'', Hwrk, replicate_S_end, concat_app. simpl.
        rewrite app_nil_r, <- app_assoc. reflexivity.
      + intros i j Hi Hj. rewrite (HA' i j Hi Hj). f_equal.
        subst result. cbn [smoothed]. unfold cols_filtered.
        apply out_value_ext; [lia|lia|]. intros c Hc. apply Hrow; lia.
      + intros _ i j Hi Hj. rewrite (HB' i j Hi Hj). f_equal.
        replace (Datatypes.S k - 1)%nat with k by lia.
        rewrite <- (Z2Nat.id i) at 1 by lia. apply Hrow; lia. }
  destruct (Hk (Z.to_nat nreps)) as (m' & Hrun & _ & Hwrs & HvA & HvB).
  exists m'. split; [exact Hrun|]. split; [exact Hrun|]. split; [exact Hwrs|].
  split; [exact HvA|]. intros Hn1. apply HvB. lia.
Qed.

End Repetitions.

Lemma jarosz_repetitions_witness :
  let m := two_arrays 0 (b32_of_Z <$> [1; 2; 3; 4; 5; 6]) 100 (replicate 6 f_zero) in
  let result (k : nat) :=
    smoothed k (Z.to_nat 2) (Z.to_nat 2) (Z.to_nat 2) (Z.to_nat 3) (image m 0 3) in
  exists m',
    jaroszFilterFloat 0 100 2 3 2 2 2 m = Some m' /\
    repeat_opt (Z.to_nat 2) (repetition 0 100 2 3 2 2) m = Some m' /\
    writes m' = writes m
      ++ concat (replicate (Z.to_nat 2)
           (out_addrs 100 1 (Z.to_nat 2 * Z.to_nat 3)
            ++ concat ((fun j : nat => out_addrs (0 + Z.of_nat j) 3 (Z.to_nat 2))
                         <$> seq 0 (Z.to_nat 3)))) /\
    (forall i j, 0 <= i < 2 -> 0 <= j < 3 ->
       heap m' !! (0 + i * 3 + j)
       = Some (result (Z.to_nat 2) (Z.to_nat i) (Z.to_nat j))) /\
    (1 <= 2 ->
     forall i j, 0 <= i < 2 -> 0 <= j < 3 ->
       heap m' !! (100 + i * 3 + j)
       = Some (rows_filtered (Z.to_nat 2) (Z.to_nat 3)
                 (result (Z.to_nat 2 - 1)%nat) (Z.to_nat i) (Z.to_nat j))).
Proof.
  intros m.
  apply (jarosz_repetitions m 0 100 2 3 2 2 2);
    [lia | lia | lia | | | small_disjoint]; small_alloc.
Defined.
